(** * gdb/tracepoint.c: collection lists, tracepoint registry, action
      validation, the tstart packet sequence and the trace-frame cursor.

    A shallow embedding of the functions of [gdb/tracepoint.c] that the
    specification talks about, followed by the theorems that settle each
    claim of the specification against them.

    Conventions.
    - C integers are [Z]; every place where the C code truncates, converts
      between signed and unsigned, or would overflow is written out with
      [wrap_signed] / [wrap_unsigned].
    - [error ()] unwinds to the command loop: a function that may call it
      returns an [outcome].  A store outside an array and a signed overflow
      of an [int] counter are undefined behaviour in C and are recorded as
      [Undefined], never silently given a value; a loop that the C code
      never leaves is [Diverges].
    - Target and host macros that live in headers outside this file
      ([MAX_REGISTER_VIRTUAL_SIZE], [NUM_REGS], [FP_REGNUM], the width of
      [bfd_vma]) are the fields of the class [Target].
    - The symbol table, the expression parser and the frame machinery are
      collaborators; their entry points are the fields of [Collaborators]. *)

From Stdlib Require Import ZArith Lia Bool Ascii String.
From stdpp Require Import base list strings gmap sorting.

Local Open Scope Z_scope.

(* ===================================================================== *)
(** * Part I.  Definitions                                                *)
(* ===================================================================== *)

(** ** C integer conversions *)

Definition wrap_unsigned (bits x : Z) : Z := x mod 2 ^ bits.

Definition wrap_signed (bits x : Z) : Z :=
  let r := x mod 2 ^ bits in
  if r <? 2 ^ (bits - 1) then r else r - 2 ^ bits.

Definition int_bits : Z := 32.
Definition INT_MAX : Z := 2 ^ 31 - 1.
Definition INT_MIN : Z := - 2 ^ 31.

(** ** Outcomes of a C function that may call [error ()] *)

Inductive gdb_error : Type :=
  | err_register_too_large (regno : Z)
      (* "Internal: register number %d too large for tracepoint" *)
  | err_actions_too_complex (number : Z)
      (* "Actions for tracepoint %d too complex; please simplify." *)
  | err_no_such_command
      (* "Target does not support this command." *)
  | err_no_tracepoints
      (* "Target does not support tracepoints." *)
  | err_bogus_reply (reply : string)
      (* "Bogus reply from target: %s" / "Bogus response from target: %s" *)
  | err_frame_not_found
      (* "Target failed to find requested trace frame." *)
  | err_outgoing_packet
      (* "tracepoint.c: error in outgoing packet." *)
  | err_outgoing_packet_field (field : Z)
      (* "tracepoint.c: error in outgoing packet at field #%d." *)
  | err_trace_api (code : string)
      (* "trace API error 0x%s." *)
  | err_target_code (code : string)
      (* "Target returns error code '%s'." *)
  | err_malformed_R_packet
      (* "tracepoint.c: malformed 'R' packet" *)
  | err_not_remote
      (* "Trace can only be run on remote targets." *)
  | err_not_debugging_trace_buffer
      (* "not debugging trace buffer" *)
  | err_already_at_start
      (* "already at start of trace buffer" *)
  | err_no_current_tracepoint
      (* "No current tracepoint -- please supply an argument." *)
  | err_bad_memrange (what : string)
      (* the messages of parse_and_eval_memrange *)
  | err_parse (text : string)
      (* an error raised inside the expression parser *)
  | err_argument_required
  | err_transport
      (* the packet layer gave up waiting for a reply *)
  | err_convenience_not_integral
      (* "Convenience variable must have integral type." *).

Inductive outcome (A : Type) : Type :=
  | Returned (a : A)
  | Raised (e : gdb_error)
  | Undefined (what : string)
  | Diverges.
Arguments Returned {A} a.
Arguments Raised {A} e.
Arguments Undefined {A} what.
Arguments Diverges {A}.

Global Instance outcome_ret : MRet outcome := fun A a => Returned a.
Global Instance outcome_bind : MBind outcome := fun A B k m =>
  match m with
  | Returned a => k a
  | Raised e => Raised e
  | Undefined w => Undefined w
  | Diverges => Diverges
  end.
Global Instance outcome_fmap : FMap outcome := fun A B f m =>
  match m with
  | Returned a => Returned (f a)
  | Raised e => Raised e
  | Undefined w => Undefined w
  | Diverges => Diverges
  end.

(** ** Target description (macros of the tm-*.h and bfd headers) *)

Class Target := {
  vma_bits : positive;              (* width of bfd_vma and bfd_signed_vma *)
  long_bits : positive;             (* width of long and unsigned long *)
  long_bits_min : 32 <= Z.pos long_bits;        (* a long has 32 bits or more *)
  MAX_REGISTER_VIRTUAL_SIZE : Z;
  NUM_REGS : Z;
  FP_REGNUM : Z;
  REGISTER_RAW_SIZE : Z -> Z;
  (* What a function defined in the old style with a CORE_ADDR parameter
     reads when it is called with the int argument [n] and no prototype is
     in scope: the argument is passed as an int, unconverted.  Where
     CORE_ADDR has the width of int the function reads the same bits; on
     other targets what it reads is a matter of the calling convention. *)
  core_addr_of_int_argument : Z -> Z;
  core_addr_of_int_argument_same_width :
    Z.pos vma_bits = int_bits ->
    forall n, core_addr_of_int_argument n = wrap_unsigned int_bits n
}.

Section WithTarget.
Context `{T : Target}.

(** bfd_signed_vma and bfd_vma arithmetic *)
Definition to_svma (x : Z) : Z := wrap_signed (Z.pos vma_bits) x.
Definition to_vma (x : Z) : Z := wrap_unsigned (Z.pos vma_bits) x.
Definition svma_sub (x y : Z) : Z := to_svma (x - y).
Definition to_ulong (x : Z) : Z := wrap_unsigned (Z.pos long_bits) x.
Definition to_long (x : Z) : Z := wrap_signed (Z.pos long_bits) x.

(** ** Component A: collection lists *)

(** struct memrange.  The field [end] of the C struct is [end_] here. *)
Record memrange : Type := mk_memrange {
  type : Z;      (* int: 0 for absolute memory range, else basereg number *)
  start : Z;     (* bfd_signed_vma *)
  end_ : Z       (* bfd_signed_vma *)
}.

Definition set_end (m : memrange) (e : Z) : memrange :=
  {| type := type m; start := start m; end_ := e |}.

(** struct collection_list.  [list_] (the C field [list]) holds the [next_memrange] live records
    of the C array, so [next_memrange] is its length; the bytes of the
    backing storage beyond them are not modelled. *)
Record collection_list : Type := mk_collection_list {
  regs_mask : list Z;        (* unsigned char regs_mask[8] *)
  listsize : Z;
  list_ : list memrange
}.

Definition sizeof_regs_mask : Z := 8.

Definition next_memrange (c : collection_list) : Z :=
  Z.of_nat (length (list_ c)).

(** memrange_cmp *)
Definition memrange_cmp (a b : memrange) : Z :=
  if type a <? type b then -1
  else if type a >? type b then 1
  else if type a =? 0 then
    if to_vma (start a) <? to_vma (start b) then -1
    else if to_vma (start a) >? to_vma (start b) then 1
    else 0
  else
    if start a <? start b then -1
    else if start a >? start b then 1
    else 0.

(** The C library's qsort, as a stable insertion sort driven by the
    comparison callback.  C leaves the order of elements that compare equal
    unspecified: [qsort_result] below is the set of the orders that qsort
    may leave, of which this is one. *)
Fixpoint qsort_insert {A} (cmp : A -> A -> Z) (x : A) (l : list A) : list A :=
  match l with
  | [] => [x]
  | y :: l' => if cmp x y <=? 0 then x :: l else y :: qsort_insert cmp x l'
  end.

Fixpoint qsort {A} (cmp : A -> A -> Z) (l : list A) : list A :=
  match l with
  | [] => []
  | x :: l' => qsort_insert cmp x (qsort cmp l')
  end.

(** The test of the merge loop:
    list[a].type == list[b].type &&
    list[b].start - list[a].end <= MAX_REGISTER_VIRTUAL_SIZE *)
Definition mergeable (ra rb : memrange) : bool :=
  (type ra =? type rb) &&
  (svma_sub (start rb) (end_ ra) <=? MAX_REGISTER_VIRTUAL_SIZE).

(** The for loop of memrange_sortmerge over the array, with its two
    indices.  [fuel] is the number of iterations left,
    next_memrange - b. *)
Fixpoint sortmerge_loop (fuel : nat) (l : list memrange) (a b : nat)
  : list memrange * nat :=
  match fuel with
  | O => (l, a)
  | S fuel' =>
    match l !! a, l !! b with
    | Some ra, Some rb =>
      if mergeable ra rb then
        sortmerge_loop fuel' (<[a := set_end ra (end_ rb)]> l) a (S b)
      else
        let a' := S a in
        let l' := if decide (a' = b) then l else <[a' := rb]> l in
        sortmerge_loop fuel' l' a' (S b)
    | _, _ => (l, a)
    end
  end.

(** memrange_sortmerge *)
Definition memrange_sortmerge (memranges : collection_list) : collection_list :=
  let sorted := qsort memrange_cmp (list_ memranges) in
  if 0 <? Z.of_nat (length sorted) then
    let '(l, a) := sortmerge_loop (length sorted - 1) sorted 0 1 in
    {| regs_mask := regs_mask memranges;
       listsize := listsize memranges;
       list_ := take (S a) l |}
  else
    {| regs_mask := regs_mask memranges;
       listsize := listsize memranges;
       list_ := sorted |}.

(** The records that the for loop of memrange_sortmerge leaves,
    list[0 .. a], of an array that qsort has left in the order [sorted]. *)
Definition sortmerge_of_sorted (sorted : list memrange) : list memrange :=
  if 0 <? Z.of_nat (length sorted) then
    let '(l, a) := sortmerge_loop (length sorted - 1) sorted 0 1 in
    take (S a) l
  else sorted.

(** add_register.  [regno] is an unsigned long. *)
Definition add_register (collection : collection_list) (regno : Z)
  : outcome collection_list :=
  if regno >? 8 * sizeof_regs_mask then
    Raised (err_register_too_large regno)
  else
    let i := Z.to_nat (regno / 8) in
    match regs_mask collection !! i with
    | Some byte =>
      Returned
        {| regs_mask :=
             <[i := wrap_unsigned 8 (Z.lor byte (Z.shiftl 1 (regno mod 8)))]>
               (regs_mask collection);
           listsize := listsize collection;
           list_ := list_ collection |}
    | None => Undefined "store past the end of regs_mask"
    end.

(** add_memrange.  [type] is an int, [base] a bfd_signed_vma, [len] an
    unsigned long.  The result is the list as the call leaves it and the
    way the call ends.  The record is stored and counted before
    add_register is called: it is in the list also when add_register
    raises its error or stores past the bitmap.  add_register takes the
    int [type] for its unsigned long regno.

    When the list is full, listsize is doubled and the array goes through
    xrealloc (list, listsize), which leaves it listsize bytes long.  A
    struct memrange takes more than two bytes, so the array is then
    shorter than the records counted in next_memrange, and the next store
    into it, or the qsort of memrange_sortmerge, goes past its end.  The
    lists of this model hold every record counted; they cannot show that
    array, and the call is given as undefined from there. *)
Definition add_memrange (memranges : collection_list) (type base len : Z)
  : collection_list * outcome unit :=
  let m := {| type := type; start := base; end_ := to_svma (base + len) |} in
  let n := next_memrange memranges + 1 in
  let stored :=
    {| regs_mask := regs_mask memranges;
       listsize := listsize memranges;
       list_ := list_ memranges ++ [m] |} in
  if n >=? listsize memranges then
    ({| regs_mask := regs_mask memranges;
        listsize := to_long (listsize memranges * 2);
        list_ := list_ memranges ++ [m] |},
     Undefined "xrealloc (list, listsize) leaves the array shorter than its records")
  else if negb (type =? 0) then     (* better collect the base register! *)
    match add_register stored (to_ulong type) with
    | Returned collection => (collection, Returned tt)
    | Raised e => (stored, Raised e)
    | Undefined what => (stored, Undefined what)
    | Diverges => (stored, Diverges)
    end
  else (stored, Returned tt).

(** The list a call has left, for a caller that goes on with it; when the
    call has raised an error the caller is abandoned with it. *)
Definition completed {A} (r : A * outcome unit) : outcome A :=
  match r.2 with
  | Returned _ => Returned r.1
  | Raised e => Raised e
  | Undefined what => Undefined what
  | Diverges => Diverges
  end.

(** clear_collection_list *)
Definition clear_collection_list (l : collection_list) : collection_list :=
  {| regs_mask := replicate (Z.to_nat sizeof_regs_mask) 0;
     listsize := listsize l;
     list_ := [] |}.

(** tracepoint_list and stepping_list as _initialize_tracepoint leaves
    them. *)
Definition initial_collection_list : collection_list :=
  {| regs_mask := replicate (Z.to_nat sizeof_regs_mask) 0;
     listsize := 128;
     list_ := [] |}.

(** Bit [r] of the register bitmap. *)
Definition reg_bit (c : collection_list) (r : Z) : bool :=
  match regs_mask c !! Z.to_nat (r / 8) with
  | Some byte => Z.testbit byte (r mod 8)
  | None => false
  end.

(** *** printf conversions *)

Definition hex_digit (d : Z) : ascii :=
  match d with
  | 0 => "0" | 1 => "1" | 2 => "2" | 3 => "3" | 4 => "4" | 5 => "5"
  | 6 => "6" | 7 => "7" | 8 => "8" | 9 => "9" | 10 => "A" | 11 => "B"
  | 12 => "C" | 13 => "D" | 14 => "E" | _ => "F"
  end%char.

Definition lower_hex_digit (d : Z) : ascii :=
  match d with
  | 10 => "a" | 11 => "b" | 12 => "c" | 13 => "d" | 14 => "e" | 15 => "f"
  | _ => hex_digit d
  end%char.

(** The digits of [v], most significant first; [fuel] bounds their
    number. *)
Fixpoint hex_digits (digit : Z -> ascii) (fuel : nat) (v : Z) : string :=
  match fuel with
  | O => ""
  | S fuel' =>
    if v <? 16 then String (digit v) ""
    else hex_digits digit fuel' (v / 16) +:+ String (digit (v mod 16)) ""
  end.

(** "%X" and "%x": the argument is read as an unsigned int. *)
Definition sprintf_X (v : Z) : string :=
  hex_digits hex_digit 8 (wrap_unsigned int_bits v).
Definition sprintf_x (v : Z) : string :=
  hex_digits lower_hex_digit 8 (wrap_unsigned int_bits v).

(** "%02X" *)
Definition sprintf_02X (v : Z) : string :=
  let s := sprintf_X v in
  if (String.length s <? 2)%nat then "0" +:+ s else s.

(** regs_mask[i] *)
Definition mask_byte (mask : list Z) (i : nat) : Z := default 0 (mask !! i).

(** for (i = sizeof (list->regs_mask) - 1; i > 0; i--)
      if (list->regs_mask[i] != 0) break; *)
Fixpoint skip_leading_zeroes (mask : list Z) (i : nat) : nat :=
  match i with
  | O => O
  | S i' => if negb (mask_byte mask i =? 0) then i
            else skip_leading_zeroes mask i'
  end.

(** for (; i >= 0; i--) sprintf (end, "%02X", list->regs_mask[i]) *)
Fixpoint emit_regs_mask (mask : list Z) (i : nat) : string :=
  sprintf_02X (mask_byte mask i) +:+
  match i with
  | O => ""
  | S i' => emit_regs_mask mask i'
  end.

(** sprintf (end, "M%X,%X,%X", type, start, end - start) *)
Definition emit_memrange (m : memrange) : string :=
  "M" +:+ sprintf_X (type m) +:+ "," +:+ sprintf_X (start m) +:+ "," +:+
  sprintf_X (svma_sub (end_ m) (start m)).

Fixpoint emit_memranges (l : list memrange) : string :=
  match l with
  | [] => ""
  | m :: l' => emit_memrange m +:+ emit_memranges l'
  end.

(** stringify_collection_list.  [None] is the NULL it returns when nothing
    was written to the buffer. *)
Definition stringify_collection_list (list : collection_list) : option string :=
  let i := skip_leading_zeroes (regs_mask list)
             (Z.to_nat (sizeof_regs_mask - 1)) in
  let regs :=
    if negb (mask_byte (regs_mask list) i =? 0)
    then "R" +:+ emit_regs_mask (regs_mask list) i
    else "" in
  let out := regs +:+ emit_memranges (list_ list) in
  if decide (out = "") then None else Some out.

(** ** The C library on strings

    A [char *] is the [string] of the characters up to its terminating
    NUL; a pointer advanced inside a string is the remaining suffix, and
    [*p] at the terminator is the NUL character. *)

Definition char_code (c : ascii) : Z := Z.of_N (N_of_ascii c).

Definition NUL : ascii := Ascii.zero.

(** *p *)
Definition deref (p : string) : ascii :=
  match p with
  | EmptyString => NUL
  | String c _ => c
  end.

(** p + n *)
Fixpoint advance (n : nat) (p : string) : string :=
  match n, p with
  | O, _ => p
  | S n', String _ p' => advance n' p'
  | S _, EmptyString => EmptyString
  end.

Definition isspace (c : ascii) : bool :=
  (char_code c =? 32) || ((9 <=? char_code c) && (char_code c <=? 13)).

Definition isdigit (c : ascii) : bool :=
  (48 <=? char_code c) && (char_code c <=? 57).
Definition isupper (c : ascii) : bool :=
  (65 <=? char_code c) && (char_code c <=? 90).
Definition islower (c : ascii) : bool :=
  (97 <=? char_code c) && (char_code c <=? 122).
Definition isalnum (c : ascii) : bool := isdigit c || isupper c || islower c.

Definition tolower (c : ascii) : ascii :=
  if isupper c then ascii_of_N (Z.to_N (char_code c + 32)) else c.

(** for (p = line; isspace ( *p ); ) p++; *)
Fixpoint skip_spaces (p : string) : string :=
  match p with
  | String c p' => if isspace c then skip_spaces p' else p
  | EmptyString => p
  end.

(** 0 == strncasecmp (a, b, n) *)
Fixpoint strncasecmp_eq (a b : string) (n : nat) : bool :=
  match n with
  | O => true
  | S n' =>
    match a, b with
    | EmptyString, EmptyString => true
    | String x a', String y b' =>
      Ascii.eqb (tolower x) (tolower y) && strncasecmp_eq a' b' n'
    | _, _ => false
    end
  end.

(** strchr: the suffix that starts at the first [c], or NULL. *)
Fixpoint strchr (p : string) (c : ascii) : option string :=
  match p with
  | EmptyString => None
  | String x p' => if Ascii.eqb x c then Some p else strchr p' c
  end.

(** The value of a digit of strtol, in any base up to 36. *)
Definition digit_value (c : ascii) : option Z :=
  if isdigit c then Some (char_code c - 48)
  else if islower c then Some (char_code c - 97 + 10)
  else if isupper c then Some (char_code c - 65 + 10)
  else None.

(** The longest run of digits valid in [base]: its value, whether it is
    non-empty, and what follows it. *)
Fixpoint strto_digits (base : Z) (p : string) (acc : Z) (seen : bool)
  : Z * bool * string :=
  match p with
  | EmptyString => (acc, seen, p)
  | String c p' =>
    match digit_value c with
    | Some d =>
      if d <? base then strto_digits base p' (acc * base + d) true
      else (acc, seen, p)
    | None => (acc, seen, p)
    end
  end.

(** What strtol and strtoul share: white space, sign, base prefix, digits.
    The result is the sign, the magnitude and the end pointer; with no
    digits the end pointer is [nptr] itself. *)
Definition strto_scan (nptr : string) (base : Z) : bool * Z * string :=
  let p := skip_spaces nptr in
  let '(neg, p) :=
    match p with
    | String "-" p' => (true, p')
    | String "+" p' => (false, p')
    | _ => (false, p)
    end in
  let has_0x :=
    match p with
    | String "0" (String x (String h _)) =>
      (Ascii.eqb x "x" || Ascii.eqb x "X") &&
      match digit_value h with Some d => d <? 16 | None => false end
    | _ => false
    end in
  let '(base, p) :=
    if ((base =? 0) || (base =? 16)) && has_0x then (16, advance 2 p)
    else if base =? 0 then
      (if Ascii.eqb (deref p) "0" then 8 else 10, p)
    else (base, p) in
  let '(v, seen, rest) := strto_digits base p 0 false in
  if seen then (neg, v, rest) else (false, 0, nptr).

Definition LONG_MAX : Z := 2 ^ (Z.pos long_bits - 1) - 1.
Definition LONG_MIN : Z := - 2 ^ (Z.pos long_bits - 1).
Definition ULONG_MAX : Z := 2 ^ Z.pos long_bits - 1.

(** strtol (nptr, &endptr, base) *)
Definition strtol (nptr : string) (base : Z) : Z * string :=
  let '(neg, v, rest) := strto_scan nptr base in
  let r := if neg then - v else v in
  (if r >? LONG_MAX then LONG_MAX else if r <? LONG_MIN then LONG_MIN else r,
   rest).

(** strtoul (nptr, &endptr, base) *)
Definition strtoul (nptr : string) (base : Z) : Z * string :=
  let '(neg, v, rest) := strto_scan nptr base in
  (if v >? ULONG_MAX then ULONG_MAX
   else if neg then to_ulong (- v) else v,
   rest).

(** ** Symbols, expressions, source positions: the collaborators' data *)

Inductive address_class : Type :=
  | LOC_UNDEF | LOC_CONST | LOC_STATIC | LOC_REGISTER | LOC_ARG
  | LOC_REF_ARG | LOC_REGPARM | LOC_REGPARM_ADDR | LOC_LOCAL | LOC_TYPEDEF
  | LOC_LABEL | LOC_BLOCK | LOC_CONST_BYTES | LOC_LOCAL_ARG | LOC_BASEREG
  | LOC_BASEREG_ARG | LOC_UNRESOLVED | LOC_OPTIMIZED_OUT.

Global Instance address_class_eq_dec : EqDecision address_class.
Proof. solve_decision. Defined.

Record symbol : Type := mk_symbol {
  SYMBOL_NAME : option string;
  SYMBOL_CLASS : address_class;
  SYMBOL_VALUE : Z;
  SYMBOL_VALUE_ADDRESS : Z;
  SYMBOL_BASEREG : Z;
  TYPE_LENGTH : Z          (* TYPE_LENGTH (check_typedef (SYMBOL_TYPE (sym))) *)
}.

(** exp->elts[0].opcode with the operand the code reads next to it. *)
Inductive expression : Type :=
  | OP_REGISTER (longconst : Z)
  | OP_VAR_VALUE (sym : symbol)
  | OP_other.

Record block : Type := mk_block {
  BLOCK_SYMS : list symbol;
  BLOCK_FUNCTION : bool       (* BLOCK_FUNCTION (block) != NULL *)
}.

Record symtab : Type := mk_symtab {
  filename : option string;
  dirname : option string
}.

Record symtab_and_line : Type := mk_sal {
  sal_symtab : option symtab;
  sal_line : Z;
  sal_pc : Z
}.

(** Values of convenience variables, as set_internalvar receives them:
    value_from_longest (builtin_type_int, n), value_from_longest (charstar,
    0), a character array, and the void value of a variable never set. *)
Inductive value : Type :=
  | VInt (n : Z)
  | VNull
  | VString (s : string)
  | VVoid.

(** The entry points of the rest of the debugger that this file calls. *)
Class Collaborators := {
  (* parse_exp_1 (&p, block_for_pc (pc), 1): the expression and the number
     of characters it consumed *)
  parse_exp_1 : string -> Z -> outcome (expression * nat);
  (* block_for_pc (pc) and its chain of superblocks, innermost first *)
  block_for_pc : Z -> list block;
  find_pc_line : Z -> symtab_and_line;
  find_pc_function : Z -> option symbol;
  (* decode_line_1 followed by resolve_sal_pc on every element: the sals,
     the canonical strings if any, and the characters consumed *)
  decode_line_1 : string -> outcome (list symtab_and_line * list (option string) * nat);
  parse_and_eval_address : string -> outcome Z;
  (* fromhex of remote.c *)
  fromhex : ascii -> outcome Z;
  current_language : Z;
  input_radix : Z
}.

(** ** Component E: the tracepoint registry *)

Inductive enable : Type := disabled | enabled.

(** struct tracepoint (tracepoint.h), with the fields this file uses.  The
    [next] pointer is the order of [tracepoint_chain]; [actions] is the
    chain of action lines. *)
Record tracepoint : Type := mk_tracepoint {
  number : Z;
  address : Z;
  source_file : option string;
  language : Z;
  tp_input_radix : Z;
  line_number : Z;
  tp_enabled : enable;
  step_count : Z;
  pass_count : Z;
  actions : list string;
  addr_string : option string;
  cond_string : option string
}.

Definition set_number (t : tracepoint) (n : Z) : tracepoint :=
  {| number := n; address := address t; source_file := source_file t;
     language := language t; tp_input_radix := tp_input_radix t;
     line_number := line_number t; tp_enabled := tp_enabled t;
     step_count := step_count t; pass_count := pass_count t;
     actions := actions t; addr_string := addr_string t;
     cond_string := cond_string t |}.

Definition set_enabled (t : tracepoint) (e : enable) : tracepoint :=
  {| number := number t; address := address t; source_file := source_file t;
     language := language t; tp_input_radix := tp_input_radix t;
     line_number := line_number t; tp_enabled := e;
     step_count := step_count t; pass_count := pass_count t;
     actions := actions t; addr_string := addr_string t;
     cond_string := cond_string t |}.

Definition set_step_count (t : tracepoint) (n : Z) : tracepoint :=
  {| number := number t; address := address t; source_file := source_file t;
     language := language t; tp_input_radix := tp_input_radix t;
     line_number := line_number t; tp_enabled := tp_enabled t;
     step_count := n; pass_count := pass_count t;
     actions := actions t; addr_string := addr_string t;
     cond_string := cond_string t |}.

Definition set_pass_count (t : tracepoint) (n : Z) : tracepoint :=
  {| number := number t; address := address t; source_file := source_file t;
     language := language t; tp_input_radix := tp_input_radix t;
     line_number := line_number t; tp_enabled := tp_enabled t;
     step_count := step_count t; pass_count := n;
     actions := actions t; addr_string := addr_string t;
     cond_string := cond_string t |}.

Definition set_actions (t : tracepoint) (a : list string) : tracepoint :=
  {| number := number t; address := address t; source_file := source_file t;
     language := language t; tp_input_radix := tp_input_radix t;
     line_number := line_number t; tp_enabled := tp_enabled t;
     step_count := step_count t; pass_count := pass_count t;
     actions := a; addr_string := addr_string t;
     cond_string := cond_string t |}.

Definition set_strings (t : tracepoint) (a c : option string) : tracepoint :=
  {| number := number t; address := address t; source_file := source_file t;
     language := language t; tp_input_radix := tp_input_radix t;
     line_number := line_number t; tp_enabled := tp_enabled t;
     step_count := step_count t; pass_count := pass_count t;
     actions := actions t; addr_string := a; cond_string := c |}.

(** The globals of the file, the convenience variables, and the remote
    side as the packet layer shows it: the packets sent so far, the replies
    the stub has still to give, the console text, and the pc of the frame
    get_current_frame returns.  The two static scratch lists
    [tracepoint_list] and [stepping_list] are not part of it: encode_actions
    clears both on entry and nothing else reads them. *)
Record session : Type := mk_session {
  tracepoint_chain : list tracepoint;
  tracepoint_count : Z;
  traceframe_number : Z;
  tracepoint_number : Z;
  traceframe_fun : option symbol;
  traceframe_sal : symtab_and_line;
  internalvars : gmap string value;
  target_remote : bool;
  sent : list string;
  replies : list string;
  console : list string;
  current_frame_pc : Z
}.

Definition with_tracepoint_chain (s : session) (x : _) : session :=
  mk_session x (tracepoint_count s) (traceframe_number s) (tracepoint_number
    s) (traceframe_fun s) (traceframe_sal s) (internalvars s) (target_remote
    s) (sent s) (replies s) (console s) (current_frame_pc s).

Definition with_tracepoint_count (s : session) (x : _) : session :=
  mk_session (tracepoint_chain s) x (traceframe_number s) (tracepoint_number
    s) (traceframe_fun s) (traceframe_sal s) (internalvars s) (target_remote
    s) (sent s) (replies s) (console s) (current_frame_pc s).

Definition with_traceframe_number (s : session) (x : _) : session :=
  mk_session (tracepoint_chain s) (tracepoint_count s) x (tracepoint_number
    s) (traceframe_fun s) (traceframe_sal s) (internalvars s) (target_remote
    s) (sent s) (replies s) (console s) (current_frame_pc s).

Definition with_tracepoint_number (s : session) (x : _) : session :=
  mk_session (tracepoint_chain s) (tracepoint_count s) (traceframe_number s)
    x (traceframe_fun s) (traceframe_sal s) (internalvars s) (target_remote
    s) (sent s) (replies s) (console s) (current_frame_pc s).

Definition with_traceframe_fun (s : session) (x : _) : session :=
  mk_session (tracepoint_chain s) (tracepoint_count s) (traceframe_number s)
    (tracepoint_number s) x (traceframe_sal s) (internalvars s)
    (target_remote s) (sent s) (replies s) (console s) (current_frame_pc s).

Definition with_traceframe_sal (s : session) (x : _) : session :=
  mk_session (tracepoint_chain s) (tracepoint_count s) (traceframe_number s)
    (tracepoint_number s) (traceframe_fun s) x (internalvars s)
    (target_remote s) (sent s) (replies s) (console s) (current_frame_pc s).

Definition with_internalvars (s : session) (x : _) : session :=
  mk_session (tracepoint_chain s) (tracepoint_count s) (traceframe_number s)
    (tracepoint_number s) (traceframe_fun s) (traceframe_sal s) x
    (target_remote s) (sent s) (replies s) (console s) (current_frame_pc s).

Definition with_sent (s : session) (x : _) : session :=
  mk_session (tracepoint_chain s) (tracepoint_count s) (traceframe_number s)
    (tracepoint_number s) (traceframe_fun s) (traceframe_sal s)
    (internalvars s) (target_remote s) x (replies s) (console s)
    (current_frame_pc s).

Definition with_replies (s : session) (x : _) : session :=
  mk_session (tracepoint_chain s) (tracepoint_count s) (traceframe_number s)
    (tracepoint_number s) (traceframe_fun s) (traceframe_sal s)
    (internalvars s) (target_remote s) (sent s) x (console s)
    (current_frame_pc s).

Definition with_console (s : session) (x : _) : session :=
  mk_session (tracepoint_chain s) (tracepoint_count s) (traceframe_number s)
    (tracepoint_number s) (traceframe_fun s) (traceframe_sal s)
    (internalvars s) (target_remote s) (sent s) (replies s) x
    (current_frame_pc s).

Context `{Co : Collaborators}.

(** set_internalvar (lookup_internalvar (name), v) *)
Definition set_internalvar (name : string) (v : value) (s : session) : session :=
  with_internalvars s (<[name := v]> (internalvars s)).

(** value_of_internalvar (lookup_internalvar (name)) *)
Definition value_of_internalvar (name : string) (s : session) : value :=
  default VVoid (internalvars s !! name).

(** set_tracepoint_count *)
Definition set_tracepoint_count (num : Z) (s : session) : session :=
  set_internalvar "tpnum" (VInt num) (with_tracepoint_count s num).

(** set_traceframe_num *)
Definition set_traceframe_num (num : Z) (s : session) : session :=
  set_internalvar "trace_frame" (VInt num) (with_traceframe_number s num).

(** set_tracepoint_num *)
Definition set_tracepoint_num (num : Z) (s : session) : session :=
  set_internalvar "tracepoint" (VInt num) (with_tracepoint_number s num).

(** *** Character buffers

    A block of memory is the list of its bytes.  xmalloc leaves the
    contents of a new block indeterminate: they are whatever [junk] says. *)

Definition xmalloc (n : nat) (junk : nat -> ascii) : list ascii :=
  junk <$> seq 0 n.

(** The offset of the first NUL of a block. *)
Fixpoint buf_strlen (b : list ascii) : nat :=
  match b with
  | [] => O
  | c :: b' => if Ascii.eqb c NUL then O else S (buf_strlen b')
  end.

(** The characters of a C string, without its terminator. *)
Definition c_chars (s : string) : list ascii :=
  let l := list_ascii_of_string s in take (buf_strlen l) l.

Definition c_strlen (s : string) : nat := length (c_chars s).

Definition buf_write (b : list ascii) (off : nat) (cs : list ascii)
  : list ascii :=
  take off b ++ cs ++ drop (off + length cs) b.

Definition strcpy (b : list ascii) (src : string) : list ascii :=
  buf_write b 0 (c_chars src ++ [NUL]).

Definition strcat (b : list ascii) (src : string) : list ascii :=
  buf_write b (buf_strlen b) (c_chars src ++ [NUL]).

Definition buf_string (b : list ascii) : string :=
  string_of_list_ascii (take (buf_strlen b) b).

(** The computation of t->source_file in set_raw_tracepoint. *)
Definition make_source_file (junk : nat -> ascii) (st : symtab)
  : outcome string :=
  match filename st, dirname st with
  | Some file, Some dir =>
    let b := xmalloc (c_strlen file + c_strlen dir + 2) junk in
    let b := strcpy b dir in
    (* p = t->source_file; while ( *p++ ) ; *)
    let p := S (buf_strlen b) in
    match b !! p with
    | Some c =>
      let b := if negb (Ascii.eqb c "/") then strcat b "/" else b in
      Returned (buf_string (strcat b file))
    | None => Undefined "read past the end of source_file"
    end
  | _, _ => Undefined "strlen (NULL)"
  end.

(** set_raw_tracepoint.  The new tracepoint is the last of the chain; its
    number is the 0 that memset left. *)
Definition set_raw_tracepoint (junk : nat -> ascii) (sal : symtab_and_line)
    (s : session) : outcome session :=
  src ← match sal_symtab sal with
        | None => Returned None
        | Some st => Some <$> make_source_file junk st
        end;
  let t :=
    {| number := 0; address := sal_pc sal; source_file := src;
       language := current_language; tp_input_radix := input_radix;
       line_number := sal_line sal; tp_enabled := enabled;
       step_count := 0; pass_count := 0; actions := [];
       addr_string := None; cond_string := None |} in
  Returned (with_tracepoint_chain s (tracepoint_chain s ++ [t])).

(** The loop of trace_command that sets all the tracepoints; [i] counts
    the sals done. *)
Fixpoint trace_command_loop (junk : nat -> nat -> ascii)
    (addr : string) (canonical : list (option string))
    (sals : list symtab_and_line) (i : nat) (s : session) : outcome session :=
  match sals with
  | [] => Returned s
  | sal :: sals' =>
    s ← set_raw_tracepoint (junk i) sal s;
    if tracepoint_count s + 1 >? INT_MAX then
      Undefined "signed overflow of tracepoint_count"
    else
      let s := set_tracepoint_count (tracepoint_count s + 1) s in
      let finish (t : tracepoint) :=
        set_strings (set_number t (tracepoint_count s))
          (Some (default addr (mjoin (canonical !! i)))) None in
      let chain := tracepoint_chain s in
      let s := with_tracepoint_chain s
                 (alter finish (length chain - 1)%nat chain) in
      trace_command_loop junk addr canonical sals' (S i) s
  end.

(** trace_command *)
Definition trace_command (junk : nat -> nat -> ascii) (arg : option string)
    (s : session) : outcome session :=
  match arg with
  | None | Some EmptyString => Raised err_argument_required
  | Some arg =>
    if Ascii.eqb (deref arg) "/" then Returned s
    else
      '(sals, canonical, used) ← decode_line_1 arg;
      (* savestring (addr_start, addr_end - addr_start) *)
      let addr := string_of_list_ascii (take used (list_ascii_of_string arg)) in
      trace_command_loop junk addr canonical sals 0 s
  end.

Inductive tracepoint_opcode : Type := enable_op | disable_op | delete_op.

(** tracepoint_operation on the tracepoint at position [i] of the chain. *)
Definition tracepoint_operation (i : nat) (opcode : tracepoint_opcode)
    (s : session) : session :=
  match opcode with
  | enable_op =>
    with_tracepoint_chain s
      (alter (fun t => set_enabled t enabled) i (tracepoint_chain s))
  | disable_op =>
    with_tracepoint_chain s
      (alter (fun t => set_enabled t disabled) i (tracepoint_chain s))
  | delete_op =>
    with_tracepoint_chain s (delete i (tracepoint_chain s))
  end.

(** (int) of a long *)
Definition to_int (x : Z) : Z := wrap_signed int_bits x.

(** The name of a convenience variable:
    while (isalnum ( *end ) || *end == '_') end++; *)
Fixpoint scan_name (p : string) : string * string :=
  match p with
  | String c p' =>
    if isalnum c || Ascii.eqb c "_" then
      let '(name, rest) := scan_name p' in (String c name, rest)
    else (EmptyString, p)
  | EmptyString => (EmptyString, p)
  end.

(** get_tracepoint_by_number ( &arg ): the position of the tracepoint
    found, if any, and the new value of arg. *)
Definition get_tracepoint_by_number (arg : option string) (s : session)
  : outcome (option nat * option string) :=
  '(tpnum, arg) ←
    match arg with
    | None | Some EmptyString => Returned (tracepoint_count s, arg)
    | Some (String "$" p) =>
      let '(copy, rest) := scan_name p in
      match value_of_internalvar copy s with
      | VInt n => Returned (to_int n, Some rest)
      | _ => Raised err_convenience_not_integral
      end
    | Some a =>
      let '(n, rest) := strtol a 10 in Returned (to_int n, Some rest)
    end;
  Returned
    (fst <$> list_find (fun t => number t = tpnum) (tracepoint_chain s), arg).

(** Modelled from the spec: the macro ALL_TRACEPOINTS (t) of tracepoint.h,
    which is not among the sources, as the walk along the successor
    pointers of the chain, for (t = tracepoint_chain; t; t = t->next).

    ALL_TRACEPOINTS (t) tracepoint_operation (t, from_tty, opcode): [n]
    tracepoints are still to visit and the next one is at position [k].
    After a delete, the step t = t->next reads the tracepoint that
    tracepoint_operation has just freed. *)
Fixpoint all_tracepoints_operation (n k : nat) (opcode : tracepoint_opcode)
    (s : session) : outcome session :=
  match n with
  | O => Returned s
  | S n' =>
    let s' := tracepoint_operation k opcode s in
    match opcode with
    | delete_op => Undefined "t->next read after free (t)"
    | _ => all_tracepoints_operation n' (S k) opcode s'
    end
  end.

(** while ( *args == ' ' || *args == '\t') args++; *)
Fixpoint skip_blanks (p : string) : string :=
  match p with
  | String c p' =>
    if (char_code c =? 32) || (char_code c =? 9) then skip_blanks p' else p
  | EmptyString => p
  end.

(** The while ( *args ) loop of map_args_over_tracepoints.  An iteration
    that leaves [args] where it was repeats for ever. *)
Fixpoint map_args_loop (fuel : nat) (args : string)
    (opcode : tracepoint_opcode) (s : session) : outcome session :=
  match args with
  | EmptyString => Returned s
  | _ =>
    match fuel with
    | O => Undefined "map_args_loop: out of fuel"
    | S fuel' =>
      '(t, rest) ← get_tracepoint_by_number (Some args) s;
      let s' := match t with
                | Some i => tracepoint_operation i opcode s
                | None => s
                end in
      let rest := skip_blanks (default EmptyString rest) in
      if (String.length rest <? String.length args)%nat
      then map_args_loop fuel' rest opcode s'
      else Diverges
    end
  end.

(** map_args_over_tracepoints *)
Definition map_args_over_tracepoints (args : option string)
    (opcode : tracepoint_opcode) (s : session) : outcome session :=
  match args with
  | None | Some EmptyString =>
    all_tracepoints_operation (length (tracepoint_chain s)) 0 opcode s
  | Some a => map_args_loop (String.length a) a opcode s
  end.

Definition enable_trace_command (args : option string) (s : session) :=
  map_args_over_tracepoints args enable_op s.

Definition disable_trace_command (args : option string) (s : session) :=
  map_args_over_tracepoints args disable_op s.

(** delete_trace_command; [answer] is what query returns. *)
Definition delete_trace_command (args : option string) (answer : bool)
    (s : session) : outcome session :=
  match args with
  | None | Some EmptyString =>
    if negb answer then Returned s
    else map_args_over_tracepoints args delete_op s
  | _ => map_args_over_tracepoints args delete_op s
  end.

(** trace_pass_command *)
Definition trace_pass_command (args : option string) (s : session)
  : outcome session :=
  match args with
  | None | Some EmptyString => Raised err_argument_required
  | Some a =>
    let '(count, a) := strtoul a 10 in
    let a := skip_spaces a in
    let set_all (which : nat -> bool) :=
      with_tracepoint_chain s
        (imap (fun i t => if which i then set_pass_count t count else t)
              (tracepoint_chain s)) in
    if negb (Ascii.eqb (deref a) NUL) && strncasecmp_eq a "all" 3 then
      Returned (set_all (fun _ => true))
    else
      '(t1, _) ← get_tracepoint_by_number (Some a) s;
      match t1 with
      | None => Returned s
      | Some i => Returned (set_all (fun j => bool_decide (j = i)))
      end
  end.

(** The state _initialize_tracepoint sets up. *)
Definition initial_session (remote : bool) (vars : gmap string value)
  : session :=
  {| tracepoint_chain := [];
     tracepoint_count := 0;
     traceframe_number := -1;
     tracepoint_number := -1;
     traceframe_fun := None;
     traceframe_sal := mk_sal None 0 0;
     internalvars := <["trace_frame" := VInt 0]> (<["tpnum" := VInt 0]> vars);
     target_remote := remote;
     sent := [];
     replies := [];
     console := [];
     current_frame_pc := 0 |}.

(** ** Component C: the action validator *)

Inductive actionline_type : Type := BADLINE | GENERIC | END | STEPPING.

Definition char_is (p : string) (c : ascii) : bool := Ascii.eqb (deref p) c.

(** parse_and_eval_memrange: typecode, offset, size and the new arg. *)
Definition parse_and_eval_memrange (arg : string) (addr : Z)
  : outcome (Z * Z * Z * string) :=
  match arg with
  | String "$" (String "(" p) =>
    '(typecode, p) ←
      (if char_is p "$" then       (* register for relative memrange? *)
         '(exp, used) ← parse_exp_1 p addr;
         let p := advance used p in
         match exp with
         | OP_REGISTER n =>
           if char_is p "," then Returned (n, advance 1 p)
           else Raised (err_bad_memrange "missing comma for memrange")
         | _ => Raised (err_bad_memrange "Bad register operand for memrange")
         end
       else Returned (0, p));
    let '(offset, p) := strtol p 0 in
    if negb (char_is p ",") then
      Raised (err_bad_memrange "missing comma for memrange")
    else
      let '(size, p) := strtol (advance 1 p) 0 in
      if size <=? 0 then
        Raised (err_bad_memrange "invalid size in memrange")
      else if negb (char_is p ")") then
        Raised (err_bad_memrange "missing close-parenthesis for memrange")
      else Returned (typecode, to_svma offset, size, advance 1 p)
  | _ =>
    Raised (err_bad_memrange "Internal: bad argument to validate_memrange")
  end.

(** The do ... while (p && *p++ == ',') loop of validate_actionline over
    the items of a collect line. *)
Fixpoint validate_collect (fuel : nat) (p : string) (addr : Z)
  : outcome actionline_type :=
  match fuel with
  | O => Undefined "validate_collect: out of fuel"
  | S fuel' =>
    let p := skip_spaces p in
    r ← (if char_is p "$" then        (* look for special pseudo-symbols *)
           if strncasecmp_eq "reg" (advance 1 p) 3
              || strncasecmp_eq "arg" (advance 1 p) 3
              || strncasecmp_eq "loc" (advance 1 p) 3
           then Returned (inr (strchr p ","))
           else if char_is (advance 1 p) "(" then    (* literal memrange *)
             '(_, _, _, rest) ← parse_and_eval_memrange p addr;
             Returned (inr (Some rest))
           else Returned (inr (Some p))
         else
           '(exp, used) ← parse_exp_1 p addr;
           match exp with
           | OP_VAR_VALUE sym =>
             if decide (SYMBOL_CLASS sym = LOC_CONST) then
               Returned (inl BADLINE)
             else if decide (SYMBOL_CLASS sym = LOC_OPTIMIZED_OUT) then
               Returned (inl BADLINE)
             else Returned (inr (Some (advance used p)))
           | OP_REGISTER _ => Returned (inr (Some (advance used p)))
           | OP_other => Returned (inl BADLINE)
           end);
    match r with
    | inl verdict => Returned verdict
    | inr (Some p) =>
      if char_is p "," then validate_collect fuel' (advance 1 p) addr
      else Returned GENERIC
    | inr None => Returned GENERIC
    end
  end.

(** validate_actionline (line, t): the verdict, and [t] as the call leaves
    it. *)
Definition validate_actionline (line : string) (t : tracepoint)
  : outcome (actionline_type * tracepoint) :=
  let p := skip_spaces line in
  if char_is p NUL then      (* empty line: just prompt for another line. *)
    Returned (BADLINE, t)
  else if strncasecmp_eq p "collect" 7 then
    verdict ← validate_collect (S (String.length p)) (advance 7 p) (address t);
    Returned (verdict, t)
  else if strncasecmp_eq p "while-stepping" 14 then
    let p := skip_spaces (advance 14 p) in
    if negb (char_is p NUL) then
      let t := set_step_count t (fst (strtol p 0)) in
      if step_count t =? 0 then Returned (BADLINE, t)
      else Returned (STEPPING, t)
    else Returned (STEPPING, set_step_count t (-1))
  else if strncasecmp_eq p "end" 3 then Returned (END, t)
  else Returned (BADLINE, t).

(** validate_actionline called, as read_actions does, with a pointer to the
    tracepoint at position [i] of the chain: what it writes through [t] it
    writes into the registry. *)
Definition validate_actionline_at (line : string) (i : nat) (s : session)
  : outcome (actionline_type * session) :=
  match tracepoint_chain s !! i with
  | Some t =>
    '(verdict, t') ← validate_actionline line t;
    Returned (verdict,
              with_tracepoint_chain s (<[i := t']> (tracepoint_chain s)))
  | None => Undefined "no such tracepoint"
  end.

(** ** Component B and D: the symbol collector and the action compiler *)

(** collect_symbol *)
Definition collect_symbol (collect : collection_list) (sym : symbol)
  : outcome collection_list :=
  let len := to_ulong (TYPE_LENGTH sym) in
  match SYMBOL_CLASS sym with
  | LOC_CONST => Returned collect
  | LOC_STATIC =>
    completed (add_memrange collect 0 (to_svma (SYMBOL_VALUE_ADDRESS sym)) len)
  | LOC_REGISTER | LOC_REGPARM =>
    add_register collect (to_ulong (SYMBOL_VALUE sym))
  | LOC_ARG | LOC_REF_ARG => Returned collect
  | LOC_REGPARM_ADDR =>
    completed (add_memrange collect (to_int (to_ulong (SYMBOL_VALUE sym))) 0 len)
  | LOC_LOCAL | LOC_LOCAL_ARG =>
    completed (add_memrange collect (to_int (to_ulong FP_REGNUM))
                 (to_svma (SYMBOL_VALUE sym)) len)
  | LOC_BASEREG | LOC_BASEREG_ARG =>
    completed (add_memrange collect (to_int (to_ulong (SYMBOL_BASEREG sym)))
                 (to_svma (SYMBOL_VALUE sym)) len)
  | LOC_UNRESOLVED => Returned collect
  | LOC_OPTIMIZED_OUT => Returned collect
  | _ => Returned collect        (* default: "don't know symbol class" *)
  end.

(** The switch of add_local_symbols: is [sym] collected when collecting
    Locals ('L'), or Arguments ('A')? *)
Definition wanted_symbol (type : ascii) (sym : symbol) : bool :=
  match SYMBOL_CLASS sym with
  | LOC_LOCAL | LOC_STATIC | LOC_REGISTER | LOC_BASEREG =>
    Ascii.eqb type "L"
  | LOC_ARG | LOC_LOCAL_ARG | LOC_REF_ARG | LOC_REGPARM | LOC_REGPARM_ADDR
  | LOC_BASEREG_ARG =>
    Ascii.eqb type "A"
  | _ => false
  end.

Fixpoint collect_symbols (collect : collection_list) (type : ascii)
    (syms : list symbol) : outcome collection_list :=
  match syms with
  | [] => Returned collect
  | sym :: syms' =>
    collect ← (if wanted_symbol type sym then collect_symbol collect sym
               else Returned collect);
    collect_symbols collect type syms'
  end.

(** The while (block != 0) loop of add_local_symbols over the block of the
    pc and its superblocks. *)
Fixpoint add_block_symbols (collect : collection_list) (type : ascii)
    (blocks : list block) : outcome collection_list :=
  match blocks with
  | [] => Returned collect
  | b :: blocks' =>
    collect ← collect_symbols collect type (BLOCK_SYMS b);
    if BLOCK_FUNCTION b then Returned collect
    else add_block_symbols collect type blocks'
  end.

(** add_local_symbols *)
Definition add_local_symbols (collect : collection_list) (pc : Z)
    (type : ascii) : outcome collection_list :=
  add_block_symbols collect type (block_for_pc pc).

(** for (i = 0; i < NUM_REGS; i++) add_register (collect, i); *)
Fixpoint add_all_registers (n : nat) (i : Z) (collect : collection_list)
  : outcome collection_list :=
  match n with
  | O => Returned collect
  | S n' =>
    collect ← add_register collect (to_ulong i);
    add_all_registers n' (i + 1) collect
  end.

(** The do ... while (action_exp && *action_exp++ == ',') loop of
    encode_actions over the items of a collect line. *)
Fixpoint encode_collect (fuel : nat) (action_exp : string) (addr : Z)
    (collect : collection_list) : outcome collection_list :=
  match fuel with
  | O => Undefined "encode_collect: out of fuel"
  | S fuel' =>
    let p := skip_spaces action_exp in
    '(collect, next) ←
      (if strncasecmp_eq "$reg" p 4 then
         collect ← add_all_registers (Z.to_nat NUM_REGS) 0 collect;
         Returned (collect, strchr p ",")
       else if strncasecmp_eq "$arg" p 4 then
         collect ← add_local_symbols collect addr "A";
         Returned (collect, strchr p ",")
       else if strncasecmp_eq "$loc" p 4 then
         collect ← add_local_symbols collect addr "L";
         Returned (collect, strchr p ",")
       else if char_is p "$" && char_is (advance 1 p) "(" then
         '(typecode, offset, size, rest) ← parse_and_eval_memrange p addr;
         collect ← completed (add_memrange collect (to_int typecode) offset
                                (to_ulong size));
         Returned (collect, Some rest)
       else
         '(exp, used) ← parse_exp_1 p addr;
         collect ← match exp with
                   | OP_REGISTER i => add_register collect (to_ulong i)
                   | OP_VAR_VALUE sym => collect_symbol collect sym
                   | OP_other => Returned collect
                   end;
         Returned (collect, Some (advance used p)));
    match next with
    | Some p =>
      if char_is p "," then encode_collect fuel' (advance 1 p) addr collect
      else Returned collect
    | None => Returned collect
    end
  end.

(** The loop of encode_actions over the action lines.  [stepping] tells
    that [collect] points at the stepping list. *)
Fixpoint encode_actions_loop (lines : list string) (addr : Z)
    (tracepoint_list stepping_list : collection_list) (stepping : bool)
  : outcome (collection_list * collection_list) :=
  match lines with
  | [] => Returned (tracepoint_list, stepping_list)
  | action :: lines' =>
    let action_exp := skip_spaces action in
    if strncasecmp_eq action_exp "collect" 7 then
      collect ← encode_collect (S (String.length action_exp))
                  (advance 7 action_exp) addr
                  (if stepping then stepping_list else tracepoint_list);
      if stepping
      then encode_actions_loop lines' addr tracepoint_list collect stepping
      else encode_actions_loop lines' addr collect stepping_list stepping
    else if strncasecmp_eq action_exp "while-stepping" 14 then
      encode_actions_loop lines' addr tracepoint_list stepping_list true
    else if strncasecmp_eq action_exp "end" 3 then
      if stepping            (* end stepping actions *)
      then encode_actions_loop lines' addr tracepoint_list stepping_list false
      else Returned (tracepoint_list, stepping_list)
    else encode_actions_loop lines' addr tracepoint_list stepping_list stepping
  end.

Definition strlen (p : string) : Z := Z.of_nat (String.length p).

(** sizeof (tdp_buff) and sizeof (step_buff) *)
Definition sizeof_tdp_buff : Z := 2048.

(** stringify_collection_list (list, string) for a character array of
    [size] bytes: the sprintf calls write the text and its terminator
    whatever the size is. *)
Definition stringify_into (size : Z) (list : collection_list)
  : outcome (option string) :=
  match stringify_collection_list list with
  | Some text =>
    if strlen text >=? size
    then Undefined "sprintf past the end of the character array"
    else Returned (Some text)
  | None => Returned None
  end.

(** encode_actions: tdp_actions and stepping_actions.  The character
    arrays tdp_buff and step_buff are the strings returned.  The two lists
    are cleared first, and their arrays are those of _initialize_tracepoint:
    add_memrange resizes an array only in a call that is undefined. *)
Definition encode_actions (t : tracepoint)
  : outcome (option string * option string) :=
  '(tracepoint_list, stepping_list) ←
    encode_actions_loop (actions t) (address t)
      (clear_collection_list initial_collection_list)
      (clear_collection_list initial_collection_list) false;
  let tracepoint_list := memrange_sortmerge tracepoint_list in
  let stepping_list := memrange_sortmerge stepping_list in
  tdp_actions ← stringify_into sizeof_tdp_buff tracepoint_list;
  stepping_actions ← stringify_into sizeof_tdp_buff stepping_list;
  Returned (tdp_actions, stepping_actions).

(** ** Component F: the protocol engine *)

(** A command runs on the session and leaves it as it is when [error ()]
    unwinds: the state after a [Raised] outcome is the state at the call of
    error. *)
Definition command (A : Type) : Type := session -> session * outcome A.

Global Instance command_ret : MRet command := fun A a s => (s, Returned a).
Global Instance command_bind : MBind command := fun A B k m s =>
  match m s with
  | (s', Returned a) => k a s'
  | (s', Raised e) => (s', Raised e)
  | (s', Undefined w) => (s', Undefined w)
  | (s', Diverges) => (s', Diverges)
  end.

Definition lift {A} (o : outcome A) : command A := fun s => (s, o).
Definition error {A} (e : gdb_error) : command A := fun s => (s, Raised e).
Definition modify (f : session -> session) : command unit :=
  fun s => (f s, Returned tt).
Definition get : command session := fun s => (s, Returned s).

(** putpkt *)
Definition putpkt (buf : string) : command unit :=
  modify (fun s => with_sent s (sent s ++ [buf])).

(** trace_error: the error it raises, if it raises one. *)
Definition trace_error (buf : string) : option gdb_error :=
  if negb (char_is buf "E") then None      (* not an error msg *)
  else
    let buf := advance 1 buf in
    if char_is buf "1" then          (* malformed packet error *)
      let buf := advance 1 buf in
      if char_is buf "0" then Some err_outgoing_packet
      else Some (err_outgoing_packet_field (fst (strtol buf 16)))
    else if char_is buf "2" then Some (err_trace_api (advance 1 buf))
    else Some (err_target_code buf).

(** The for loop of trace_receive_regs over the bytes of one register. *)
Fixpoint receive_register_bytes (n : nat) (p : string) : outcome string :=
  match n with
  | O => Returned p
  | S n' =>
    _ ← fromhex (deref p);
    _ ← fromhex (deref (advance 1 p));
    receive_register_bytes n' (advance 2 p)
  end.

(** trace_receive_regs; the register cache that supply_register fills is
    not part of the session. *)
Fixpoint trace_receive_regs_loop (fuel : nat) (p : string) : outcome unit :=
  if char_is p NUL then Returned tt
  else
    match fuel with
    | O => Undefined "trace_receive_regs: out of fuel"
    | S fuel' =>
      let '(regno, tmp) := strtol p 16 in
      if (String.length tmp =? String.length p)%nat || negb (char_is tmp ":")
      then Raised err_malformed_R_packet
      else
        p ← receive_register_bytes (Z.to_nat (REGISTER_RAW_SIZE regno))
              (advance 1 tmp);
        if negb (char_is p ";") then Raised err_malformed_R_packet
        else trace_receive_regs_loop fuel' (advance 1 p)
    end.

Definition trace_receive_regs (buf : string) : outcome unit :=
  trace_receive_regs_loop (String.length buf) buf.

(** The do ... while (1) loop of remote_get_noisy_reply; getpkt takes the
    next of the [pending] replies, and gives up when there is none. *)
Fixpoint noisy_reply_loop (pending : list string) : command string :=
  match pending with
  | [] => error err_transport
  | buf :: pending' =>
    _ ← modify (fun s => with_replies s pending');
    if char_is buf NUL then error err_no_such_command
    else if char_is buf "E" then
      match trace_error buf with
      | Some e => error e
      | None => noisy_reply_loop pending'
      end
    else if char_is buf "R" then
      (* flush_cached_frames, registers_changed, select_frame *)
      _ ← lift (trace_receive_regs buf);
      noisy_reply_loop pending'
    else if char_is buf "O" && negb (char_is (advance 1 buf) "K") then
      (* remote_console_output (buf + 1) *)
      _ ← modify (fun s => with_console s (console s ++ [advance 1 buf]));
      noisy_reply_loop pending'
    else mret buf                    (* here's the actual reply *)
  end.

(** remote_get_noisy_reply *)
Definition remote_get_noisy_reply : command string :=
  fun s => noisy_reply_loop (replies s) s.

Definition sizeof_buf : Z := 2048.

(** sprintf (buf, "QTDP:%x:%x:%c:%x:%x", ...) *)
Definition qtdp_header (t : tracepoint) : string :=
  "QTDP:" +:+ sprintf_x (number t) +:+ ":" +:+ sprintf_x (address t) +:+ ":"
  +:+ (match tp_enabled t with enabled => "E" | disabled => "D" end) +:+ ":"
  +:+ sprintf_x (step_count t) +:+ ":" +:+ sprintf_x (pass_count t).

(** The body of the ALL_TRACEPOINTS loop of trace_start_command up to
    putpkt: the packet for [t].  The character array buf is the string
    built; its size appears where the code tests it, and where strcat
    writes the 'S' and its terminator before the test that follows. *)
Definition qtdp_packet (t : tracepoint) : outcome string :=
  let buf := qtdp_header t in
  match actions t with
  | [] => Returned buf
  | _ =>
    '(tdp_actions, stepping_actions) ← encode_actions t;
    buf ← match tdp_actions with
          | Some a =>
            if strlen buf + strlen a >=? sizeof_buf
            then Raised (err_actions_too_complex (number t))
            else Returned (buf +:+ a)
          | None => Returned buf
          end;
    match stepping_actions with
    | Some a =>
      if strlen buf + 1 >=? sizeof_buf
      then Undefined "strcat (buf, S) past the end of buf"
      else
        let buf := buf +:+ "S" in
        if strlen buf + strlen a >=? sizeof_buf
        then Raised (err_actions_too_complex (number t))
        else Returned (buf +:+ a)
    | None => Returned buf
    end
  end.

(** One turn of the ALL_TRACEPOINTS loop of trace_start_command. *)
Definition send_tracepoint (t : tracepoint) : command unit :=
  buf ← lift (qtdp_packet t);
  _ ← putpkt buf;
  reply ← remote_get_noisy_reply;
  if bool_decide (reply = "OK") then mret tt else error err_no_tracepoints.

Fixpoint send_tracepoints (chain : list tracepoint) : command unit :=
  match chain with
  | [] => mret tt
  | t :: chain' => _ ← send_tracepoint t; send_tracepoints chain'
  end.

(** ** Component G: the trace-frame cursor *)

(** (CORE_ADDR) -1 *)
Definition minus_one_addr : Z := to_vma (-1).

(** What set_traceframe_context reads as its trace_pc in the calls
    set_traceframe_context (-1) of trace_start_command and
    trace_find_command: the function is defined in the old style, with
    trace_pc a CORE_ADDR, and the file declares no prototype for it, so
    the int -1 is not converted. *)
Definition end_of_trace_pc : Z := core_addr_of_int_argument (-1).

(** set_traceframe_context *)
Definition set_traceframe_context (trace_pc : Z) (s : session) : session :=
  if trace_pc =? minus_one_addr then   (* cease debugging any trace buffers *)
    let s := with_traceframe_fun s None in
    let s := with_traceframe_sal s (mk_sal None 0 0) in
    let s := set_internalvar "trace_func" VNull s in
    let s := set_internalvar "trace_file" VNull s in
    set_internalvar "trace_line" (VInt (-1)) s
  else
    let s := with_traceframe_sal s (find_pc_line trace_pc) in
    let s := with_traceframe_fun s (find_pc_function trace_pc) in
    let s := set_internalvar "trace_line"
               (VInt (sal_line (traceframe_sal s))) s in
    let s := set_internalvar "trace_func"
               (match traceframe_fun s with
                | Some f =>
                  match SYMBOL_NAME f with
                  | Some name => VString name
                  | None => VNull
                  end
                | None => VNull
                end) s in
    set_internalvar "trace_file"
      (match sal_symtab (traceframe_sal s) with
       | Some st =>
         match filename st with
         | Some name => VString name
         | None => VNull
         end
       | None => VNull
       end) s.

(** trace_start_command *)
Definition trace_start_command : command unit :=
  s ← get;
  if target_remote s then
    _ ← putpkt "QTinit";
    reply ← remote_get_noisy_reply;
    if negb (bool_decide (reply = "OK")) then error err_no_such_command
    else
      _ ← send_tracepoints (tracepoint_chain s);
      _ ← putpkt "QTStart";
      reply ← remote_get_noisy_reply;
      if negb (bool_decide (reply = "OK")) then error (err_bogus_reply reply)
      else
        _ ← modify (set_traceframe_num (-1));  (* all old traceframes invalidated *)
        _ ← modify (set_tracepoint_num (-1));
        modify (set_traceframe_context end_of_trace_pc)
  else mret tt.

(** The while (reply && *reply) loop of finish_tfind_command. *)
Fixpoint parse_tfind_reply (fuel : nat) (reply : string)
    (target_frameno target_tracept : Z) : outcome (Z * Z) :=
  if char_is reply NUL then Returned (target_frameno, target_tracept)
  else
    match fuel with
    | O => Undefined "finish_tfind_command: out of fuel"
    | S fuel' =>
      if char_is reply "F" then
        let '(n, reply) := strtol (advance 1 reply) 16 in
        if to_int n =? -1 then Raised err_frame_not_found
        else parse_tfind_reply fuel' reply (to_int n) target_tracept
      else if char_is reply "T" then
        let '(n, reply) := strtol (advance 1 reply) 16 in
        if to_int n =? -1 then Raised err_frame_not_found
        else parse_tfind_reply fuel' reply target_frameno (to_int n)
      else if char_is reply "O" then       (* "OK"? *)
        if char_is (advance 1 reply) "K" && char_is (advance 2 reply) NUL
        then parse_tfind_reply fuel' (advance 2 reply)
               target_frameno target_tracept
        else Raised (err_bogus_reply reply)
      else Raised (err_bogus_reply reply)
    end.

(** finish_tfind_command *)
Definition finish_tfind_command (reply : string) : command unit :=
  '(target_frameno, target_tracept) ←
    lift (parse_tfind_reply (String.length reply) reply (-1) (-1));
  (* flush_cached_frames, registers_changed, select_frame *)
  _ ← modify (set_traceframe_num target_frameno);
  _ ← modify (set_tracepoint_num target_tracept);
  modify (fun s => set_traceframe_context (current_frame_pc s) s).

(** trace_find_command *)
Definition trace_find_command (args : option string) : command unit :=
  s ← get;
  if target_remote s then
    frameno ←
      match args with
      | None | Some EmptyString =>
        (* TFIND with no args means find NEXT trace frame. *)
        if traceframe_number s =? -1 then mret 0
        else mret (traceframe_number s + 1)
      | Some a =>
        if bool_decide (a = "-") then
          if traceframe_number s =? -1 then
            error err_not_debugging_trace_buffer
          else if traceframe_number s =? 0 then error err_already_at_start
          else mret (traceframe_number s - 1)
        else lift (to_int <$> parse_and_eval_address a)
      end;
    _ ← putpkt ("QTFrame:" +:+ sprintf_x frameno);
    tmp ← remote_get_noisy_reply;
    if frameno =? -1 then              (* end trace debugging *)
      if negb (bool_decide (tmp = "F-1")) then error (err_bogus_reply tmp)
      else
        _ ← modify (set_traceframe_num (-1));
        _ ← modify (set_tracepoint_num (-1));
        modify (set_traceframe_context end_of_trace_pc)
    else finish_tfind_command tmp
  else error err_not_remote.

Definition trace_find_end_command : command unit :=
  trace_find_command (Some "-1").
Definition trace_find_none_command : command unit :=
  trace_find_command (Some "-1").
Definition trace_find_start_command : command unit :=
  trace_find_command (Some "0").

(** trace_find_pc_command; [read_pc] is what read_pc () returns. *)
Definition trace_find_pc_command (args : option string) (read_pc : Z)
  : command unit :=
  s ← get;
  if target_remote s then
    pc ← match args with
         | None | Some EmptyString => mret read_pc
         | Some a => lift (parse_and_eval_address a)
         end;
    _ ← putpkt ("QTFrame:pc:" +:+ sprintf_x pc);
    tmp ← remote_get_noisy_reply;
    finish_tfind_command tmp
  else error err_not_remote.

(** trace_find_tracepoint_command *)
Definition trace_find_tracepoint_command (args : option string)
  : command unit :=
  s ← get;
  if target_remote s then
    tdp ← match args with
          | None | Some EmptyString =>
            if tracepoint_number s =? -1 then error err_no_current_tracepoint
            else mret (tracepoint_number s)
          | Some a => lift (to_int <$> parse_and_eval_address a)
          end;
    _ ← putpkt ("QTFrame:tdp:" +:+ sprintf_x tdp);
    tmp ← remote_get_noisy_reply;
    finish_tfind_command tmp
  else error err_not_remote.

(** The start and stop addresses of tfind range and tfind outside. *)
Fixpoint before_comma (p : string) : string :=
  match p with
  | EmptyString => EmptyString
  | String c p' => if Ascii.eqb c "," then EmptyString
                   else String c (before_comma p')
  end.

Definition parse_address_pair (args : string) : outcome (Z * Z) :=
  match strchr args "," with
  | Some tmp =>
    start ← parse_and_eval_address (before_comma args);
    stop ← parse_and_eval_address (skip_spaces (advance 1 tmp));
    Returned (start, stop)
  | None =>                        (* no explicit end address? *)
    start ← parse_and_eval_address args;
    Returned (start, to_vma (start + 1))
  end.

(** trace_find_range_command and trace_find_outside_command, which differ
    in the [keyword] of the packet. *)
Definition trace_find_pair_command (keyword : string) (args : option string)
  : command unit :=
  s ← get;
  if target_remote s then
    match args with
    | None | Some EmptyString => mret tt       (* prints the usage *)
    | Some a =>
      '(start, stop) ← lift (parse_address_pair a);
      _ ← putpkt ("QTFrame:" +:+ keyword +:+ ":" +:+ sprintf_x start +:+ ":"
                  +:+ sprintf_x stop);
      tmp ← remote_get_noisy_reply;
      finish_tfind_command tmp
    end
  else error err_not_remote.

Definition trace_find_range_command := trace_find_pair_command "range".
Definition trace_find_outside_command := trace_find_pair_command "outside".

(** ** Statements of the specification *)

(** The merge pass of sort_merge as the specification words it: one linear
    pass that merges a record into its predecessor when their kinds are
    equal and the gap is at most MAX_REGISTER_VIRTUAL_SIZE. *)
Fixpoint merge_pass (cur : memrange) (rest : list memrange) : list memrange :=
  match rest with
  | [] => [cur]
  | r :: rest' =>
    if mergeable cur r then merge_pass (set_end cur (end_ r)) rest'
    else cur :: merge_pass r rest'
  end.

(** "for all adjacent i, i+1, either kind differs or
    list[i+1].start - list[i].end > MAX_REGISTER_VIRTUAL_SIZE" *)
Definition separated (ra rb : memrange) : Prop :=
  type ra ≠ type rb ∨
  svma_sub (start rb) (end_ ra) > MAX_REGISTER_VIRTUAL_SIZE.

Definition adjacent_separated (l : list memrange) : Prop :=
  ∀ (i : nat) (ra rb : memrange),
    l !! i = Some ra → l !! S i = Some rb → separated ra rb.

(** An order in which qsort may leave the records [l]: the same records,
    none of them greater under memrange_cmp than one that comes after it.
    Where records compare equal, more than one order is possible. *)
Definition qsort_result (l sorted : list memrange) : Prop :=
  sorted ≡ₚ l ∧ StronglySorted (fun a b => memrange_cmp a b <= 0) sorted.

(** The merge pass on the records in the order [sorted]. *)
Definition merge_sorted (sorted : list memrange) : list memrange :=
  match sorted with
  | [] => []
  | x :: xs => merge_pass x xs
  end.

(** No two records of [l] compare equal: the records stand in strictly
    increasing order of memrange_cmp. *)
Definition strictly_ordered (l : list memrange) : Prop :=
  StronglySorted (fun a b => memrange_cmp a b < 0) l.

Fixpoint concat_strings (l : list string) : string :=
  match l with
  | [] => ""
  | x :: l' => x +:+ concat_strings l'
  end.

(** The eight bytes of the bitmap, by increasing index. *)
Definition mask_bytes (c : collection_list) : list Z :=
  mask_byte (regs_mask c) <$> seq 0 (Z.to_nat sizeof_regs_mask).

Fixpoint drop_zero_bytes (l : list Z) : list Z :=
  match l with
  | [] => []
  | x :: l' => if x =? 0 then drop_zero_bytes l' else l
  end.

Definition all_zero (l : list Z) : bool := forallb (fun x => x =? 0) l.

(** A number in hex without prefix: its digits in base 16, the most
    significant first, as many as the number has. *)
Definition unprefixed_hex (v : Z) : string :=
  hex_digits hex_digit (S (Z.to_nat (Z.log2 v))) v.

(** M<kind_hex>,<start_hex>,<len_hex> with len = end - start.  The kind is
    the number of an int, start and len are numbers of the address type of
    the target; each is the number that the bits of its type make. *)
Definition memrange_spec (m : memrange) : string :=
  "M" +:+ unprefixed_hex (wrap_unsigned int_bits (type m)) +:+ "," +:+
  unprefixed_hex (to_vma (start m)) +:+ "," +:+
  unprefixed_hex (to_vma (end_ m - start m)).

(** Two hex digits for a byte. *)
Definition two_hex_digits (b : Z) : string :=
  String (hex_digit (b / 16)) (String (hex_digit (b mod 16)) "").

(** stringify as the specification words it, for a way to write one byte
    of the bitmap and one memrange: nothing for an all-zero bitmap and an
    empty list; otherwise 'R' and the bitmap bytes in descending index
    without the leading zero bytes when the bitmap is nonzero, then the
    text of each memrange. *)
Definition stringify_as (byte : Z → string) (record : memrange → string)
    (c : collection_list) : option string :=
  if all_zero (mask_bytes c) && bool_decide (list_ c = []) then None
  else
    Some ((if all_zero (mask_bytes c) then ""
           else "R" +:+ concat_strings
                          (byte <$> drop_zero_bytes (reverse (mask_bytes c))))
          +:+ concat_strings (record <$> list_ c)).

Definition stringify_spec : collection_list → option string :=
  stringify_as two_hex_digits memrange_spec.

(** The start and the length of [m] are numbers that the unsigned int
    read by "%X" holds in full. *)
Definition printed_in_full (m : memrange) : Prop :=
  to_vma (start m) = wrap_unsigned int_bits (start m) ∧
  to_vma (end_ m - start m) =
    wrap_unsigned int_bits (svma_sub (end_ m) (start m)).

(** One byte of memory at 0x100000005, above the first four gigabytes. *)
Definition wide_collection_list : collection_list :=
  {| regs_mask := regs_mask initial_collection_list;
     listsize := listsize initial_collection_list;
     list_ := [ {| type := 0; start := 2 ^ 32 + 5; end_ := 2 ^ 32 + 6 |} ] |}.

(** The collection lists that clear, add_register, add_memrange and
    sort_merge build: the list each call leaves, whether the call returns
    or raises the error of add_register (add_register raises before it
    changes anything; add_memrange has stored its record by then).  A call
    whose behaviour is undefined leaves nothing to speak of. *)
Inductive reachable : collection_list → Prop :=
  | reach_initial : reachable initial_collection_list
  | reach_clear c : reachable c → reachable (clear_collection_list c)
  | reach_add_register c regno c' :
      reachable c → add_register c regno = Returned c' → reachable c'
  | reach_add_memrange c type base len :
      reachable c → INT_MIN <= type <= INT_MAX →
      (∀ what, (add_memrange c type base len).2 ≠ Undefined what) →
      reachable (add_memrange c type base len).1
  | reach_sortmerge c : reachable c → reachable (memrange_sortmerge c).

(** "For every memrange with kind = r > 0, bit r of regs_mask is set." *)
Definition base_registers_collected (c : collection_list) : Prop :=
  ∀ m, m ∈ list_ c → type m > 0 → reg_bit c (type m) = true.

(** The same for the kinds that the bitmap has a bit for. *)
Definition base_registers_in_bitmap (c : collection_list) : Prop :=
  ∀ m, m ∈ list_ c → 0 < type m < 8 * sizeof_regs_mask →
       reg_bit c (type m) = true.

(** The registry operations: create, enable, disable, delete, passcount. *)
Inductive registry_step : session → session → Prop :=
  | step_create junk arg s s' :
      trace_command junk arg s = Returned s' → registry_step s s'
  | step_enable args s s' :
      enable_trace_command args s = Returned s' → registry_step s s'
  | step_disable args s s' :
      disable_trace_command args s = Returned s' → registry_step s s'
  | step_delete args answer s s' :
      delete_trace_command args answer s = Returned s' → registry_step s s'
  | step_passcount args s s' :
      trace_pass_command args s = Returned s' → registry_step s s'.

Inductive registry_reachable : session → Prop :=
  | registry_initial remote vars :
      registry_reachable (initial_session remote vars)
  | registry_next s s' :
      registry_reachable s → registry_step s s' → registry_reachable s'.

(** "for all tracepoints a, b in chain order: a.number < b.number" *)
Definition chain_increasing (s : session) : Prop :=
  ∀ (i j : nat) (a b : tracepoint),
    (i < j)%nat → tracepoint_chain s !! i = Some a →
    tracepoint_chain s !! j = Some b → number a < number b.

(** "tracepoint_count >= max { t.number }" *)
Definition count_bounds_numbers (s : session) : Prop :=
  ∀ t, t ∈ tracepoint_chain s → number t <= tracepoint_count s.

(** The numbers of the chain are strictly increasing and none is above
    tracepoint_count. *)
Definition registry_invariant (s : session) : Prop :=
  StronglySorted Z.lt (number <$> tracepoint_chain s) ∧
  Forall (fun n => n <= tracepoint_count s) (number <$> tracepoint_chain s).

(** [s'] comes after [s]: the count has not gone down, the invariant is
    kept, and a number of [s'] that [s] could already have given out is a
    number of [s]. *)
Definition registry_extends (s s' : session) : Prop :=
  tracepoint_count s <= tracepoint_count s' ∧
  (registry_invariant s → registry_invariant s') ∧
  (∀ n, n ∈ number <$> tracepoint_chain s' → n <= tracepoint_count s →
        n ∈ number <$> tracepoint_chain s).

(** "$trace_func, $trace_file are null and $trace_line = -1" *)
Definition trace_context_cleared (s : session) : Prop :=
  internalvars s !! "trace_func" = Some VNull ∧
  internalvars s !! "trace_file" = Some VNull ∧
  internalvars s !! "trace_line" = Some (VInt (-1)).

(** The text of the QTDP packet of [t] for the two strings that
    encode_actions returned. *)
Definition qtdp_text (t : tracepoint) (tdp_actions stepping_actions : option string)
  : string :=
  qtdp_header t +:+ default "" tdp_actions +:+
  match stepping_actions with
  | Some a => "S" +:+ a
  | None => ""
  end.

(** ** Further code of the file *)

(** trace_stop_command and trace_status_command, which differ in the
    packet they send. *)
Definition trace_query_command (packet : string) : command unit :=
  s ← get;
  if target_remote s then
    _ ← putpkt packet;
    reply ← remote_get_noisy_reply;
    if negb (bool_decide (reply = "OK")) then error (err_bogus_reply reply)
    else mret tt
  else error err_not_remote.

Definition trace_stop_command : command unit := trace_query_command "QTStop".
Definition trace_status_command : command unit :=
  trace_query_command "qTStatus".

(** free_actions (t) for the tracepoint at position [i] of the chain. *)
Definition free_actions (i : nat) (s : session) : session :=
  with_tracepoint_chain s
    (alter (fun t => set_actions t []) i (tracepoint_chain s)).

(** The storing of a line by read_actions: the first line stored becomes
    the list ([next == NULL]), a later one is linked after the last. *)
Definition store_action (i : nat) (next : bool) (line : string) (s : session)
  : session :=
  with_tracepoint_chain s
    (alter (fun t => set_actions t (if next then actions t ++ [line]
                                    else [line]))
           i (tracepoint_chain s)).

(** The while (1) loop of read_actions for the tracepoint at position
    [i].  [input] is the lines readline is going to return, and the loop
    returns those it has not read; at the end of the input readline
    returns NULL, which validate_actionline dereferences.  [next] tells
    that a line has been stored, [stepping] that the prompt is prompt2.
    When validate_actionline calls error (), the cleanup free_actions (t)
    runs. *)
Fixpoint read_actions_loop (input : list string) (i : nat)
    (next stepping : bool) : command (list string) :=
  match input with
  | [] => lift (Undefined "validate_actionline (NULL, t)")
  | line :: input' =>
    s ← get;
    match validate_actionline_at line i s with
    | Returned (linetype, s') =>
      _ ← modify (fun _ => s');
      match linetype with
      | BADLINE =>       (* already warned -- collect another line *)
        read_actions_loop input' i next stepping
      | GENERIC =>
        _ ← modify (store_action i next line);
        read_actions_loop input' i true stepping
      | STEPPING =>      (* begin "while-stepping" *)
        _ ← modify (store_action i next line);
        read_actions_loop input' i true true
      | END =>
        _ ← modify (store_action i next line);
        if stepping      (* end of single-stepping actions *)
        then read_actions_loop input' i true false
        else mret input'                 (* end of actions *)
      end
    | Raised e => _ ← modify (free_actions i); error e
    | Undefined w => lift (Undefined w)
    | Diverges => lift Diverges
    end
  end.

(** read_actions *)
Definition read_actions (input : list string) (i : nat)
  : command (list string) :=
  read_actions_loop input i false false.

(** trace_actions_command *)
Definition trace_actions_command (args : option string)
    (input : list string) : command (list string) :=
  s ← get;
  '(t, _) ← lift (get_tracepoint_by_number args s);
  match t with
  | Some i =>
    _ ← modify (free_actions i);
    read_actions input i
  | None => mret input            (* error, just return *)
  end.

(** *** tracepoint_save_command

    The file written is the list of its lines, each the fprintf that
    wrote it with its arguments. *)
Inductive saved_line : Type :=
  | save_trace (addr_string : string)       (* "trace %s\n" *)
  | save_trace_address (address : Z)        (* "trace *0x%x\n" *)
  | save_passcount (pass_count : Z)         (* "  passcount %d\n" *)
  | save_actions                            (* "  actions\n" *)
  | save_action (indent actionline : string).   (* "%s%s\n" *)

(** The for loop over the action lines of a tracepoint. *)
Fixpoint save_action_lines (lines : list string) (indent : string)
  : list saved_line :=
  match lines with
  | [] => []
  | line :: lines' =>
    let actionline := skip_spaces line in
    save_action indent actionline ::
    save_action_lines lines'
      (if strncasecmp_eq actionline "while-stepping" 14 then "      "
       else if strncasecmp_eq actionline "end" 3 then "    "
       else indent)
  end.

(** The body of the ALL_TRACEPOINTS loop. *)
Definition save_tracepoint (tp : tracepoint) : list saved_line :=
  (match addr_string tp with
   | Some a => save_trace a
   | None => save_trace_address (address tp)
   end)
  :: (if negb (pass_count tp =? 0) then [save_passcount (pass_count tp)]
      else [])
  ++ match actions tp with
     | [] => []
     | _ => save_actions :: save_action_lines (actions tp) "    "
     end.

(** tracepoint_save_command, for a file that fopen can open: the lines
    written, or nothing when there is no tracepoint to save and no file
    is opened. *)
Definition tracepoint_save_command (args : option string) (s : session)
  : outcome (option (list saved_line)) :=
  match args with
  | None | Some EmptyString => Raised err_argument_required
  | Some _ =>
    match tracepoint_chain s with
    | [] => Returned None        (* "save-tracepoints: no tracepoints to save." *)
    | chain => Returned (Some (mjoin (save_tracepoint <$> chain)))
    end
  end.

(** ** Further statements, read off the code *)

(** What set_raw_tracepoint and trace_command give a tracepoint made for
    [sal]: its position, enabled, no pass count, no step count, no
    actions, no condition. *)
Definition fresh_tracepoint (sal : symtab_and_line) (t : tracepoint) : Prop :=
  address t = sal_pc sal ∧ line_number t = sal_line sal ∧
  tp_enabled t = enabled ∧ step_count t = 0 ∧ pass_count t = 0 ∧
  actions t = [] ∧ cond_string t = None ∧
  language t = current_language ∧ tp_input_radix t = input_radix.

(** A character of a string with which neither a number nor the name
    of a convenience variable can begin. *)
Definition starts_no_number (c : ascii) : bool :=
  negb (Ascii.eqb c NUL) && negb (isspace c) && negb (isdigit c) &&
  negb (Ascii.eqb c "$") && negb (Ascii.eqb c "+") && negb (Ascii.eqb c "-").

(** The verdict of validate_actionline on a line. *)
Definition linetype_of (line : string) (t : tracepoint)
  : outcome actionline_type :=
  fst <$> validate_actionline line t.

(** The lines that read_actions stores: those not judged BADLINE. *)
Definition stored_line (t : tracepoint) (line : string) : bool :=
  match linetype_of line t with
  | Returned BADLINE => false
  | _ => true
  end.

(** A packet of console output, as remote_get_noisy_reply tells it. *)
Definition console_packet (buf : string) : Prop :=
  char_is buf "O" = true ∧ char_is (advance 1 buf) "K" = false.

(** [s'] differs from [s] at most in the packets sent, the replies still
    to read and the console output. *)
Definition same_but_traffic (s s' : session) : Prop :=
  tracepoint_chain s' = tracepoint_chain s ∧
  tracepoint_count s' = tracepoint_count s ∧
  traceframe_number s' = traceframe_number s ∧
  tracepoint_number s' = tracepoint_number s ∧
  traceframe_fun s' = traceframe_fun s ∧
  traceframe_sal s' = traceframe_sal s ∧
  internalvars s' = internalvars s ∧
  target_remote s' = target_remote s ∧
  current_frame_pc s' = current_frame_pc s.

(** The commands that talk to the stub. *)
Inductive protocol_command : command unit → Prop :=
  | is_tstart : protocol_command trace_start_command
  | is_tstop : protocol_command trace_stop_command
  | is_tstatus : protocol_command trace_status_command
  | is_tfind args : protocol_command (trace_find_command args)
  | is_tfind_pc args read_pc :
      protocol_command (trace_find_pc_command args read_pc)
  | is_tfind_tracepoint args :
      protocol_command (trace_find_tracepoint_command args)
  | is_tfind_range args : protocol_command (trace_find_range_command args)
  | is_tfind_outside args :
      protocol_command (trace_find_outside_command args).

(** [t'] differs from [t] at most in its action lines and its step
    count. *)
Definition same_but_actions (t t' : tracepoint) : Prop :=
  number t' = number t ∧ address t' = address t ∧
  source_file t' = source_file t ∧ language t' = language t ∧
  tp_input_radix t' = tp_input_radix t ∧ line_number t' = line_number t ∧
  tp_enabled t' = tp_enabled t ∧ pass_count t' = pass_count t ∧
  addr_string t' = addr_string t ∧ cond_string t' = cond_string t.



(** What can follow a hexadecimal number without being read as part of
    it: the end of the string, or a character that is no hexadecimal
    digit and not the x of a 0x prefix. *)
Definition hex_stop (p : string) : bool :=
  match p with
  | EmptyString => true
  | String c _ =>
    negb (Ascii.eqb c "x") && negb (Ascii.eqb c "X") &&
    match digit_value c with
    | Some d => 16 <=? d
    | None => true
    end
  end.

(** The text of a line of the file that holds an action. *)
Definition saved_action_text (l : saved_line) : option string :=
  match l with
  | save_action indent actionline => Some (indent +:+ actionline)
  | _ => None
  end.

(** The action lines of a tracepoint as the file has them. *)
Definition saved_actions (tp : tracepoint) : list string :=
  omap saved_action_text (save_tracepoint tp).

(** The call comes back: it returns, or leaves through error (). *)
Definition comes_back {A} (o : outcome A) : Prop :=
  match o with
  | Returned _ | Raised _ => True
  | Undefined _ | Diverges => False
  end.

End WithTarget.





(** ** A concrete target and concrete collaborators, for the examples *)

Definition example_target : Target :=
  {| vma_bits := 64; long_bits := 64;
     long_bits_min := ltac:(vm_compute; discriminate);
     MAX_REGISTER_VIRTUAL_SIZE := 8;
     NUM_REGS := 16; FP_REGNUM := 6; REGISTER_RAW_SIZE := fun _ => 4;
     core_addr_of_int_argument := wrap_unsigned int_bits;
     core_addr_of_int_argument_same_width := fun _ _ => eq_refl |}.

(** A target whose addresses have the width of an int. *)
Definition example_target32 : Target :=
  {| vma_bits := 32; long_bits := 32;
     long_bits_min := ltac:(vm_compute; discriminate);
     MAX_REGISTER_VIRTUAL_SIZE := 8;
     NUM_REGS := 16; FP_REGNUM := 6; REGISTER_RAW_SIZE := fun _ => 4;
     core_addr_of_int_argument := wrap_unsigned int_bits;
     core_addr_of_int_argument_same_width := fun _ _ => eq_refl |}.

Definition example_collaborators : Collaborators :=
  {| parse_exp_1 := fun p _ => Returned (OP_REGISTER 1, 2%nat);
     block_for_pc := fun _ => [];
     find_pc_line := fun _ => mk_sal None 42 0;
     find_pc_function := fun _ => None;
     decode_line_1 := fun a =>
       Returned ([mk_sal (Some (mk_symtab (Some "a.c") (Some "/usr/src/")))
                    10 4096;
                  mk_sal None 0 8192], [], String.length a);
     parse_and_eval_address := fun a => Returned (fst (@strtol example_target a 0));
     fromhex := fun _ => Returned 0;
     current_language := 1; input_radix := 10 |}.

#[local] Existing Instance example_target.
#[local] Existing Instance example_collaborators.

Definition outcome_value {A} (d : A) (o : outcome A) : A :=
  match o with
  | Returned a => a
  | _ => d
  end.

(** Two locals of four bytes at frame offsets -8 and 4, and a third at 5:
    the gap after the first is MAX_REGISTER_VIRTUAL_SIZE for the second and
    one more for the third. *)
Definition example_range_a : memrange := mk_memrange 6 (-8) (-4).
Definition example_range_b : memrange := mk_memrange 6 4 8.
Definition example_range_c : memrange := mk_memrange 6 5 9.
Definition example_absolute_low : memrange := mk_memrange 0 4 8.
Definition example_absolute_high : memrange := mk_memrange 0 (-8) (-4).

Definition example_list (l : list memrange) : collection_list :=
  mk_collection_list (replicate 8 0) 128 l.

(** collect $($fp, -8, 4), then sort_merge *)
Definition example_collected : collection_list :=
  (add_memrange initial_collection_list 6 (-8) 4).1.

(** The list that add_memrange leaves when the base register is beyond the
    bitmap. *)
Definition example_uncollected : collection_list :=
  (add_memrange initial_collection_list 65 0 4).1.

(** The registry after "trace main" found two locations, and after
    "delete tracepoints 1". *)
Definition example_junk : nat → nat → ascii := fun _ _ => "x"%char.

Definition example_registry : session :=
  outcome_value (initial_session true ∅)
    (trace_command example_junk (Some "main") (initial_session true ∅)).

Definition example_registry_after_delete : session :=
  outcome_value example_registry
    (delete_trace_command (Some "1") true example_registry).

(** A tracepoint that steps three instructions. *)
Definition example_stepping_tracepoint : tracepoint :=
  mk_tracepoint 1 0x4010c0 None 1 10 0 enabled 3 0
    ["collect $reg"; "while-stepping 3"; "collect $reg"; "end"; "end"]
    None None.

Definition example_actions_session : session :=
  with_tracepoint_chain (initial_session true ∅) [example_stepping_tracepoint].

(** A tracepoint that collects 250 single bytes, 256 bytes apart. *)
Definition example_big_tracepoint : tracepoint :=
  mk_tracepoint 1 0x4010c0 None 1 10 0 enabled 0 0
    (((fun i => "collect $(0x" +:+ sprintf_x (Z.of_nat i * 256) +:+ ",1)")
      <$> seq 1 250) ++ ["end"])
    None None.

Definition example_tstart_session : session :=
  with_replies
    (with_tracepoint_chain (initial_session true ∅) [example_big_tracepoint])
    ["OK"; "OK"; "OK"].

(** The line that collects [size] bytes at 0x10000000 + i * 0x40000000;
    its memrange takes 12 characters and the digits of the size. *)
Definition example_collect_line (size : Z) (i : nat) : string :=
  "collect $(0x" +:+
  hex_digits lower_hex_digit 16 (0x10000000 + Z.of_nat i * 0x40000000) +:+
  ",0x" +:+ hex_digits lower_hex_digit 16 size +:+ ")".

(** Tracepoints that collect 102 and 110 ranges of 256 megabytes, one
    gigabyte apart: 2040 and 2200 characters of tdp actions. *)
Definition example_complex_tracepoint : tracepoint :=
  mk_tracepoint 1 0x4010c0 None 1 10 0 enabled 0 0
    ((example_collect_line 0x10000000 <$> seq 0 102) ++ ["end"])
    None None.

Definition example_long_tracepoint : tracepoint :=
  mk_tracepoint 1 0x4010c0 None 1 10 0 enabled 0 0
    ((example_collect_line 0x10000000 <$> seq 0 110) ++ ["end"])
    None None.

(** A tracepoint with 2028 characters of tdp actions, which with the 19
    characters of its header leave one byte of buf, and with stepping
    actions. *)
Definition example_boundary_tracepoint : tracepoint :=
  mk_tracepoint 1 0x4010c0 None 1 10 0 enabled 3 0
    ((example_collect_line 0x10000000 <$> seq 0 100) ++
     (example_collect_line 0x10 <$> seq 100 2) ++
     ["while-stepping 3"; "collect $reg"; "end"; "end"])
    None None.

Definition example_complex_session : session :=
  with_replies
    (with_tracepoint_chain (initial_session true ∅)
       [example_complex_tracepoint])
    ["OK"; "OK"; "OK"].

(** A tracepoint that collects the byte at 0x100000005. *)
Definition example_wide_tracepoint : tracepoint :=
  mk_tracepoint 1 0x4010c0 None 1 10 0 enabled 0 0
    ["collect $(0x100000005,1)"; "end"] None None.

(** Two records that compare equal, and a third. *)
Definition example_tied : collection_list :=
  example_list [mk_memrange 0 4 8; mk_memrange 0 4 6; mk_memrange 0 100 104].

(** A session in which the stub answers a tstart, and one in which it
    answers "tfind 5" with T7F3F while the current frame is at 0x4010c0. *)
Definition example_quiet_session : session :=
  with_replies (initial_session true ∅) ["OK"; "OK"].

Definition example_end_session : session :=
  with_replies (initial_session true ∅) ["F-1"].

Definition example_tfind_session : session :=
  mk_session [] 0 (-1) (-1) None (mk_sal None 0 0) ∅ true [] ["T7F3F"] []
    0x4010c0.

(** Three ranges given out of order, two registers collected one after
    the other, and the sixteen registers of the example target. *)
Definition example_unsorted : collection_list :=
  example_list [example_range_c; example_absolute_low; example_range_a].

Definition example_one_register : collection_list :=
  outcome_value initial_collection_list
    (add_register initial_collection_list 3).

Definition example_two_registers : collection_list :=
  outcome_value initial_collection_list
    (add_register example_one_register 10).

(** A session in which the stub sends console output before it answers,
    one in which it sends a register packet, and one in which it answers
    the three packets of a tstart for one tracepoint. *)
Definition example_noisy_session : session :=
  with_replies (initial_session true ∅) ["Ohello"; "OK"; "F0"].

Definition example_register_session : session :=
  with_replies (initial_session true ∅) ["R0:00000000;"; "OK"].

Definition example_download_session : session :=
  with_replies
    (with_tracepoint_chain (initial_session true ∅)
       [example_stepping_tracepoint])
    ["OK"; "OK"; "OK"].

Definition example_frame_session : session :=
  with_replies (initial_session true ∅) ["F5T2"].

(** Lines typed to the actions command: one that is accepted, an empty
    one, the end, and a line that is not read; and lines of which the
    second makes parse_and_eval_memrange call error (). *)
Definition example_input : list string :=
  ["collect $reg"; ""; "end"; "enable 1"].

Definition example_bad_input : list string :=
  ["collect $reg"; "collect $(0,0)"; "end"].


Definition example_indented_tracepoint : tracepoint :=
  mk_tracepoint 1 0x4010c0 None 1 10 0 enabled 3 0
    ["  collect $reg"; " while-stepping 3"; "collect $reg"; "end"; "end"]
    None None.

(** The block of a function and the block of its file. *)
Definition example_function_block : block :=
  mk_block [mk_symbol (Some "i") LOC_REGISTER 3 0 0 4] true.

Definition example_file_block : block :=
  mk_block [mk_symbol (Some "counter") LOC_STATIC 0 0x601040 0 4] false.

(* ===================================================================== *)
(** * Part II.  Theorems                                                  *)
(* ===================================================================== *)

(** ** Component A: collection lists *)

Section CollectionList.
Context `{T : Target}.

Lemma memrange_cmp_antisym (a b : memrange) :
  memrange_cmp a b = -1 → memrange_cmp b a = 1.
Proof.
  unfold memrange_cmp.
  repeat match goal with
         | |- context [ (?x <? ?y) ] => destruct (Z.ltb_spec x y)
         | |- context [ (?x >? ?y) ] =>
             rewrite (Z.gtb_ltb x y); destruct (Z.ltb_spec y x)
         | |- context [ (?x =? ?y) ] => destruct (Z.eqb_spec x y)
         end; intros; try discriminate; try reflexivity; lia.
Qed.

(** The array loop computes the merge pass: with the records already
    emitted in [done], the record being grown [cur], the stale slots
    [junk] between the two indices and the records still to read [rest],
    the live prefix of the array at the end is [done ++ merge_pass cur rest]. *)
Lemma sortmerge_loop_refines (rest : list memrange) :
  ∀ (done : list memrange) (cur : memrange) (junk : list memrange),
    let '(l, a) :=
      sortmerge_loop (length rest) (done ++ cur :: junk ++ rest)
        (length done) (length done + 1 + length junk) in
    take (S a) l = done ++ merge_pass cur rest.
Proof.
  induction rest as [|r rest IH]; intros done cur junk; simpl.
  - rewrite app_nil_r.
    replace (S (length done)) with (length (done ++ [cur]))
      by (rewrite length_app; simpl; lia).
    replace (done ++ cur :: junk) with ((done ++ [cur]) ++ junk)
      by (rewrite <- app_assoc; reflexivity).
    apply take_app_length.
  - assert (Ha : (done ++ cur :: junk ++ r :: rest) !! length done = Some cur)
      by (rewrite lookup_app_r by lia; rewrite Nat.sub_diag; reflexivity).
    assert (Hb : (done ++ cur :: junk ++ r :: rest)
                   !! (length done + 1 + length junk)%nat = Some r).
    { rewrite lookup_app_r by lia.
      replace (length done + 1 + length junk - length done)%nat
        with (S (length junk)) by lia.
      simpl. rewrite lookup_app_r by lia. rewrite Nat.sub_diag. reflexivity. }
    rewrite Ha, Hb.
    destruct (mergeable cur r) eqn:Hm.
    + specialize (IH done (set_end cur (end_ r)) (junk ++ [r])).
      rewrite length_app in IH. simpl in IH.
      replace (length done + 1 + (length junk + 1))%nat
        with (S (length done + 1 + length junk)) in IH by lia.
      replace (<[length done:=set_end cur (end_ r)]>
                 (done ++ cur :: junk ++ r :: rest))
        with (done ++ set_end cur (end_ r) :: (junk ++ [r]) ++ rest).
      * exact IH.
      * rewrite insert_app_r_alt by lia. rewrite Nat.sub_diag. simpl.
        rewrite <- app_assoc. reflexivity.
    + destruct junk as [|j junk].
      * simpl. rewrite decide_True by lia.
        specialize (IH (done ++ [cur]) r []).
        rewrite length_app in IH. simpl in IH.
        rewrite <- !app_assoc in IH. simpl in IH.
        replace (length done + 1 + 1 + 0)%nat
          with (S (length done + 1 + 0)) in IH by lia.
        replace (S (length done)) with (length done + 1)%nat by lia.
        exact IH.
      * rewrite decide_False by (simpl; lia).
        specialize (IH (done ++ [cur]) r (junk ++ [r])).
        rewrite !length_app in IH. simpl in IH.
        rewrite <- !app_assoc in IH. simpl in IH.
        replace (<[S (length done):=r]>
                   (done ++ cur :: (j :: junk) ++ r :: rest))
          with (done ++ cur :: r :: junk ++ r :: rest).
        -- replace (S (length done)) with (length done + 1)%nat by lia.
           replace (S (length done + 1 + length (j :: junk)))
             with (length done + 1 + 1 + (length junk + 1))%nat
             by (simpl; lia).
           exact IH.
        -- rewrite insert_app_r_alt by lia.
           replace (S (length done) - length done)%nat with 1%nat by lia.
           reflexivity.
Qed.

Lemma memrange_sortmerge_list (c : collection_list) :
  list_ (memrange_sortmerge c) =
  match qsort memrange_cmp (list_ c) with
  | [] => []
  | x :: xs => merge_pass x xs
  end.
Proof.
  unfold memrange_sortmerge.
  destruct (qsort memrange_cmp (list_ c)) as [|x xs] eqn:Hq; simpl.
  - reflexivity.
  - pose proof (sortmerge_loop_refines xs [] x []) as H.
    simpl in H. rewrite Nat.sub_0_r.
    destruct (sortmerge_loop (length xs) (x :: xs) 0 1) as [l a].
    simpl. exact H.
Qed.

Lemma merge_pass_head (rest : list memrange) :
  ∀ cur, ∃ m l, merge_pass cur rest = m :: l ∧
                type m = type cur ∧ start m = start cur.
Proof.
  induction rest as [|r rest IH]; intros cur; simpl.
  - eauto.
  - destruct (mergeable cur r).
    + destruct (IH (set_end cur (end_ r))) as (m & l & -> & Ht & Hs).
      eauto.
    + eauto.
Qed.

Lemma mergeable_false (ra rb : memrange) :
  mergeable ra rb = false → separated ra rb.
Proof.
  unfold mergeable, separated. intros H.
  apply andb_false_iff in H. destruct H as [H|H].
  - left. apply Z.eqb_neq. exact H.
  - right. apply Z.leb_gt in H. lia.
Qed.

Lemma adjacent_separated_cons (x y : memrange) (l : list memrange) :
  separated x y → adjacent_separated (y :: l) →
  adjacent_separated (x :: y :: l).
Proof.
  intros Hxy Hl [|i] ra rb Ha Hb; simpl in *.
  - congruence.
  - eapply Hl; eassumption.
Qed.

Lemma merge_pass_separated (rest : list memrange) :
  ∀ cur, adjacent_separated (merge_pass cur rest).
Proof.
  induction rest as [|r rest IH]; intros cur; simpl.
  - intros [|i] ra rb Ha Hb; simpl in *; discriminate.
  - destruct (mergeable cur r) eqn:Hm.
    + apply IH.
    + destruct (merge_pass_head rest r) as (m & l & Heq & Ht & Hs).
      specialize (IH r). rewrite Heq in *.
      apply adjacent_separated_cons; [|exact IH].
      apply mergeable_false in Hm.
      unfold separated in *. rewrite Ht, Hs. exact Hm.
Qed.

(** The sort keeps the records: it only reorders them. *)
Lemma qsort_insert_elem {A} (cmp : A → A → Z) (x y : A) (l : list A) :
  y ∈ qsort_insert cmp x l ↔ y = x ∨ y ∈ l.
Proof.
  induction l as [|z l IH]; simpl.
  - rewrite list_elem_of_singleton, elem_of_nil. tauto.
  - destruct (cmp x z <=? 0).
    + rewrite elem_of_cons. reflexivity.
    + rewrite !elem_of_cons, IH. tauto.
Qed.

Lemma qsort_elem {A} (cmp : A → A → Z) (y : A) (l : list A) :
  y ∈ qsort cmp l ↔ y ∈ l.
Proof.
  induction l as [|x l IH]; simpl.
  - reflexivity.
  - rewrite qsort_insert_elem, elem_of_cons, IH. reflexivity.
Qed.

(** The merge pass invents no kind: every record it leaves has the kind of
    a record it was given. *)
Lemma merge_pass_types (rest : list memrange) :
  ∀ cur m, m ∈ merge_pass cur rest →
           ∃ m0, m0 ∈ cur :: rest ∧ type m0 = type m.
Proof.
  induction rest as [|r rest IH]; intros cur m; simpl.
  - intros Hm. exists m. split; [exact Hm | reflexivity].
  - destruct (mergeable cur r).
    + intros Hm. destruct (IH _ _ Hm) as (m0 & Hin & Ht).
      apply elem_of_cons in Hin. destruct Hin as [->|Hin].
      * exists cur. split; [apply list_elem_of_here | exact Ht].
      * exists m0. split; [do 2 apply list_elem_of_further; exact Hin | exact Ht].
    + intros Hm. apply elem_of_cons in Hm. destruct Hm as [->|Hm].
      * exists cur. split; [apply list_elem_of_here | reflexivity].
      * destruct (IH _ _ Hm) as (m0 & Hin & Ht).
        exists m0. split; [apply list_elem_of_further; exact Hin | exact Ht].
Qed.

Lemma memrange_sortmerge_types (c : collection_list) (m : memrange) :
  m ∈ list_ (memrange_sortmerge c) →
  ∃ m0, m0 ∈ list_ c ∧ type m0 = type m.
Proof.
  rewrite memrange_sortmerge_list.
  destruct (qsort memrange_cmp (list_ c)) as [|x xs] eqn:Hq.
  - intros H. inversion H.
  - intros H. destruct (merge_pass_types _ _ _ H) as (m0 & Hin & Ht).
    exists m0. split; [|exact Ht].
    apply (qsort_elem memrange_cmp). rewrite Hq. exact Hin.
Qed.

(** C1.  After memrange_sortmerge, any two adjacent records either differ
    in kind or have list[i+1].start - list[i].end greater than
    MAX_REGISTER_VIRTUAL_SIZE (the difference being the bfd_signed_vma
    difference the code computes).  In particular two records of equal
    kind, [a] sorting before [b], are merged into one when that gap is
    exactly MAX_REGISTER_VIRTUAL_SIZE and are left as they are when it is
    MAX_REGISTER_VIRTUAL_SIZE + 1, in whichever order they were added. *)
Theorem memrange_sortmerge_separates (c : collection_list) (a b : memrange) :
  adjacent_separated (list_ (memrange_sortmerge c)) ∧
  (type a = type b → memrange_cmp a b = -1 →
   list_ c = [a; b] ∨ list_ c = [b; a] →
   (svma_sub (start b) (end_ a) = MAX_REGISTER_VIRTUAL_SIZE →
    list_ (memrange_sortmerge c) = [set_end a (end_ b)]) ∧
   (svma_sub (start b) (end_ a) = MAX_REGISTER_VIRTUAL_SIZE + 1 →
    list_ (memrange_sortmerge c) = [a; b])).
Proof.
  split.
  - rewrite memrange_sortmerge_list.
    destruct (qsort memrange_cmp (list_ c)) as [|x xs].
    + intros i ra rb Ha. discriminate.
    + apply merge_pass_separated.
  - intros Ht Hcmp Hl.
    assert (Hq : qsort memrange_cmp (list_ c) = [a; b]).
    { destruct Hl as [-> | ->]; simpl.
      - rewrite Hcmp. reflexivity.
      - rewrite (memrange_cmp_antisym _ _ Hcmp). reflexivity. }
    rewrite memrange_sortmerge_list, Hq. simpl.
    unfold mergeable. rewrite Ht, Z.eqb_refl. simpl.
    split; intros ->.
    + rewrite Z.leb_refl. reflexivity.
    + replace (MAX_REGISTER_VIRTUAL_SIZE + 1 <=? MAX_REGISTER_VIRTUAL_SIZE)
        with false by (symmetry; apply Z.leb_gt; lia).
      reflexivity.
Qed.

(** C10.  memrange_cmp orders by kind first and by start second; the
    starts of two absolute ranges (kind 0) are compared as unsigned
    addresses, those of two register-relative ranges as signed offsets.  So
    a negative start sorts before a non-negative one in a
    register-relative class, and after it in the absolute class. *)
Theorem memrange_cmp_order (a b : memrange) :
  (type a < type b → memrange_cmp a b = -1) ∧
  (type a > type b → memrange_cmp a b = 1) ∧
  (type a = type b → type a = 0 →
   memrange_cmp a b =
   match to_vma (start a) ?= to_vma (start b) with
   | Lt => -1 | Eq => 0 | Gt => 1
   end) ∧
  (type a = type b → type a ≠ 0 →
   memrange_cmp a b =
   match start a ?= start b with
   | Lt => -1 | Eq => 0 | Gt => 1
   end) ∧
  (type a = type b →
   - 2 ^ (Z.pos vma_bits - 1) <= start a < 0 →
   0 <= start b < 2 ^ (Z.pos vma_bits - 1) →
   (type a > 0 → memrange_cmp a b = -1) ∧
   (type a = 0 → memrange_cmp a b = 1)).
Proof.
  unfold memrange_cmp.
  repeat split; intros.
  - destruct (Z.ltb_spec (type a) (type b)); [reflexivity | lia].
  - destruct (Z.ltb_spec (type a) (type b)); [lia|].
    rewrite Z.gtb_ltb. destruct (Z.ltb_spec (type b) (type a)); [reflexivity | lia].
  - destruct (Z.ltb_spec (type a) (type b)); [lia|].
    rewrite (Z.gtb_ltb (type a)).
    destruct (Z.ltb_spec (type b) (type a)); [lia|].
    destruct (Z.eqb_spec (type a) 0); [|lia].
    rewrite Z.gtb_ltb.
    destruct (Z.compare_spec (to_vma (start a)) (to_vma (start b)));
      destruct (Z.ltb_spec (to_vma (start a)) (to_vma (start b)));
      destruct (Z.ltb_spec (to_vma (start b)) (to_vma (start a)));
      try reflexivity; lia.
  - destruct (Z.ltb_spec (type a) (type b)); [lia|].
    rewrite (Z.gtb_ltb (type a)).
    destruct (Z.ltb_spec (type b) (type a)); [lia|].
    destruct (Z.eqb_spec (type a) 0); [lia|].
    rewrite Z.gtb_ltb.
    destruct (Z.compare_spec (start a) (start b));
      destruct (Z.ltb_spec (start a) (start b));
      destruct (Z.ltb_spec (start b) (start a));
      try reflexivity; lia.
  - destruct (Z.ltb_spec (type a) (type b)); [lia|].
    rewrite (Z.gtb_ltb (type a)).
    destruct (Z.ltb_spec (type b) (type a)); [lia|].
    destruct (Z.eqb_spec (type a) 0); [lia|].
    destruct (Z.ltb_spec (start a) (start b)); [reflexivity | lia].
  - destruct (Z.ltb_spec (type a) (type b)); [lia|].
    rewrite (Z.gtb_ltb (type a)).
    destruct (Z.ltb_spec (type b) (type a)); [lia|].
    destruct (Z.eqb_spec (type a) 0); [|lia].
    assert (Hp : 2 ^ Z.pos vma_bits = 2 * 2 ^ (Z.pos vma_bits - 1)).
    { rewrite <- Z.pow_succ_r by lia. f_equal. lia. }
    assert (Ha : to_vma (start a) = start a + 2 ^ Z.pos vma_bits).
    { unfold to_vma, wrap_unsigned. symmetry.
      apply Z.mod_unique with (q := -1); lia. }
    assert (Hb : to_vma (start b) = start b).
    { unfold to_vma, wrap_unsigned. apply Z.mod_small. lia. }
    rewrite Ha, Hb, Z.gtb_ltb.
    destruct (Z.ltb_spec (start a + 2 ^ Z.pos vma_bits) (start b)); [lia|].
    destruct (Z.ltb_spec (start b) (start a + 2 ^ Z.pos vma_bits));
      [reflexivity | lia].
Qed.

(** *** stringify_collection_list *)

Lemma emit_memranges_concat (l : list memrange) :
  emit_memranges l = concat_strings (emit_memrange <$> l).
Proof.
  induction l as [|m l IH]; simpl; [reflexivity | rewrite IH; reflexivity].
Qed.

Lemma emit_regs_mask_concat (mask : list Z) (i : nat) :
  emit_regs_mask mask i =
  concat_strings (sprintf_02X <$> reverse (mask_byte mask <$> seq 0 (S i))).
Proof.
  induction i as [|i IH].
  - reflexivity.
  - rewrite seq_S, fmap_app, reverse_app. simpl plus.
    change (emit_regs_mask mask (S i))
      with (sprintf_02X (mask_byte mask (S i)) +:+ emit_regs_mask mask i).
    rewrite IH. reflexivity.
Qed.

Lemma skip_leading_zeroes_spec (mask : list Z) (i : nat) :
  all_zero (mask_byte mask <$> seq 0 (S i)) =
    (mask_byte mask (skip_leading_zeroes mask i) =? 0) ∧
  drop_zero_bytes (reverse (mask_byte mask <$> seq 0 (S i))) =
    if mask_byte mask (skip_leading_zeroes mask i) =? 0 then []
    else reverse (mask_byte mask <$> seq 0 (S (skip_leading_zeroes mask i))).
Proof.
  induction i as [|i [IHz IHd]].
  - simpl. destruct (mask_byte mask 0 =? 0); split; reflexivity.
  - rewrite seq_S, fmap_app, reverse_app. simpl plus.
    change (skip_leading_zeroes mask (S i))
      with (if negb (mask_byte mask (S i) =? 0) then S i
            else skip_leading_zeroes mask i).
    unfold all_zero in *. rewrite forallb_app.
    change (reverse (mask_byte mask <$> [S i])) with [mask_byte mask (S i)].
    change (forallb (λ x : Z, x =? 0) (mask_byte mask <$> [S i]))
      with ((mask_byte mask (S i) =? 0) && true).
    rewrite andb_true_r.
    change ([mask_byte mask (S i)] ++ reverse (mask_byte mask <$> seq 0 (S i)))
      with (mask_byte mask (S i) :: reverse (mask_byte mask <$> seq 0 (S i))).
    cbn [drop_zero_bytes].
    destruct (mask_byte mask (S i) =? 0) eqn:Hz; cbn [negb].
    + rewrite andb_true_r. split; [exact IHz | exact IHd].
    + rewrite Hz, andb_false_r. split; [reflexivity|].
      rewrite (seq_S (S i) 0), fmap_app, reverse_app. reflexivity.
Qed.

Lemma sprintf_02X_byte (b : Z) :
  0 <= b < 256 → sprintf_02X b = two_hex_digits b.
Proof.
  intros Hb.
  assert (Hall : forallb (fun n => String.eqb (sprintf_02X (Z.of_nat n))
                                     (two_hex_digits (Z.of_nat n)))
                   (seq 0 256) = true)
    by (vm_compute; reflexivity).
  rewrite forallb_forall in Hall.
  specialize (Hall (Z.to_nat b)). rewrite Z2Nat.id in Hall by lia.
  apply String.eqb_eq, Hall, in_seq. lia.
Qed.

Lemma drop_zero_bytes_Forall (P : Z → Prop) (l : list Z) :
  Forall P l → Forall P (drop_zero_bytes l).
Proof.
  induction 1 as [|x l Hx Hl IH]; simpl; [constructor|].
  destruct (x =? 0); [exact IH | constructor; assumption].
Qed.

Lemma mask_bytes_Forall (c : collection_list) :
  Forall (fun byte => 0 <= byte < 256) (regs_mask c) →
  Forall (fun byte => 0 <= byte < 256) (mask_bytes c).
Proof.
  intros Hall. unfold mask_bytes. apply Forall_fmap, Forall_forall.
  intros i _. unfold mask_byte. simpl.
  destruct (regs_mask c !! i) as [byte|] eqn:Hb; simpl; [|lia].
  rewrite Forall_forall in Hall. apply Hall.
  eapply list_elem_of_lookup_2. exact Hb.
Qed.

Lemma stringify_collection_list_parts (c : collection_list) :
  stringify_collection_list c = stringify_as sprintf_02X emit_memrange c.
Proof.
  unfold stringify_collection_list, stringify_as, mask_bytes.
  change (Z.to_nat (sizeof_regs_mask - 1)) with 7%nat.
  change (Z.to_nat sizeof_regs_mask) with 8%nat.
  destruct (skip_leading_zeroes_spec (regs_mask c) 7) as [Hz Hd].
  rewrite Hz, Hd.
  rewrite emit_memranges_concat, emit_regs_mask_concat.
  destruct (mask_byte (regs_mask c) (skip_leading_zeroes (regs_mask c) 7) =? 0);
    simpl negb; cbv iota.
  - destruct (list_ c) as [|m l]; simpl.
    + reflexivity.
    + reflexivity.
  - simpl. reflexivity.
Qed.

(** The digits do not depend on the bound, once it is large enough. *)
Lemma hex_digits_fuel (digit : Z → ascii) (fuel1 : nat) :
  ∀ (fuel2 : nat) (v : Z),
    0 <= v < 16 ^ Z.of_nat (S fuel1) → v < 16 ^ Z.of_nat (S fuel2) →
    hex_digits digit (S fuel1) v = hex_digits digit (S fuel2) v.
Proof.
  induction fuel1 as [|fuel1 IH]; intros fuel2 v Hv1 Hv2.
  - cbn [hex_digits]. change (16 ^ Z.of_nat 1) with 16 in Hv1.
    destruct (Z.ltb_spec v 16); [reflexivity | lia].
  - cbn [hex_digits]. destruct (Z.ltb_spec v 16) as [Hlt|Hge];
      [reflexivity|].
    destruct fuel2 as [|fuel2].
    + change (16 ^ Z.of_nat 1) with 16 in Hv2. lia.
    + f_equal.
      change (hex_digits digit (S fuel1) (v / 16) =
              hex_digits digit (S fuel2) (v / 16)).
      rewrite Nat2Z.inj_succ, Z.pow_succ_r in Hv1, Hv2 by lia.
      apply IH.
      * split; [apply Z.div_pos; lia | apply Z.div_lt_upper_bound; lia].
      * apply Z.div_lt_upper_bound; lia.
Qed.

(** "%X" writes the unsigned int it reads in full. *)
Lemma sprintf_X_unprefixed_hex (v : Z) :
  sprintf_X v = unprefixed_hex (wrap_unsigned int_bits v).
Proof.
  unfold sprintf_X, unprefixed_hex.
  set (w := wrap_unsigned int_bits v).
  assert (Hw : 0 <= w < 2 ^ 32) by (apply Z.mod_pos_bound; reflexivity).
  apply hex_digits_fuel.
  - change (16 ^ Z.of_nat 8) with (2 ^ 32). exact Hw.
  - destruct (Z.eq_dec w 0) as [->|Hne]; [reflexivity|].
    pose proof (Z.log2_nonneg w) as Hl.
    destruct (Z.log2_spec w) as [_ Hup]; [lia|].
    rewrite Nat2Z.inj_succ, Z2Nat.id by lia.
    eapply Z.lt_le_trans; [exact Hup|].
    apply Z.pow_le_mono_l. lia.
Qed.

Lemma emit_memrange_in_full (m : memrange) :
  printed_in_full m → emit_memrange m = memrange_spec m.
Proof.
  intros [Hs Hl]. unfold emit_memrange, memrange_spec.
  rewrite !sprintf_X_unprefixed_hex, Hs, Hl. reflexivity.
Qed.

Lemma printed_in_full_same_width (m : memrange) :
  Z.pos vma_bits = int_bits → printed_in_full m.
Proof.
  intros Hw. unfold printed_in_full, to_vma, svma_sub, to_svma.
  rewrite Hw. split; [reflexivity|].
  unfold wrap_unsigned, wrap_signed.
  destruct (_ <? _).
  - rewrite Z.mod_mod by (unfold int_bits; lia). reflexivity.
  - set (r := (end_ m - start m) mod 2 ^ int_bits).
    replace (r - 2 ^ int_bits) with (r + -1 * 2 ^ int_bits) by lia.
    rewrite Z.mod_add by (unfold int_bits; lia).
    unfold r. rewrite Z.mod_mod by (unfold int_bits; lia). reflexivity.
Qed.

(** C2.  stringify_collection_list returns nothing exactly when the
    register bitmap is all-zero and there is no memrange.  It is the
    function that the specification describes, 'R' and the bitmap bytes
    from the highest nonzero byte down to byte 0, two hex digits each,
    then M<kind>,<start>,<len> with len = end - start for each memrange,
    all in hex without prefix, on the lists whose starts and lengths an
    unsigned int holds in full, which are all lists where the address
    type of the target is as wide as an int; "%02X" writes the two hex
    digits of a byte.  Where the address type is wider, "%X" writes the
    low 32 bits of a start: the byte at 0x100000005 is written as
    M0,5,1. *)
Theorem stringify_collection_list_spec (c : collection_list) (b : Z) :
  (stringify_collection_list c = None ↔
   all_zero (mask_bytes c) = true ∧ list_ c = []) ∧
  (Forall (fun byte => 0 <= byte < 256) (regs_mask c) →
   Forall printed_in_full (list_ c) →
   stringify_collection_list c = stringify_spec c) ∧
  (Z.pos vma_bits = int_bits → Forall printed_in_full (list_ c)) ∧
  (0 <= b < 256 → sprintf_02X b = two_hex_digits b) ∧
  (int_bits < Z.pos vma_bits →
   stringify_collection_list wide_collection_list = Some "M0,5,1" ∧
   stringify_spec wide_collection_list = Some "M0,100000005,1").
Proof.
  split; [|split; [|split; [|split; [apply sprintf_02X_byte|]]]].
  - rewrite stringify_collection_list_parts. unfold stringify_as.
    destruct (all_zero (mask_bytes c)); cbn [andb].
    + case_bool_decide as Hl.
      * split; [intros _; split; [reflexivity | exact Hl] | reflexivity].
      * split; [discriminate | intros [_ H]; contradiction].
    + split; [discriminate | intros [H _]; discriminate H].
  - intros Hbytes Hall. rewrite stringify_collection_list_parts.
    unfold stringify_spec, stringify_as.
    replace (emit_memrange <$> list_ c) with (memrange_spec <$> list_ c).
    2: { induction Hall as [|m l Hm _ IH]; [reflexivity|].
         cbn [fmap list_fmap]. rewrite (emit_memrange_in_full m Hm).
         f_equal. exact IH. }
    replace (sprintf_02X <$> drop_zero_bytes (reverse (mask_bytes c)))
      with (two_hex_digits <$> drop_zero_bytes (reverse (mask_bytes c)));
      [reflexivity|].
    apply Forall_fmap_ext.
    eapply Forall_impl;
      [apply drop_zero_bytes_Forall, Forall_reverse, mask_bytes_Forall,
         Hbytes|].
    intros byte Hb. simpl. symmetry. apply sprintf_02X_byte, Hb.
  - intros Hw. apply Forall_forall. intros m _.
    apply printed_in_full_same_width, Hw.
  - intros Hw.
    assert (Hp : 2 ^ 33 <= 2 ^ Z.pos vma_bits)
      by (apply Z.pow_le_mono_r; unfold int_bits in Hw; lia).
    assert (Hq : 2 ^ Z.pos vma_bits = 2 * 2 ^ (Z.pos vma_bits - 1))
      by (rewrite <- Z.pow_succ_r by lia; f_equal; lia).
    assert (Hlen : svma_sub (2 ^ 32 + 6) (2 ^ 32 + 5) = 1).
    { unfold svma_sub, to_svma, wrap_signed.
      replace (2 ^ 32 + 6 - (2 ^ 32 + 5)) with 1 by lia.
      rewrite Z.mod_small by lia.
      destruct (Z.ltb_spec 1 (2 ^ (Z.pos vma_bits - 1))); [reflexivity|].
      lia. }
    split.
    + rewrite stringify_collection_list_parts.
      unfold stringify_as, wide_collection_list. cbn [list_ fmap list_fmap].
      unfold emit_memrange. cbn [type start end_]. rewrite Hlen.
      reflexivity.
    + unfold stringify_spec, stringify_as, wide_collection_list.
      cbn [list_ fmap list_fmap].
      unfold memrange_spec. cbn [type start end_].
      replace (2 ^ 32 + 6 - (2 ^ 32 + 5)) with 1 by lia.
      assert (Hs : to_vma (2 ^ 32 + 5) = 2 ^ 32 + 5)
        by (apply Z.mod_small; lia).
      assert (Hl : to_vma 1 = 1) by (apply Z.mod_small; lia).
      rewrite Hs, Hl. reflexivity.
Qed.

(** *** add_register and the register bitmap *)

Lemma add_register_inv (c c' : collection_list) (regno : Z) :
  add_register c regno = Returned c' →
  regno <= 8 * sizeof_regs_mask ∧
  list_ c' = list_ c ∧ listsize c' = listsize c ∧
  ∃ byte, regs_mask c !! Z.to_nat (regno / 8) = Some byte ∧
          regs_mask c' =
          <[Z.to_nat (regno / 8) :=
              wrap_unsigned 8 (Z.lor byte (Z.shiftl 1 (regno mod 8)))]>
            (regs_mask c).
Proof.
  unfold add_register.
  destruct (Z.gtb_spec regno (8 * sizeof_regs_mask)); [discriminate|].
  destruct (regs_mask c !! Z.to_nat (regno / 8)) as [byte|] eqn:Hb;
    [|discriminate].
  intros [= <-]. simpl. eauto 10.
Qed.

Lemma testbit_set_bit (byte k j : Z) :
  0 <= k < 8 → 0 <= j < 8 →
  Z.testbit (wrap_unsigned 8 (Z.lor byte (Z.shiftl 1 k))) j =
  Z.testbit byte j || bool_decide (j = k).
Proof.
  intros Hk Hj. unfold wrap_unsigned.
  rewrite Z.mod_pow2_bits_low by lia.
  rewrite Z.lor_spec, Z.shiftl_spec by lia.
  f_equal. case_bool_decide as Hjk.
  - subst. rewrite Z.sub_diag. reflexivity.
  - destruct (Z.lt_ge_cases j k).
    + apply Z.testbit_neg_r. lia.
    + replace (j - k) with (Z.succ (j - k - 1)) by lia.
      apply (Z.bits_above_log2 1); simpl; lia.
Qed.

(** add_register only adds bits. *)
Lemma add_register_mono (c c' : collection_list) (regno r : Z) :
  add_register c regno = Returned c' →
  reg_bit c r = true → reg_bit c' r = true.
Proof.
  intros H Hr. apply add_register_inv in H.
  destruct H as (_ & _ & _ & byte & Hb & Hm).
  unfold reg_bit in *. rewrite Hm.
  destruct (decide (Z.to_nat (regno / 8) = Z.to_nat (r / 8))) as [Heq|Hne].
  - rewrite <- Heq. rewrite <- Heq, Hb in Hr.
    rewrite list_lookup_insert_eq by (eapply lookup_lt_Some; exact Hb).
    rewrite testbit_set_bit by (apply Z.mod_pos_bound; lia).
    rewrite Hr. reflexivity.
  - rewrite list_lookup_insert_ne by exact Hne. exact Hr.
Qed.

Lemma add_register_sets (c c' : collection_list) (regno : Z) :
  add_register c regno = Returned c' → reg_bit c' regno = true.
Proof.
  intros H. apply add_register_inv in H.
  destruct H as (_ & _ & _ & byte & Hb & Hm).
  unfold reg_bit. rewrite Hm.
  rewrite list_lookup_insert_eq by (eapply lookup_lt_Some; exact Hb).
  rewrite testbit_set_bit by (apply Z.mod_pos_bound; lia).
  rewrite bool_decide_eq_true_2 by reflexivity. apply orb_true_r.
Qed.

(** C3.  The bitmap holds 8 * sizeof (regs_mask) = 64 registers, numbered
    0 to 63.  add_register raises its internal error exactly for register
    numbers above 64.  Register 63 is accepted and its bit is set.  For
    register 64, the capacity, the bounds test passes and the function
    goes on to the store regs_mask[8] |= 1, past the end of the array. *)
Theorem add_register_at_capacity (c : collection_list) :
  length (regs_mask c) = 8%nat →
  (∀ regno, (∃ e, add_register c regno = Raised e) ↔
            regno > 8 * sizeof_regs_mask) ∧
  add_register c (8 * sizeof_regs_mask) =
    Undefined "store past the end of regs_mask" ∧
  (∃ c', add_register c (8 * sizeof_regs_mask - 1) = Returned c' ∧
         reg_bit c' (8 * sizeof_regs_mask - 1) = true).
Proof.
  intros Hlen. repeat split.
  - intros [e He]. unfold add_register in He.
    destruct (Z.gtb_spec regno (8 * sizeof_regs_mask)); [lia|].
    destruct (regs_mask c !! Z.to_nat (regno / 8)); discriminate.
  - intros Hgt. unfold add_register.
    destruct (Z.gtb_spec regno (8 * sizeof_regs_mask)); [eauto | lia].
  - unfold add_register. change (8 * sizeof_regs_mask) with 64.
    change (64 >? 64) with false. change (Z.to_nat (64 / 8)) with 8%nat.
    cbv iota. rewrite lookup_ge_None_2 by lia. reflexivity.
  - change (8 * sizeof_regs_mask - 1) with 63.
    destruct (add_register c 63) as [c'| | |] eqn:H.
    + exists c'. split; [reflexivity|]. eapply add_register_sets. exact H.
    + unfold add_register in H. change (63 >? 8 * sizeof_regs_mask) with false in H.
      cbv iota in H. destruct (regs_mask c !! Z.to_nat (63 / 8)); discriminate.
    + unfold add_register in H. change (63 >? 8 * sizeof_regs_mask) with false in H.
      cbv iota in H. change (Z.to_nat (63 / 8)) with 7%nat in H.
      destruct (lookup_lt_is_Some_2 (regs_mask c) 7 ltac:(lia)) as [b Hb].
      rewrite Hb in H. discriminate.
    + unfold add_register in H. change (63 >? 8 * sizeof_regs_mask) with false in H.
      cbv iota in H. destruct (regs_mask c !! Z.to_nat (63 / 8)); discriminate.
Qed.

(** *** The base register of every register-relative memrange is collected *)

Lemma to_ulong_small (x : Z) : 0 <= x <= INT_MAX → to_ulong x = x.
Proof.
  intros Hx. unfold to_ulong, wrap_unsigned. apply Z.mod_small.
  pose proof long_bits_min.
  assert (2 ^ 32 <= 2 ^ Z.pos long_bits) by (apply Z.pow_le_mono_r; lia).
  unfold INT_MAX in Hx. lia.
Qed.

Lemma memrange_sortmerge_regs_mask (c : collection_list) :
  regs_mask (memrange_sortmerge c) = regs_mask c.
Proof.
  unfold memrange_sortmerge.
  destruct (0 <? Z.of_nat (length (qsort memrange_cmp (list_ c))));
    [|reflexivity].
  destruct (sortmerge_loop _ _ _ _). reflexivity.
Qed.

Lemma add_register_outcome (c : collection_list) (regno : Z) :
  (∃ c', add_register c regno = Returned c') ∨
  (add_register c regno = Raised (err_register_too_large regno) ∧
   regno > 8 * sizeof_regs_mask) ∨
  (∃ what, add_register c regno = Undefined what).
Proof.
  unfold add_register.
  destruct (Z.gtb_spec regno (8 * sizeof_regs_mask)).
  - right. left. split; [reflexivity | lia].
  - destruct (regs_mask c !! Z.to_nat (regno / 8)); eauto.
Qed.

(** What add_memrange leaves: the record is in the list whatever
    add_register does next. *)
Lemma add_memrange_stores (c : collection_list) (ty base len : Z) :
  list_ (add_memrange c ty base len).1 =
  list_ c ++ [ {| type := ty; start := base; end_ := to_svma (base + len) |} ].
Proof.
  unfold add_memrange.
  destruct (_ >=? _); [reflexivity|].
  destruct (negb (ty =? 0)); [|reflexivity].
  destruct (add_register _ _) as [c'| | |] eqn:Hadd; try reflexivity.
  apply add_register_inv in Hadd. destruct Hadd as (_ & Hl & _).
  simpl. rewrite Hl. reflexivity.
Qed.

(** A call of add_memrange that is not undefined keeps listsize: the
    array is never resized on the way to a list that the model speaks of. *)
Lemma add_memrange_listsize (c : collection_list) (ty base len : Z) :
  (∀ what, (add_memrange c ty base len).2 ≠ Undefined what) →
  listsize (add_memrange c ty base len).1 = listsize c.
Proof.
  unfold add_memrange.
  destruct (_ >=? _); [intros H; exfalso; eapply H; reflexivity|].
  destruct (negb (ty =? 0)); [|reflexivity].
  destruct (add_register _ _) as [c'| | |] eqn:Hadd; try reflexivity.
  apply add_register_inv in Hadd. destruct Hadd as (_ & _ & Hl & _).
  intros _. simpl. rewrite Hl. reflexivity.
Qed.

Lemma reachable_invariant (c : collection_list) :
  reachable c →
  length (regs_mask c) = Z.to_nat sizeof_regs_mask ∧
  base_registers_in_bitmap c.
Proof.
  induction 1 as [ | c _ _ | c regno c' _ [IHl IH] Hadd
                 | c ty base len _ [IHl IH] Hty Hdef | c _ [IHl IH] ].
  - split; [reflexivity|]. intros m Hm. inversion Hm.
  - split; [reflexivity|]. intros m Hm. inversion Hm.
  - pose proof (add_register_inv _ _ _ Hadd) as (_ & Hl & _ & byte & _ & Hm').
    split.
    + rewrite Hm', length_insert. exact IHl.
    + intros m Hm Hpos. rewrite Hl in Hm.
      eapply add_register_mono; [exact Hadd|]. apply IH; assumption.
  - pose proof (add_memrange_stores c ty base len) as Hstored.
    revert Hdef Hstored. unfold add_memrange.
    set (c1 := {| regs_mask := regs_mask c;
                  listsize := listsize c;
                  list_ := list_ c ++ _ |}).
    assert (H1 : ∀ m, m ∈ list_ c → 0 < type m < 8 * sizeof_regs_mask →
                      reg_bit c1 (type m) = true).
    { intros m Hm Hpos. apply (IH m Hm Hpos). }
    destruct (_ >=? _); [intros Hdef; exfalso; eapply Hdef; reflexivity|].
    destruct (Z.eqb_spec ty 0) as [->|Hne]; simpl negb; cbv iota.
    + intros _ _. split; [exact IHl|]. intros m Hm Hpos.
      simpl in Hm. apply elem_of_app in Hm. destruct Hm as [Hm|Hm].
      * apply H1; assumption.
      * apply list_elem_of_singleton in Hm. subst m. simpl in Hpos. lia.
    + destruct (add_register_outcome c1 (to_ulong ty))
        as [[c' Hadd]|[[Hadd Hbig]|[what Hadd]]]; rewrite Hadd.
      * intros _ Hstored. simpl in Hstored.
        pose proof (add_register_inv _ _ _ Hadd)
          as (_ & _ & _ & byte & _ & Hm').
        split; [simpl; rewrite Hm', length_insert; exact IHl|].
        intros m Hm Hpos. simpl in Hm. rewrite Hstored in Hm.
        apply elem_of_app in Hm. destruct Hm as [Hm|Hm].
        -- eapply add_register_mono; [exact Hadd|]. apply H1; assumption.
        -- apply list_elem_of_singleton in Hm. subst m. simpl in *.
           rewrite to_ulong_small in Hadd by (unfold sizeof_regs_mask in *; lia).
           eapply add_register_sets. exact Hadd.
      * intros _ _. split; [exact IHl|].
        intros m Hm Hpos. simpl in Hm.
        apply elem_of_app in Hm. destruct Hm as [Hm|Hm].
        -- apply H1; assumption.
        -- apply list_elem_of_singleton in Hm. subst m. simpl in *.
           rewrite to_ulong_small in Hbig
             by (unfold sizeof_regs_mask in *; lia).
           lia.
      * intros Hdef. exfalso. eapply Hdef. reflexivity.
  - split; [rewrite memrange_sortmerge_regs_mask; exact IHl|].
    intros m Hm Hpos.
    destruct (memrange_sortmerge_types _ _ Hm) as (m0 & Hin & Ht).
    rewrite <- Ht in *.
    specialize (IH m0 Hin Hpos).
    unfold reg_bit in *. rewrite memrange_sortmerge_regs_mask. exact IH.
Qed.

(** C4.  In every collection list that clear, add_register, add_memrange
    and sort_merge calls leave, whether they return or raise the error of
    add_register, every memrange of a kind r with 0 < r < 64 has bit r of
    regs_mask set; a memrange of a kind above 64 has no bit in the
    bitmap. *)
Theorem reachable_base_register_collected (c : collection_list)
    (m : memrange) (r : Z) :
  reachable c → m ∈ list_ c → type m = r → r > 0 →
  (r < 8 * sizeof_regs_mask → reg_bit c r = true) ∧
  (8 * sizeof_regs_mask < r → reg_bit c r = false).
Proof.
  intros Hc Hm <- Hr. destruct (reachable_invariant c Hc) as [Hl Hinv].
  split.
  - intros Hlt. apply Hinv; [exact Hm | lia].
  - intros Hgt. unfold reg_bit.
    rewrite (lookup_ge_None_2 (regs_mask c)); [reflexivity|].
    rewrite Hl. unfold sizeof_regs_mask in *.
    assert (8 <= type m / 8) by (apply Z.div_le_lower_bound; lia).
    lia.
Qed.

End CollectionList.

(** ** Component E: the tracepoint registry *)

Ltac case_outcome H :=
  match type of H with
  | context [mbind _ ?m] =>
      let E := fresh "E" in
      destruct m eqn:E; cbn [mbind outcome_bind] in H; try discriminate H
  end.

Section Registry.
Context `{T : Target} `{Co : Collaborators}.

Lemma strongly_sorted_sublist {A} (R : relation A) (l1 l2 : list A) :
  l1 `sublist_of` l2 → StronglySorted R l2 → StronglySorted R l1.
Proof.
  induction 1 as [|x l1 l2 Hsub IH|x l1 l2 Hsub IH]; intros Hs.
  - constructor.
  - apply StronglySorted_cons in Hs. destruct Hs as [Hf Hs].
    apply StronglySorted_cons. split; [|auto].
    rewrite Forall_forall in *. intros y Hy. apply Hf.
    eapply elem_of_sublist; eassumption.
  - apply StronglySorted_cons in Hs. destruct Hs as [_ Hs]. auto.
Qed.

Lemma strongly_sorted_lookup {A} (R : relation A) (l : list A) :
  StronglySorted R l →
  ∀ (i j : nat) (x y : A),
    (i < j)%nat → l !! i = Some x → l !! j = Some y → R x y.
Proof.
  induction 1 as [|a l Hs IH Hf]; intros i j x y Hij Hi Hj.
  - discriminate.
  - destruct j as [|j]; [lia|]. destruct i as [|i]; simpl in *.
    + injection Hi as ->. rewrite Forall_forall in Hf. apply Hf.
      eapply list_elem_of_lookup_2. exact Hj.
    + eapply IH; [|exact Hi|exact Hj]. lia.
Qed.

Lemma registry_extends_refl (s : session) : registry_extends s s.
Proof. unfold registry_extends. auto with zarith. Qed.

Lemma registry_extends_trans (s1 s2 s3 : session) :
  registry_extends s1 s2 → registry_extends s2 s3 → registry_extends s1 s3.
Proof.
  intros (Hc1 & Hi1 & Hf1) (Hc2 & Hi2 & Hf2). split; [|split].
  - lia.
  - auto.
  - intros n Hn Hle. apply Hf1; [|exact Hle]. apply Hf2; [exact Hn | lia].
Qed.

Lemma registry_extends_sublist (s s' : session) :
  (number <$> tracepoint_chain s') `sublist_of` (number <$> tracepoint_chain s) →
  tracepoint_count s' = tracepoint_count s →
  registry_extends s s'.
Proof.
  intros Hsub Hc. split; [|split].
  - lia.
  - intros [Hs Hf]. split.
    + eapply strongly_sorted_sublist; eassumption.
    + rewrite Hc. rewrite Forall_forall in *. intros n Hn. apply Hf.
      eapply elem_of_sublist; eassumption.
  - intros n Hn _. eapply elem_of_sublist; eassumption.
Qed.

Lemma tracepoint_operation_extends (i : nat) (opcode : tracepoint_opcode)
    (s : session) :
  registry_extends s (tracepoint_operation i opcode s).
Proof.
  apply registry_extends_sublist; [|destruct opcode; reflexivity].
  destruct opcode; simpl.
  - rewrite (list_fmap_alter number _ id) by (apply Forall_true; reflexivity).
    rewrite list_alter_id by reflexivity. reflexivity.
  - rewrite (list_fmap_alter number _ id) by (apply Forall_true; reflexivity).
    rewrite list_alter_id by reflexivity. reflexivity.
  - rewrite list_fmap_delete. apply sublist_delete.
Qed.

Lemma all_tracepoints_operation_extends (n : nat) (opcode : tracepoint_opcode) :
  ∀ (k : nat) (s s' : session),
    all_tracepoints_operation n k opcode s = Returned s' →
    registry_extends s s'.
Proof.
  induction n as [|n IH]; intros k s s' H; cbn [all_tracepoints_operation] in H.
  - injection H as <-. apply registry_extends_refl.
  - eapply registry_extends_trans; [apply (tracepoint_operation_extends k opcode)|].
    destruct opcode; [eapply IH; exact H | eapply IH; exact H | discriminate].
Qed.

Lemma map_args_loop_extends (opcode : tracepoint_opcode) (fuel : nat) :
  ∀ (args : string) (s s' : session),
    map_args_loop fuel args opcode s = Returned s' → registry_extends s s'.
Proof.
  induction fuel as [|fuel IH]; intros args s s' H.
  - destruct args; simpl in H; [|discriminate].
    injection H as <-. apply registry_extends_refl.
  - destruct args as [|a args]; simpl in H.
    + injection H as <-. apply registry_extends_refl.
    + case_outcome H. destruct a0 as [t rest].
      destruct (_ <? _)%nat; [|discriminate].
      apply IH in H.
      eapply registry_extends_trans; [|exact H].
      destruct t; [apply tracepoint_operation_extends|apply registry_extends_refl].
Qed.

Lemma map_args_over_tracepoints_extends (args : option string)
    (opcode : tracepoint_opcode) (s s' : session) :
  map_args_over_tracepoints args opcode s = Returned s' →
  registry_extends s s'.
Proof.
  unfold map_args_over_tracepoints. intros H.
  destruct args as [[|a args]|].
  - eapply all_tracepoints_operation_extends. exact H.
  - eapply map_args_loop_extends. exact H.
  - eapply all_tracepoints_operation_extends. exact H.
Qed.

Lemma set_pass_counts_numbers (count : Z) (which : nat → bool)
    (l : list tracepoint) :
  number <$> imap (fun i t => if which i then set_pass_count t count else t) l
  = number <$> l.
Proof.
  apply list_eq. intros i.
  rewrite !list_lookup_fmap, list_lookup_imap.
  destruct (l !! i); simpl; [|reflexivity].
  destruct (which i); reflexivity.
Qed.

Lemma trace_pass_command_extends (args : option string) (s s' : session) :
  trace_pass_command args s = Returned s' → registry_extends s s'.
Proof.
  unfold trace_pass_command. intros H.
  destruct args as [[|a args]|]; try discriminate.
  destruct (strtoul _ _) as [count p].
  destruct (_ && _).
  - injection H as <-. apply registry_extends_sublist; [|reflexivity].
    pose proof (set_pass_counts_numbers count (fun _ => true)
                  (tracepoint_chain s)) as Hn.
    simpl in *. rewrite Hn. reflexivity.
  - case_outcome H. destruct a0 as [[i|] rest].
    + injection H as <-. apply registry_extends_sublist; [|reflexivity].
      pose proof (set_pass_counts_numbers count (fun j => bool_decide (j = i))
                    (tracepoint_chain s)) as Hn.
      simpl in *. rewrite Hn. reflexivity.
    + injection H as <-. apply registry_extends_refl.
Qed.

Lemma set_raw_tracepoint_chain (junk : nat → ascii) (sal : symtab_and_line)
    (s s' : session) :
  set_raw_tracepoint junk sal s = Returned s' →
  tracepoint_count s' = tracepoint_count s ∧
  ∃ t, tracepoint_chain s' = tracepoint_chain s ++ [t].
Proof.
  unfold set_raw_tracepoint. intros H. case_outcome H.
  injection H as <-. simpl. eauto.
Qed.

Lemma trace_command_loop_extends (junk : nat → nat → ascii) (addr : string)
    (canonical : list (option string)) (sals : list symtab_and_line) :
  ∀ (i : nat) (s s' : session),
    trace_command_loop junk addr canonical sals i s = Returned s' →
    registry_extends s s'.
Proof.
  induction sals as [|sal sals IH]; intros i s s' H; simpl in H.
  - injection H as <-. apply registry_extends_refl.
  - case_outcome H. rename a into s1.
    destruct (set_raw_tracepoint_chain _ _ _ _ E) as (Hc & t & Hch).
    destruct (Z.gtb_spec (tracepoint_count s1 + 1) INT_MAX); [discriminate|].
    apply IH in H. eapply registry_extends_trans; [|exact H].
    unfold registry_extends, registry_invariant. simpl.
    rewrite Hch, length_app. simpl.
    replace (length (tracepoint_chain s) + 1 - 1)%nat
      with (length (tracepoint_chain s) + 0)%nat by lia.
    rewrite alter_app_r. simpl. rewrite fmap_app. simpl. rewrite Hc.
    split; [|split].
    + lia.
    + intros [Hs Hf]. split.
      * apply StronglySorted_app. split; [|split].
        -- intros x1 x2 H1 H2. apply list_elem_of_singleton in H2. subst x2.
           rewrite Forall_forall in Hf. specialize (Hf _ H1). lia.
        -- exact Hs.
        -- repeat constructor.
      * apply Forall_app. split.
        -- eapply Forall_impl; [exact Hf|]. intros; simpl in *; lia.
        -- repeat constructor. lia.
    + intros n Hn Hle. apply elem_of_app in Hn. destruct Hn as [Hn|Hn].
      * exact Hn.
      * apply list_elem_of_singleton in Hn. lia.
Qed.

Lemma trace_command_extends (junk : nat → nat → ascii) (arg : option string)
    (s s' : session) :
  trace_command junk arg s = Returned s' → registry_extends s s'.
Proof.
  unfold trace_command. intros H.
  destruct arg as [[|a arg]|]; try discriminate.
  destruct (Ascii.eqb _ _).
  - injection H as <-. apply registry_extends_refl.
  - case_outcome H. destruct a0 as [[sals canonical] used].
    eapply trace_command_loop_extends. exact H.
Qed.

Lemma registry_step_extends (s s' : session) :
  registry_step s s' → registry_extends s s'.
Proof.
  destruct 1 as [junk arg s s' H|args s s' H|args s s' H
                |args answer s s' H|args s s' H].
  - eapply trace_command_extends. exact H.
  - eapply map_args_over_tracepoints_extends. exact H.
  - eapply map_args_over_tracepoints_extends. exact H.
  - unfold delete_trace_command in H.
    destruct args as [[|a args]|].
    + destruct answer.
      * apply (map_args_over_tracepoints_extends (Some "") delete_op).
        exact H.
      * injection H as <-. apply registry_extends_refl.
    + eapply map_args_over_tracepoints_extends. exact H.
    + destruct answer.
      * apply (map_args_over_tracepoints_extends None delete_op). exact H.
      * injection H as <-. apply registry_extends_refl.
  - eapply trace_pass_command_extends. exact H.
Qed.

Lemma registry_reachable_invariant (s : session) :
  registry_reachable s → registry_invariant s.
Proof.
  induction 1 as [remote vars|s s' _ IH Hstep].
  - split; constructor.
  - apply registry_step_extends in Hstep. destruct Hstep as (_ & Hi & _).
    auto.
Qed.

(** C7.  After any sequence of create, enable, disable, delete and
    passcount operations, a tracepoint that precedes another in the chain
    has the smaller number and no number is above tracepoint_count; and
    one more operation never lowers tracepoint_count and gives no number
    that the count had already covered to a tracepoint that did not have
    it, so that numbers are not reused. *)
Theorem registry_numbers_increase (s s' : session) :
  registry_reachable s →
  chain_increasing s ∧
  count_bounds_numbers s ∧
  (registry_step s s' →
   tracepoint_count s <= tracepoint_count s' ∧
   ∀ t', t' ∈ tracepoint_chain s' → number t' <= tracepoint_count s →
         ∃ t, t ∈ tracepoint_chain s ∧ number t = number t').
Proof.
  intros Hr. destruct (registry_reachable_invariant s Hr) as [Hs Hf].
  split; [|split; [|intros H; split]].
  - intros i j a b Hij Ha Hb.
    apply (strongly_sorted_lookup Z.lt _ Hs i j); [exact Hij| |];
      rewrite list_lookup_fmap; [rewrite Ha|rewrite Hb]; reflexivity.
  - intros t Ht. rewrite Forall_forall in Hf. apply Hf.
    apply list_elem_of_fmap. eauto.
  - apply registry_step_extends in H. destruct H as (Hc & _ & _). exact Hc.
  - intros t' Ht' Hle.
    apply registry_step_extends in H. destruct H as (_ & _ & Hfresh).
    assert (Hn : number t' ∈ number <$> tracepoint_chain s).
    { apply Hfresh; [|exact Hle]. apply list_elem_of_fmap. eauto. }
    apply list_elem_of_fmap in Hn. destruct Hn as (t & Heq & Hin). eauto.
Qed.

End Registry.

(** ** The source file name of a new tracepoint *)

Section SourceFile.

Lemma buf_strlen_le (b : list ascii) : (buf_strlen b <= length b)%nat.
Proof.
  induction b as [|c b IH]; simpl; [lia|].
  destruct (Ascii.eqb c NUL); lia.
Qed.

Lemma buf_strlen_app (d r : list ascii) :
  buf_strlen d = length d → buf_strlen (d ++ NUL :: r) = length d.
Proof.
  induction d as [|c d IH]; simpl.
  - reflexivity.
  - destruct (Ascii.eqb c NUL); [discriminate|].
    intros [= H]. rewrite IH by exact H. reflexivity.
Qed.

Lemma length_list_ascii_of_string (s : string) :
  length (list_ascii_of_string s) = String.length s.
Proof. induction s as [|c s IH]; simpl; [reflexivity | rewrite IH; reflexivity]. Qed.

Lemma string_of_list_ascii_app (l1 l2 : list ascii) :
  string_of_list_ascii (l1 ++ l2) =
  string_of_list_ascii l1 +:+ string_of_list_ascii l2.
Proof. induction l1 as [|c l1 IH]; simpl; [reflexivity | rewrite IH; reflexivity]. Qed.

Lemma append_assoc (a b c : string) : a +:+ (b +:+ c) = (a +:+ b) +:+ c.
Proof.
  induction a as [|x a IH]; [reflexivity|].
  change (String x (a +:+ (b +:+ c)) = String x ((a +:+ b) +:+ c)).
  f_equal. exact IH.
Qed.

Lemma strlen_append (a b : string) : strlen (a +:+ b) = strlen a + strlen b.
Proof.
  unfold strlen. induction a as [|x a IH].
  - change ("" +:+ b) with b. simpl String.length. lia.
  - change (String x a +:+ b) with (String x (a +:+ b)).
    cbn [String.length]. lia.
Qed.

(** A string that is a C string: it holds no NUL. *)
Lemma c_string_chars (s : string) :
  c_strlen s = String.length s →
  c_chars s = list_ascii_of_string s ∧
  buf_strlen (list_ascii_of_string s) = length (list_ascii_of_string s).
Proof.
  unfold c_strlen, c_chars. rewrite length_take, <- length_list_ascii_of_string.
  pose proof (buf_strlen_le (list_ascii_of_string s)).
  intros Hlen.
  assert (Heq : buf_strlen (list_ascii_of_string s)
                = length (list_ascii_of_string s)) by lia.
  rewrite Heq, firstn_all. split; reflexivity.
Qed.

Lemma buf_string_app (d r : list ascii) :
  buf_strlen d = length d →
  buf_string (d ++ NUL :: r) = string_of_list_ascii d.
Proof.
  intros Hd. unfold buf_string. rewrite buf_strlen_app by exact Hd.
  rewrite take_app_length. reflexivity.
Qed.

(** The new block after strcpy (t->source_file, dirname): the directory
    name, its terminator, and the bytes that xmalloc left there. *)
Lemma strcpy_xmalloc (junk : nat → ascii) (dir : string) (k : nat) :
  c_strlen dir = String.length dir →
  strcpy (xmalloc (k + String.length dir + 2) junk) dir =
  list_ascii_of_string dir ++
  NUL :: junk (S (String.length dir))
      :: (junk <$> seq (S (S (String.length dir))) k).
Proof.
  intros Hdir. destruct (c_string_chars dir Hdir) as [Hd _].
  unfold strcpy, buf_write, xmalloc. rewrite Hd.
  rewrite <- length_list_ascii_of_string.
  set (d := list_ascii_of_string dir).
  rewrite length_app. simpl length. rewrite take_0. simpl app at 1.
  rewrite <- fmap_drop, drop_seq, <- app_assoc. f_equal. simpl app.
  replace (k + length d + 2 - (length d + 1))%nat with (S k) by lia.
  replace (length d + 1)%nat with (S (length d)) by lia.
  reflexivity.
Qed.

Lemma buf_strlen_app_full (l1 l2 : list ascii) :
  buf_strlen l1 = length l1 → buf_strlen l2 = length l2 →
  buf_strlen (l1 ++ l2) = length (l1 ++ l2).
Proof.
  intros H1 H2. induction l1 as [|c l1 IH]; simpl in *.
  - exact H2.
  - destruct (Ascii.eqb c NUL); [discriminate|].
    injection H1 as H1. rewrite IH by exact H1. reflexivity.
Qed.

(** strcat onto a block that holds the C string [d] and has room for
    [src]. *)
Lemma strcat_buf (d r : list ascii) (src : string) :
  buf_strlen d = length d →
  c_strlen src = String.length src →
  strcat (d ++ NUL :: r) src =
  (d ++ list_ascii_of_string src) ++
  NUL :: drop (String.length src) r.
Proof.
  intros Hd Hsrc. destruct (c_string_chars src Hsrc) as [Hs _].
  unfold strcat, buf_write. rewrite buf_strlen_app by exact Hd.
  rewrite take_app_length, Hs, <- !app_assoc. do 2 f_equal. simpl app. f_equal.
  rewrite length_app, length_list_ascii_of_string. simpl length.
  rewrite drop_app_ge by lia.
  replace (length d + (String.length src + 1) - length d)%nat
    with (S (String.length src)) by lia.
  reflexivity.
Qed.

(** C9.  The name that set_raw_tracepoint stores for a symtab with
    directory [dir] and file [file]: the two are joined by a '/' unless the
    byte that follows the terminator of the copied directory name, a byte
    of the new block that nothing has written yet, happens to be '/'.  The
    last character of [dir] plays no part. *)
Theorem make_source_file_separator (junk : nat → ascii) (dir file : string) :
  c_strlen dir = String.length dir →
  c_strlen file = String.length file →
  make_source_file junk (mk_symtab (Some file) (Some dir)) =
  Returned (dir +:+
            (if Ascii.eqb (junk (S (String.length dir))) "/" then "" else "/")
            +:+ file).
Proof.
  intros Hdir Hfile.
  destruct (c_string_chars dir Hdir) as [_ Hdl].
  destruct (c_string_chars file Hfile) as [_ Hfl].
  unfold make_source_file. cbn [filename dirname]. cbv beta iota zeta.
  rewrite Hdir, Hfile, strcpy_xmalloc by exact Hdir.
  rewrite buf_strlen_app by exact Hdl.
  rewrite lookup_app_r by (rewrite length_list_ascii_of_string; lia).
  rewrite length_list_ascii_of_string.
  replace (S (String.length dir) - String.length dir)%nat with 1%nat by lia.
  cbn [lookup list_lookup].
  assert (Hdir_str : string_of_list_ascii (list_ascii_of_string dir) = dir)
    by apply string_of_list_ascii_of_string.
  assert (Hfile_str : string_of_list_ascii (list_ascii_of_string file) = file)
    by apply string_of_list_ascii_of_string.
  destruct (Ascii.eqb (junk (S (String.length dir))) "/"); cbn [negb].
  - rewrite strcat_buf by assumption.
    rewrite buf_string_app by (apply buf_strlen_app_full; assumption).
    rewrite string_of_list_ascii_app, Hdir_str, Hfile_str. reflexivity.
  - rewrite (strcat_buf _ _ "/") by (assumption || reflexivity).
    rewrite strcat_buf;
      [|apply buf_strlen_app_full; [assumption|reflexivity]|assumption].
    rewrite buf_string_app
      by (repeat apply buf_strlen_app_full; (assumption || reflexivity)).
    rewrite !string_of_list_ascii_app, Hdir_str, Hfile_str.
    apply f_equal. symmetry. apply append_assoc.
Qed.

End SourceFile.

(** ** Component C: the action validator *)

Section Validator.
Context `{T : Target} `{Co : Collaborators}.

Lemma LONG_MAX_nonneg : 0 <= LONG_MAX.
Proof.
  unfold LONG_MAX.
  assert (0 < 2 ^ (Z.pos long_bits - 1)) by (apply Z.pow_pos_nonneg; lia).
  lia.
Qed.

Lemma strtol_zero : strtol "0" 0 = (0, "").
Proof.
  unfold strtol. change (strto_scan "0" 0) with (false, 0, "").
  cbv beta iota zeta.
  pose proof LONG_MAX_nonneg.
  destruct (Z.gtb_spec 0 LONG_MAX); [lia|].
  destruct (Z.ltb_spec 0 LONG_MIN); [unfold LONG_MIN, LONG_MAX in *; lia|].
  reflexivity.
Qed.

(** What a line judged BADLINE can have done to the tracepoint: nothing, or
    the store of a zero step count. *)
Lemma validate_actionline_badline (line : string) (t t' : tracepoint) :
  validate_actionline line t = Returned (BADLINE, t') →
  t' = t ∨ t' = set_step_count t 0.
Proof.
  unfold validate_actionline.
  destruct (char_is (skip_spaces line) NUL).
  { intros [= <-]. left. reflexivity. }
  destruct (strncasecmp_eq (skip_spaces line) "collect" 7).
  { intros H. case_outcome H. injection H as _ <-. left. reflexivity. }
  destruct (strncasecmp_eq (skip_spaces line) "while-stepping" 14).
  { destruct (negb _).
    - destruct (_ =? 0) eqn:Hz; [|discriminate].
      cbn [step_count set_step_count] in Hz. apply Z.eqb_eq in Hz.
      intros H. right. rewrite Hz in H. congruence.
    - discriminate. }
  destruct (strncasecmp_eq (skip_spaces line) "end" 3); [discriminate|].
  intros [= <-]. left. reflexivity.
Qed.

(** C8.  The line "while-stepping 0" is judged BADLINE, and by then
    validate_actionline has stored the 0 in the step_count of the
    tracepoint being edited: the registry is changed whenever that
    tracepoint had another step count. *)
Theorem validate_actionline_zero_steps (s : session) (i : nat)
    (t : tracepoint) :
  tracepoint_chain s !! i = Some t →
  validate_actionline_at "while-stepping 0" i s =
    Returned (BADLINE,
              with_tracepoint_chain s
                (<[i := set_step_count t 0]> (tracepoint_chain s))) ∧
  (step_count t ≠ 0 →
   <[i := set_step_count t 0]> (tracepoint_chain s) ≠ tracepoint_chain s).
Proof.
  intros Ht. split.
  - unfold validate_actionline_at. rewrite Ht.
    unfold validate_actionline.
    change (skip_spaces "while-stepping 0") with "while-stepping 0".
    change (char_is "while-stepping 0" NUL) with false.
    change (strncasecmp_eq "while-stepping 0" "collect" 7) with false.
    change (strncasecmp_eq "while-stepping 0" "while-stepping" 14) with true.
    change (skip_spaces (advance 14 "while-stepping 0")) with "0".
    change (char_is "0" NUL) with false.
    cbv beta iota zeta. cbn [negb].
    rewrite strtol_zero. reflexivity.
  - intros Hne Heq.
    assert (Hl : <[i:=set_step_count t 0]> (tracepoint_chain s) !! i
                 = Some (set_step_count t 0)).
    { apply list_lookup_insert_eq. eapply lookup_lt_Some. exact Ht. }
    rewrite Heq, Ht in Hl. injection Hl as Hl.
    apply Hne. rewrite Hl. reflexivity.
Qed.

End Validator.

(** ** Component F: the protocol engine *)

Ltac unfold_command H :=
  unfold putpkt in H;
  unfold mbind, command_bind, modify, error, mret, command_ret, lift, get in H;
  cbv beta iota in H.

Section Protocol.
Context `{T : Target} `{Co : Collaborators}.

(** Waiting for a reply touches neither the registry nor the packets
    sent. *)
Lemma noisy_reply_loop_keeps (pending : list string) :
  ∀ (s s' : session) (r : outcome string),
    noisy_reply_loop pending s = (s', r) →
    tracepoint_chain s' = tracepoint_chain s ∧ sent s' = sent s.
Proof.
  induction pending as [|buf pending IH]; intros s s' r H.
  - injection H as <- _. split; reflexivity.
  - cbn [noisy_reply_loop] in H. unfold_command H.
    destruct (char_is buf NUL); [injection H as <- _; split; reflexivity|].
    destruct (char_is buf "E").
    { destruct (trace_error buf).
      - injection H as <- _. split; reflexivity.
      - apply IH in H. exact H. }
    destruct (char_is buf "R").
    { destruct (trace_receive_regs buf);
        try (injection H as <- _; split; reflexivity).
      apply IH in H. exact H. }
    destruct (_ && _).
    + apply IH in H. exact H.
    + injection H as <- _. split; reflexivity.
Qed.

Lemma remote_get_noisy_reply_keeps (s s' : session) (r : outcome string) :
  remote_get_noisy_reply s = (s', r) →
  tracepoint_chain s' = tracepoint_chain s ∧ sent s' = sent s.
Proof. apply noisy_reply_loop_keeps. Qed.

(** One turn of the loop of tstart leaves the registry alone and sends at
    most the packet of its tracepoint. *)
Lemma send_tracepoint_keeps (t : tracepoint) (s s' : session)
    (r : outcome unit) :
  send_tracepoint t s = (s', r) →
  tracepoint_chain s' = tracepoint_chain s ∧
  (sent s' = sent s ∨
   ∃ buf, qtdp_packet t = Returned buf ∧ sent s' = sent s ++ [buf]).
Proof.
  unfold send_tracepoint. intros H. unfold_command H.
  destruct (qtdp_packet t) as [buf| | |];
    try (injection H as <- _; split; [reflexivity | left; reflexivity]).
  destruct (remote_get_noisy_reply _) as [s1 r1] eqn:E.
  apply remote_get_noisy_reply_keeps in E. destruct E as [Hc Hs].
  simpl in Hc, Hs.
  assert (s' = s1) as ->.
  { destruct r1; try (injection H as <- _; reflexivity).
    destruct (bool_decide _); injection H as <- _; reflexivity. }
  split; [exact Hc | right; eauto].
Qed.

Lemma qtdp_header_length (t : tracepoint) : strlen (qtdp_header t) <= 42.
Proof.
  assert (Hx : ∀ fuel v, strlen (hex_digits lower_hex_digit fuel v)
                         <= Z.of_nat fuel).
  { induction fuel as [|fuel IH]; intros v; simpl hex_digits.
    - unfold strlen. simpl. lia.
    - destruct (v <? 16).
      + unfold strlen. simpl. lia.
      + rewrite strlen_append. specialize (IH (v / 16)).
        unfold strlen at 2. simpl String.length. lia. }
  unfold qtdp_header, sprintf_x. rewrite !strlen_append.
  pose proof (Hx 8%nat (wrap_unsigned int_bits (number t))).
  pose proof (Hx 8%nat (wrap_unsigned int_bits (address t))).
  pose proof (Hx 8%nat (wrap_unsigned int_bits (step_count t))).
  pose proof (Hx 8%nat (wrap_unsigned int_bits (pass_count t))).
  assert (strlen (match tp_enabled t with enabled => "E" | disabled => "D" end) = 1)
    by (destruct (tp_enabled t); reflexivity).
  change (strlen "QTDP:") with 5. change (strlen ":") with 1.
  lia.
Qed.

Lemma qtdp_header_short (t : tracepoint) : strlen (qtdp_header t) < sizeof_buf.
Proof. pose proof (qtdp_header_length t). unfold sizeof_buf. lia. Qed.

Lemma stringify_nothing :
  stringify_collection_list
    (memrange_sortmerge (clear_collection_list initial_collection_list))
  = None.
Proof. reflexivity. Qed.

Lemma encode_actions_no_actions (t : tracepoint) :
  actions t = [] → encode_actions t = Returned (None, None).
Proof. unfold encode_actions. intros ->. reflexivity. Qed.

(** A packet that would fill the buffer is refused, unless the 'S' that
    comes before the second test is itself written past the end. *)
Lemma qtdp_packet_too_complex (t : tracepoint)
    (tdp_actions stepping_actions : option string) :
  encode_actions t = Returned (tdp_actions, stepping_actions) →
  sizeof_buf <= strlen (qtdp_text t tdp_actions stepping_actions) →
  (is_Some stepping_actions →
   strlen (qtdp_header t) + strlen (default "" tdp_actions)
     ≠ sizeof_buf - 1) →
  qtdp_packet t = Raised (err_actions_too_complex (number t)).
Proof.
  intros Henc Hlen Hs. pose proof (qtdp_header_length t) as Hh.
  unfold qtdp_text in Hlen. rewrite !strlen_append in Hlen.
  unfold qtdp_packet.
  destruct (actions t) eqn:Ha.
  - rewrite encode_actions_no_actions in Henc by exact Ha.
    injection Henc as <- <-. simpl in Hlen. unfold strlen at 2 3 in Hlen.
    simpl in Hlen. unfold sizeof_buf in Hlen. lia.
  - rewrite Henc. cbn [mbind outcome_bind]. cbv beta iota.
    destruct tdp_actions as [a|]; cbn [default from_option] in Hlen, Hs;
      unfold id in Hlen, Hs.
    + destruct (Z.geb_spec (strlen (qtdp_header t) + strlen a) sizeof_buf)
        as [Hge|Hlt]; [reflexivity|].
      cbn [mbind outcome_bind].
      destruct stepping_actions as [b|].
      * specialize (Hs (mk_is_Some _ _ eq_refl)).
        rewrite !strlen_append in *.
        destruct (Z.geb_spec (strlen (qtdp_header t) + strlen a + 1)
                             sizeof_buf); [lia|].
        destruct (Z.geb_spec (strlen (qtdp_header t) + strlen a + strlen "S"
                              + strlen b) sizeof_buf); [reflexivity|lia].
      * change (strlen "") with 0 in Hlen. lia.
    + cbn [mbind outcome_bind].
      change (strlen "") with 0 in Hlen.
      destruct stepping_actions as [b|].
      * rewrite !strlen_append in *.
        destruct (Z.geb_spec (strlen (qtdp_header t) + 1) sizeof_buf);
          [unfold sizeof_buf in *; lia|].
        destruct (Z.geb_spec (strlen (qtdp_header t) + strlen "S" + strlen b)
                             sizeof_buf); [reflexivity|lia].
      * change (strlen "") with 0 in Hlen. unfold sizeof_buf in Hlen. lia.
Qed.

(** The text of a collection list that does not fit its character array
    is written all the same, before any test of a length. *)
Lemma qtdp_packet_overruns_tdp_buff (t : tracepoint)
    (tracepoint_list stepping_list : collection_list) (text : string) :
  encode_actions_loop (actions t) (address t)
    (clear_collection_list initial_collection_list)
    (clear_collection_list initial_collection_list) false
    = Returned (tracepoint_list, stepping_list) →
  stringify_collection_list (memrange_sortmerge tracepoint_list) = Some text →
  sizeof_tdp_buff <= strlen text →
  qtdp_packet t = Undefined "sprintf past the end of the character array".
Proof.
  intros Hloop Htext Hlen.
  assert (Henc : encode_actions t =
                 Undefined "sprintf past the end of the character array").
  { unfold encode_actions. rewrite Hloop. cbn [mbind outcome_bind].
    cbv beta iota zeta. unfold stringify_into. rewrite Htext.
    destruct (Z.geb_spec (strlen text) sizeof_tdp_buff); [reflexivity|lia]. }
  unfold qtdp_packet. destruct (actions t) eqn:Ha.
  - cbn [encode_actions_loop] in Hloop. injection Hloop as <- _.
    rewrite stringify_nothing in Htext. discriminate Htext.
  - rewrite Henc. reflexivity.
Qed.

(** The 'S' of the stepping actions is written before the second test:
    when the header and the tdp actions take all but the last byte, its
    terminator goes past the end of buf. *)
Lemma qtdp_packet_overruns_buf (t : tracepoint) (a b : string) :
  encode_actions t = Returned (Some a, Some b) →
  strlen (qtdp_header t) + strlen a = sizeof_buf - 1 →
  qtdp_packet t = Undefined "strcat (buf, S) past the end of buf".
Proof.
  intros Henc Hlen. unfold qtdp_packet. destruct (actions t) eqn:Ha.
  - rewrite encode_actions_no_actions in Henc by exact Ha. discriminate Henc.
  - rewrite Henc. cbn [mbind outcome_bind]. cbv beta iota.
    destruct (Z.geb_spec (strlen (qtdp_header t) + strlen a) sizeof_buf);
      [lia|].
    cbn [mbind outcome_bind]. rewrite strlen_append.
    destruct (Z.geb_spec (strlen (qtdp_header t) + strlen a + 1) sizeof_buf);
      [reflexivity|lia].
Qed.

Lemma send_tracepoints_app (pre : list tracepoint) :
  ∀ (rest : list tracepoint) (s s1 : session),
    send_tracepoints pre s = (s1, Returned tt) →
    send_tracepoints (pre ++ rest) s = send_tracepoints rest s1.
Proof.
  induction pre as [|t0 pre IH]; intros rest s s1 H.
  - injection H as <-. reflexivity.
  - cbn [send_tracepoints app] in *.
    unfold mbind, command_bind in *.
    destruct (send_tracepoint t0 s) as [s0 [[]| | |]]; try discriminate.
    apply IH. exact H.
Qed.

(** The loop of tstart stops at a tracepoint whose packet is refused:
    it does not return, the registry is as it was, and the only packets
    sent are those of tracepoints before it in the chain. *)
Lemma send_tracepoints_blocked (t : tracepoint) (post : list tracepoint)
    (e : gdb_error) :
  qtdp_packet t = Raised e →
  ∀ (pre : list tracepoint) (s s' : session) (r : outcome unit),
    send_tracepoints (pre ++ t :: post) s = (s', r) →
    r ≠ Returned tt ∧
    tracepoint_chain s' = tracepoint_chain s ∧
    ∀ p, p ∈ sent s' →
         p ∈ sent s ∨ ∃ t0, t0 ∈ pre ∧ qtdp_packet t0 = Returned p.
Proof.
  intros Hq. induction pre as [|t0 pre IH]; intros s s' r H.
  - cbn [send_tracepoints app] in H. unfold send_tracepoint in H.
    rewrite Hq in H. unfold_command H. injection H as <- <-.
    split; [discriminate|]. split; [reflexivity|]. intros p Hp. left. exact Hp.
  - cbn [send_tracepoints app] in H. unfold mbind, command_bind in H.
    destruct (send_tracepoint t0 s) as [s0 r0] eqn:E0.
    apply send_tracepoint_keeps in E0. destruct E0 as [Hc Hs].
    assert (Hsent : ∀ p, p ∈ sent s0 →
              p ∈ sent s ∨ ∃ t1, t1 ∈ t0 :: pre ∧ qtdp_packet t1 = Returned p).
    { intros p Hp. destruct Hs as [Hs|(buf & Hbuf & Hs)]; rewrite Hs in Hp.
      - left. exact Hp.
      - apply elem_of_app in Hp. destruct Hp as [Hp|Hp]; [left; exact Hp|].
        apply list_elem_of_singleton in Hp. subst p.
        right. exists t0. split; [apply list_elem_of_here | exact Hbuf]. }
    destruct r0 as [[]| | |];
      try (injection H as <- <-; split; [discriminate|];
           split; [exact Hc | exact Hsent]).
    apply IH in H. destruct H as (Hr & Hc' & Hs').
    split; [exact Hr|]. split; [congruence|].
    intros p Hp. destruct (Hs' p Hp) as [Hp0|(t1 & Hin & Hq1)].
    + apply Hsent. exact Hp0.
    + right. exists t1. split; [apply list_elem_of_further; exact Hin | exact Hq1].
Qed.

(** C6.  When the QTDP text of a tracepoint (header, tdp actions, and "S"
    with the stepping actions) would be as long as the packet buffer or
    longer, and the texts that make it have fitted the character arrays
    they are written to before any length is tested, its turn in the loop
    of tstart raises "Actions for tracepoint too complex" and leaves the
    session as it found it: nothing is sent for it.  The tstart command
    then fails, the tracepoint chain is what it was, and the packets sent
    are QTinit and packets of tracepoints that come before it in the
    chain.  The texts are written first and measured afterwards: a tdp
    text of 2048 characters or more has overrun tdp_buff, and an 'S'
    after 2047 characters has overrun buf, by the time a test is made, and
    no "too complex" error is raised for them. *)
Theorem tstart_actions_too_complex (t : tracepoint)
    (tdp_actions stepping_actions : option string)
    (pre post : list tracepoint) (s s1 s' : session) (r : outcome unit) :
  (encode_actions t = Returned (tdp_actions, stepping_actions) →
   sizeof_buf <= strlen (qtdp_text t tdp_actions stepping_actions) →
   (is_Some stepping_actions →
    strlen (qtdp_header t) + strlen (default "" tdp_actions)
      ≠ sizeof_buf - 1) →
   send_tracepoint t s = (s, Raised (err_actions_too_complex (number t))) ∧
   (send_tracepoints pre s = (s1, Returned tt) →
    send_tracepoints (pre ++ t :: post) s =
      (s1, Raised (err_actions_too_complex (number t)))) ∧
   (target_remote s = true →
    tracepoint_chain s = pre ++ t :: post →
    trace_start_command s = (s', r) →
    r ≠ Returned tt ∧
    tracepoint_chain s' = tracepoint_chain s ∧
    ∀ p, p ∈ sent s' →
         p ∈ sent s ∨ p = "QTinit" ∨
         ∃ t0, t0 ∈ pre ∧ qtdp_packet t0 = Returned p)) ∧
  (∀ tracepoint_list stepping_list text,
     encode_actions_loop (actions t) (address t)
       (clear_collection_list initial_collection_list)
       (clear_collection_list initial_collection_list) false
       = Returned (tracepoint_list, stepping_list) →
     stringify_collection_list (memrange_sortmerge tracepoint_list)
       = Some text →
     sizeof_tdp_buff <= strlen text →
     send_tracepoint t s =
       (s, Undefined "sprintf past the end of the character array")) ∧
  (∀ a b,
     encode_actions t = Returned (Some a, Some b) →
     strlen (qtdp_header t) + strlen a = sizeof_buf - 1 →
     send_tracepoint t s = (s, Undefined "strcat (buf, S) past the end of buf")).
Proof.
  split; [|split].
  2: { intros tl sl text Hloop Htext Hlen. unfold send_tracepoint.
       rewrite (qtdp_packet_overruns_tdp_buff _ _ _ _ Hloop Htext Hlen).
       reflexivity. }
  2: { intros a b Henc Hlen. unfold send_tracepoint.
       rewrite (qtdp_packet_overruns_buf _ _ _ Henc Hlen). reflexivity. }
  intros Henc Hlen Hfit.
  pose proof (qtdp_packet_too_complex _ _ _ Henc Hlen Hfit) as Hq.
  assert (Hone : ∀ s0, send_tracepoint t s0 =
                       (s0, Raised (err_actions_too_complex (number t)))).
  { intros s0. unfold send_tracepoint. rewrite Hq. reflexivity. }
  split; [apply Hone|]. split.
  - intros Hpre. rewrite (send_tracepoints_app _ _ _ _ Hpre).
    cbn [send_tracepoints]. unfold mbind, command_bind. rewrite Hone.
    reflexivity.
  - intros Hremote Hchain H. unfold trace_start_command in H.
    unfold_command H. rewrite Hremote in H. unfold_command H.
    destruct (remote_get_noisy_reply _) as [s2 r2] eqn:E2.
    apply remote_get_noisy_reply_keeps in E2. simpl in E2.
    destruct E2 as [Hc2 Hs2].
    assert (Hsent2 : ∀ p, p ∈ sent s2 → p ∈ sent s ∨ p = "QTinit").
    { intros p Hp. rewrite Hs2 in Hp. apply elem_of_app in Hp.
      destruct Hp as [Hp|Hp]; [left; exact Hp|].
      apply list_elem_of_singleton in Hp. right. exact Hp. }
    assert (Hstop : ∀ r0, r0 ≠ Returned tt → (s', r) = (s2, r0) →
              r ≠ Returned tt ∧ tracepoint_chain s' = tracepoint_chain s ∧
              ∀ p, p ∈ sent s' → p ∈ sent s ∨ p = "QTinit" ∨
                   ∃ t0, t0 ∈ pre ∧ qtdp_packet t0 = Returned p).
    { intros r0 Hr0 [= -> ->]. split; [exact Hr0|]. split; [exact Hc2|].
      intros p Hp. destruct (Hsent2 p Hp); auto. }
    destruct r2 as [reply| | |];
      try (symmetry in H; eapply Hstop; [|exact H]; discriminate).
    destruct (bool_decide (reply = "OK")); cbn [negb] in H;
      [|symmetry in H; eapply Hstop; [|exact H]; discriminate].
    rewrite Hchain in H.
    destruct (send_tracepoints (pre ++ t :: post) s2) as [s3 r3] eqn:E3.
    destruct (send_tracepoints_blocked _ _ _ Hq _ _ _ _ E3)
      as (Hr3 & Hc3 & Hs3).
    assert (Hres : (s', r) = (s3, r3)).
    { destruct r3 as [[]| | |]; [contradiction| | |]; symmetry; exact H. }
    injection Hres as -> ->.
    split; [exact Hr3|]. split; [congruence|].
    intros p Hp. destruct (Hs3 p Hp) as [Hp2|Hex].
    + destruct (Hsent2 p Hp2); auto.
    + auto.
Qed.

(** ** Component G: the trace-frame cursor *)

(** The convenience variables after set_traceframe_context: they depend
    on the pc alone. *)
Lemma set_traceframe_context_vars (pc : Z) (s : session) :
  let s' := set_traceframe_context pc s in
  (pc = minus_one_addr → trace_context_cleared s') ∧
  (pc ≠ minus_one_addr →
   internalvars s' !! "trace_line" = Some (VInt (sal_line (find_pc_line pc))) ∧
   internalvars s' !! "trace_func" =
     Some (match find_pc_function pc with
           | Some f => match SYMBOL_NAME f with
                       | Some name => VString name
                       | None => VNull
                       end
           | None => VNull
           end) ∧
   internalvars s' !! "trace_file" =
     Some (match sal_symtab (find_pc_line pc) with
           | Some st => match filename st with
                        | Some name => VString name
                        | None => VNull
                        end
           | None => VNull
           end)).
Proof.
  unfold set_traceframe_context. split.
  - intros ->. rewrite Z.eqb_refl.
    unfold trace_context_cleared, set_internalvar. simpl. repeat split.
    + rewrite lookup_insert_ne by discriminate.
      rewrite lookup_insert_ne by discriminate.
      apply lookup_insert_eq.
    + rewrite lookup_insert_ne by discriminate. apply lookup_insert_eq.
    + apply lookup_insert_eq.
  - intros Hne. destruct (Z.eqb_spec pc minus_one_addr); [contradiction|].
    unfold set_internalvar. simpl. repeat split.
    + rewrite lookup_insert_ne by discriminate.
      rewrite lookup_insert_ne by discriminate.
      apply lookup_insert_eq.
    + rewrite lookup_insert_ne by discriminate. apply lookup_insert_eq.
    + apply lookup_insert_eq.
Qed.

Lemma set_traceframe_context_numbers (pc : Z) (s : session) :
  traceframe_number (set_traceframe_context pc s) = traceframe_number s ∧
  tracepoint_number (set_traceframe_context pc s) = tracepoint_number s.
Proof.
  unfold set_traceframe_context.
  destruct (pc =? minus_one_addr); split; reflexivity.
Qed.

(** The three calls that end trace debugging. *)
Lemma end_of_trace_state (s : session) :
  let s' := set_traceframe_context end_of_trace_pc
              (set_tracepoint_num (-1) (set_traceframe_num (-1) s)) in
  traceframe_number s' = -1 ∧
  (end_of_trace_pc = minus_one_addr → trace_context_cleared s').
Proof.
  cbv zeta.
  destruct (set_traceframe_context_numbers end_of_trace_pc
              (set_tracepoint_num (-1) (set_traceframe_num (-1) s)))
    as [-> _].
  split; [reflexivity|].
  apply (set_traceframe_context_vars end_of_trace_pc
           (set_tracepoint_num (-1) (set_traceframe_num (-1) s))).
Qed.

Lemma end_of_trace_pc_same_width :
  Z.pos vma_bits = int_bits → end_of_trace_pc = minus_one_addr.
Proof.
  intros Hw. unfold end_of_trace_pc, minus_one_addr, to_vma.
  rewrite (core_addr_of_int_argument_same_width Hw), Hw. reflexivity.
Qed.

(** C5, as the code has it.  After tstart, and after the end of trace
    debugging (tfind end, tfind none, answered F-1), traceframe_number is
    -1; and where set_traceframe_context reads (CORE_ADDR) -1 from the int
    argument -1 it is called with, as it does on a target whose CORE_ADDR
    has the width of int, $trace_func and $trace_file are null and
    $trace_line is -1.  After
    a frame selection that goes through finish_tfind_command,
    traceframe_number and tracepoint_number are the F and T numbers of the
    reply (-1 where the reply has none), and the three variables are set
    from the pc of the current frame alone: null, null and -1 when that pc
    is -1, and otherwise the line, the function name and the file name
    that the symbol table gives for it. *)
Theorem cursor_context_follows_pc (s s' : session) (reply : string) (v : Z) :
  (target_remote s = true →
   trace_start_command s = (s', Returned tt) →
   traceframe_number s' = -1 ∧
   (end_of_trace_pc = minus_one_addr → trace_context_cleared s')) ∧
  (parse_and_eval_address "-1" = Returned v → to_int v = -1 →
   trace_find_command (Some "-1") s = (s', Returned tt) →
   traceframe_number s' = -1 ∧
   (end_of_trace_pc = minus_one_addr → trace_context_cleared s')) ∧
  (Z.pos vma_bits = int_bits → end_of_trace_pc = minus_one_addr) ∧
  (finish_tfind_command reply s = (s', Returned tt) →
   parse_tfind_reply (String.length reply) reply (-1) (-1) =
     Returned (traceframe_number s', tracepoint_number s') ∧
   (current_frame_pc s = minus_one_addr → trace_context_cleared s') ∧
   (current_frame_pc s ≠ minus_one_addr →
    internalvars s' !! "trace_line" =
      Some (VInt (sal_line (find_pc_line (current_frame_pc s)))) ∧
    internalvars s' !! "trace_func" =
      Some (match find_pc_function (current_frame_pc s) with
            | Some f => match SYMBOL_NAME f with
                        | Some name => VString name
                        | None => VNull
                        end
            | None => VNull
            end) ∧
    internalvars s' !! "trace_file" =
      Some (match sal_symtab (find_pc_line (current_frame_pc s)) with
            | Some st => match filename st with
                         | Some name => VString name
                         | None => VNull
                         end
            | None => VNull
            end))).
Proof.
  split; [|split; [|split; [exact end_of_trace_pc_same_width|]]].
  - intros Hremote H. unfold trace_start_command in H.
    unfold_command H. rewrite Hremote in H. unfold_command H.
    destruct (remote_get_noisy_reply _) as [s2 [reply2| | |]];
      try discriminate.
    destruct (bool_decide (reply2 = "OK")); cbn [negb] in H;
      [|discriminate].
    destruct (send_tracepoints _ s2) as [s3 [[]| | |]]; try discriminate.
    destruct (remote_get_noisy_reply _) as [s4 [reply4| | |]];
      try discriminate.
    destruct (bool_decide (reply4 = "OK")); cbn [negb] in H;
      [|discriminate].
    injection H as <-. apply end_of_trace_state.
  - intros Hparse Hv H. unfold trace_find_command in H.
    unfold_command H.
    destruct (target_remote s); [|discriminate].
    change (bool_decide ("-1" = "-")) with false in H. cbv iota in H.
    rewrite Hparse in H. cbn [fmap outcome_fmap] in H. rewrite Hv in H.
    unfold_command H.
    destruct (remote_get_noisy_reply _) as [s2 [tmp| | |]]; try discriminate.
    change (-1 =? -1) with true in H. cbv iota in H.
    destruct (bool_decide (tmp = "F-1")); cbn [negb] in H; [|discriminate].
    injection H as <-. apply end_of_trace_state.
  - intros H. unfold finish_tfind_command in H. unfold_command H.
    destruct (parse_tfind_reply _ _ _ _) as [[frameno tracept]| | |];
      try discriminate.
    injection H as <-.
    destruct (set_traceframe_context_numbers (current_frame_pc s)
                (set_tracepoint_num tracept (set_traceframe_num frameno s)))
      as [-> ->].
    split; [reflexivity|].
    apply (set_traceframe_context_vars (current_frame_pc s)
             (set_tracepoint_num tracept (set_traceframe_num frameno s))).
Qed.

End Protocol.

(** ** More on collection lists *)

Section CollectionListOrder.
Context `{T : Target}.

Ltac cmp_cases :=
  repeat match goal with
         | |- context [ (?x <? ?y) ] => destruct (Z.ltb_spec x y)
         | |- context [ (?x >? ?y) ] =>
             rewrite (Z.gtb_ltb x y); destruct (Z.ltb_spec y x)
         | |- context [ (?x =? ?y) ] => destruct (Z.eqb_spec x y)
         | H : context [ (?x <? ?y) ] |- _ => destruct (Z.ltb_spec x y)
         | H : context [ (?x >? ?y) ] |- _ =>
             rewrite (Z.gtb_ltb x y) in H; destruct (Z.ltb_spec y x)
         | H : context [ (?x =? ?y) ] |- _ => destruct (Z.eqb_spec x y)
         end.

Lemma memrange_cmp_total (a b : memrange) :
  memrange_cmp a b <= 0 ∨ memrange_cmp b a <= 0.
Proof. unfold memrange_cmp. cmp_cases; lia. Qed.

Lemma memrange_cmp_trans (a b c : memrange) :
  memrange_cmp a b <= 0 → memrange_cmp b c <= 0 → memrange_cmp a c <= 0.
Proof.
  unfold memrange_cmp.
  generalize (to_vma (start a)) (to_vma (start b)) (to_vma (start c)).
  intros va vb vc. cmp_cases; intros; lia.
Qed.

Lemma memrange_cmp_key_r (a b b' : memrange) :
  type b = type b' → start b = start b' →
  memrange_cmp a b = memrange_cmp a b'.
Proof. unfold memrange_cmp. intros -> ->. reflexivity. Qed.

Lemma memrange_cmp_key_l (a a' b : memrange) :
  type a = type a' → start a = start a' →
  memrange_cmp a b = memrange_cmp a' b.
Proof. unfold memrange_cmp. intros -> ->. reflexivity. Qed.

Lemma qsort_insert_sorted (x : memrange) (l : list memrange) :
  StronglySorted (fun a b => memrange_cmp a b <= 0) l →
  StronglySorted (fun a b => memrange_cmp a b <= 0)
    (qsort_insert memrange_cmp x l).
Proof.
  induction 1 as [|y l Hs IH Hf]; simpl.
  - repeat constructor.
  - destruct (Z.leb_spec (memrange_cmp x y) 0) as [Hle|Hgt].
    + constructor; [constructor; assumption|].
      constructor; [exact Hle|].
      eapply Forall_impl; [exact Hf|]. intros z Hz. simpl in Hz.
      eapply memrange_cmp_trans; eassumption.
    + constructor; [exact IH|].
      apply Forall_forall. intros z Hz.
      apply (qsort_insert_elem memrange_cmp) in Hz. destruct Hz as [->|Hz].
      * destruct (memrange_cmp_total y x); [assumption | lia].
      * rewrite Forall_forall in Hf. apply Hf. exact Hz.
Qed.

Lemma qsort_sorted (l : list memrange) :
  StronglySorted (fun a b => memrange_cmp a b <= 0) (qsort memrange_cmp l).
Proof.
  induction l as [|x l IH]; simpl; [constructor | apply qsort_insert_sorted, IH].
Qed.

(** The merge pass keeps the kind and the start of the records it
    leaves. *)
Lemma merge_pass_keys (rest : list memrange) :
  ∀ cur m, m ∈ merge_pass cur rest →
           ∃ m0, m0 ∈ cur :: rest ∧ type m0 = type m ∧ start m0 = start m.
Proof.
  induction rest as [|r rest IH]; intros cur m; simpl.
  - intros Hm. exists m. split; [exact Hm | split; reflexivity].
  - destruct (mergeable cur r).
    + intros Hm. destruct (IH _ _ Hm) as (m0 & Hin & Ht & Hs).
      apply elem_of_cons in Hin. destruct Hin as [->|Hin].
      * exists cur. split; [apply list_elem_of_here | split; assumption].
      * exists m0. split; [do 2 apply list_elem_of_further; exact Hin|].
        split; assumption.
    + intros Hm. apply elem_of_cons in Hm. destruct Hm as [->|Hm].
      * exists cur. split; [apply list_elem_of_here | split; reflexivity].
      * destruct (IH _ _ Hm) as (m0 & Hin & Ht & Hs).
        exists m0. split; [apply list_elem_of_further; exact Hin|].
        split; assumption.
Qed.

Lemma merge_pass_sorted (rest : list memrange) :
  ∀ cur,
    StronglySorted (fun a b => memrange_cmp a b <= 0) (cur :: rest) →
    StronglySorted (fun a b => memrange_cmp a b <= 0) (merge_pass cur rest).
Proof.
  induction rest as [|r rest IH]; intros cur Hs; simpl.
  - exact Hs.
  - apply StronglySorted_cons in Hs. destruct Hs as [Hf Hs].
    destruct (mergeable cur r).
    + apply IH. apply StronglySorted_cons in Hs. destruct Hs as [_ Hs].
      apply StronglySorted_cons. split; [|exact Hs].
      apply Forall_cons in Hf. destruct Hf as [_ Hf].
      eapply Forall_impl; [exact Hf|]. intros z Hz. simpl in *.
      rewrite (memrange_cmp_key_l _ cur) by reflexivity. exact Hz.
    + apply StronglySorted_cons. split; [|apply IH; exact Hs].
      apply Forall_forall. intros m Hm.
      destruct (merge_pass_keys _ _ _ Hm) as (m0 & Hin & Ht & Hst).
      rewrite Forall_forall in Hf. specialize (Hf _ Hin). simpl in Hf.
      rewrite <- (memrange_cmp_key_r cur m0 m) by assumption. exact Hf.
Qed.

Lemma memrange_sortmerge_sorted (c : collection_list) :
  StronglySorted (fun a b => memrange_cmp a b <= 0)
    (list_ (memrange_sortmerge c)).
Proof.
  rewrite memrange_sortmerge_list.
  pose proof (qsort_sorted (list_ c)) as Hs.
  destruct (qsort memrange_cmp (list_ c)) as [|x xs]; [constructor|].
  apply merge_pass_sorted. exact Hs.
Qed.

(** X1.  After memrange_sortmerge the records are in the order of
    memrange_cmp: a record never compares greater than a record that
    comes later in the list. *)
Theorem memrange_sortmerge_ordered (c : collection_list) (i j : nat)
    (ra rb : memrange) :
  (i < j)%nat →
  list_ (memrange_sortmerge c) !! i = Some ra →
  list_ (memrange_sortmerge c) !! j = Some rb →
  memrange_cmp ra rb <= 0.
Proof.
  intros Hij Ha Hb.
  exact (strongly_sorted_lookup _ _ (memrange_sortmerge_sorted c)
           i j ra rb Hij Ha Hb).
Qed.

Lemma merge_pass_of_separated (rest : list memrange) :
  ∀ cur, adjacent_separated (cur :: rest) → merge_pass cur rest = cur :: rest.
Proof.
  induction rest as [|r rest IH]; intros cur Hsep; simpl; [reflexivity|].
  assert (Hm : mergeable cur r = false).
  { specialize (Hsep 0%nat cur r eq_refl eq_refl).
    unfold mergeable. destruct Hsep as [Hne|Hgap].
    - apply Z.eqb_neq in Hne. rewrite Hne. reflexivity.
    - apply andb_false_iff. right. apply Z.leb_gt. lia. }
  rewrite Hm. f_equal. apply IH.
  intros i ra rb Ha Hb. exact (Hsep (S i) ra rb Ha Hb).
Qed.

Lemma memrange_sortmerge_adjacent (c : collection_list) :
  adjacent_separated (list_ (memrange_sortmerge c)).
Proof.
  rewrite memrange_sortmerge_list.
  destruct (qsort memrange_cmp (list_ c)) as [|x xs].
  - intros i ra rb Ha. discriminate.
  - apply merge_pass_separated.
Qed.

Lemma qsort_insert_permutation (x : memrange) (l : list memrange) :
  qsort_insert memrange_cmp x l ≡ₚ x :: l.
Proof.
  induction l as [|y l IH]; simpl; [reflexivity|].
  destruct (memrange_cmp x y <=? 0); [reflexivity|].
  rewrite IH. apply perm_swap.
Qed.

(** The insertion sort of the model is one of the orders that qsort may
    leave. *)
Lemma qsort_is_qsort_result (l : list memrange) :
  qsort_result l (qsort memrange_cmp l).
Proof.
  split; [|apply qsort_sorted].
  induction l as [|x l IH]; simpl; [reflexivity|].
  rewrite qsort_insert_permutation, IH. reflexivity.
Qed.

Lemma memrange_cmp_opposite (a b : memrange) :
  memrange_cmp a b < 0 → 0 < memrange_cmp b a.
Proof.
  intros H.
  assert (Hc : memrange_cmp a b = -1)
    by (revert H; unfold memrange_cmp; cmp_cases; intros; lia).
  rewrite (memrange_cmp_antisym _ _ Hc). lia.
Qed.

(** Records in strictly increasing order can be sorted in one way only. *)
Lemma qsort_result_of_strictly_ordered (l sorted : list memrange) :
  strictly_ordered l → qsort_result l sorted → sorted = l.
Proof.
  intros Hstrict [Hperm Hsorted].
  assert (Hl : StronglySorted (fun a b => memrange_cmp a b <= 0) l).
  { clear - Hstrict.
    induction Hstrict as [|x l _ IH Hf]; [constructor|].
    constructor; [exact IH|].
    eapply Forall_impl; [exact Hf|]. intros y Hy. simpl in *. lia. }
  apply (StronglySorted_unique_strong (fun a b => memrange_cmp a b <= 0));
    [|exact Hsorted|exact Hl|exact Hperm].
  intros x y Hx Hx2 H12 H21. simpl in H12, H21.
  rewrite Hperm in Hx.
  apply list_elem_of_lookup in Hx. destruct Hx as [i Hi].
  apply list_elem_of_lookup in Hx2. destruct Hx2 as [j Hj].
  destruct (lt_eq_lt_dec i j) as [[Hlt|Heq]|Hgt].
  - pose proof (strongly_sorted_lookup _ _ Hstrict i j x y Hlt Hi Hj) as H.
    apply memrange_cmp_opposite in H. lia.
  - subst j. congruence.
  - pose proof (strongly_sorted_lookup _ _ Hstrict j i y x Hgt Hj Hi) as H.
    apply memrange_cmp_opposite in H. lia.
Qed.

Lemma sortmerge_of_sorted_merge_pass (sorted : list memrange) :
  sortmerge_of_sorted sorted = merge_sorted sorted.
Proof.
  unfold sortmerge_of_sorted, merge_sorted.
  destruct sorted as [|x xs]; simpl; [reflexivity|].
  pose proof (sortmerge_loop_refines xs [] x []) as H.
  simpl in H. rewrite Nat.sub_0_r.
  destruct (sortmerge_loop (length xs) (x :: xs) 0 1) as [l a].
  exact H.
Qed.

Lemma memrange_sortmerge_of_sorted (c : collection_list) :
  list_ (memrange_sortmerge c)
  = sortmerge_of_sorted (qsort memrange_cmp (list_ c)).
Proof.
  unfold memrange_sortmerge, sortmerge_of_sorted.
  destruct (0 <? _); [|reflexivity].
  destruct (sortmerge_loop _ _ _ _). reflexivity.
Qed.

(** X2.  memrange_sortmerge is idempotent when no two of the records that
    it leaves compare equal, whatever order qsort leaves records that
    compare equal in: from any order that the first qsort may leave, the
    list that the merge loop makes comes out of a second sort and merge as
    it is.  The list of memrange_sortmerge is the one that the loop makes
    from the order that the qsort of the model leaves. *)
Theorem memrange_sortmerge_idempotent (c : collection_list)
    (sorted again : list memrange) :
  (qsort_result (list_ c) sorted →
   strictly_ordered (sortmerge_of_sorted sorted) →
   qsort_result (sortmerge_of_sorted sorted) again →
   sortmerge_of_sorted again = sortmerge_of_sorted sorted) ∧
  qsort_result (list_ c) (qsort memrange_cmp (list_ c)) ∧
  list_ (memrange_sortmerge c)
    = sortmerge_of_sorted (qsort memrange_cmp (list_ c)).
Proof.
  split; [|split; [apply qsort_is_qsort_result
                  |apply memrange_sortmerge_of_sorted]].
  rewrite !sortmerge_of_sorted_merge_pass.
  intros _ Hstrict Hagain.
  rewrite (qsort_result_of_strictly_ordered _ _ Hstrict Hagain).
  assert (Hsep : adjacent_separated (merge_sorted sorted)).
  { unfold merge_sorted. destruct sorted as [|x xs].
    - intros i ra rb Ha. discriminate.
    - apply merge_pass_separated. }
  destruct (merge_sorted sorted) as [|x xs]; [reflexivity|].
  apply merge_pass_of_separated. exact Hsep.
Qed.

(** X3.  When two records of equal kind are merged, the merged record
    keeps the start of the first and takes the end of the second, also
    when the first one ended later: a range that lies inside its
    predecessor shortens it. *)
Theorem memrange_sortmerge_takes_last_end (c : collection_list)
    (a b : memrange) :
  type a = type b → memrange_cmp a b = -1 →
  svma_sub (start b) (end_ a) <= MAX_REGISTER_VIRTUAL_SIZE →
  list_ c = [a; b] ∨ list_ c = [b; a] →
  list_ (memrange_sortmerge c) = [set_end a (end_ b)].
Proof.
  intros Ht Hcmp Hgap Hl.
  assert (Hq : qsort memrange_cmp (list_ c) = [a; b]).
  { destruct Hl as [-> | ->]; simpl.
    - rewrite Hcmp. reflexivity.
    - rewrite (memrange_cmp_antisym _ _ Hcmp). reflexivity. }
  rewrite memrange_sortmerge_list, Hq. simpl.
  unfold mergeable. rewrite Ht, Z.eqb_refl. simpl.
  destruct (Z.leb_spec (svma_sub (start b) (end_ a)) MAX_REGISTER_VIRTUAL_SIZE);
    [reflexivity | lia].
Qed.

(** *** The register bitmap as a set *)

Lemma set_bit_bits (byte k j : Z) :
  0 <= k < 8 →
  Z.testbit (wrap_unsigned 8 (Z.lor byte (Z.shiftl 1 k))) j =
  (j <? 8) && (Z.testbit byte j || (j =? k)).
Proof.
  intros Hk. unfold wrap_unsigned.
  destruct (Z.ltb_spec j 8) as [Hlt|Hge]; simpl.
  - destruct (Z.lt_ge_cases j 0) as [Hneg|Hpos].
    + rewrite !Z.testbit_neg_r by lia.
      destruct (Z.eqb_spec j k); [lia | reflexivity].
    + pose proof (testbit_set_bit byte k j Hk ltac:(lia)) as Hbit.
      unfold wrap_unsigned in Hbit. rewrite Hbit. f_equal.
      destruct (Z.eqb_spec j k) as [->|Hne].
      * apply bool_decide_eq_true_2. reflexivity.
      * apply bool_decide_eq_false_2. exact Hne.
  - apply Z.mod_pow2_bits_high. lia.
Qed.

Lemma set_bit_twice (byte k : Z) :
  0 <= k < 8 →
  wrap_unsigned 8
    (Z.lor (wrap_unsigned 8 (Z.lor byte (Z.shiftl 1 k))) (Z.shiftl 1 k))
  = wrap_unsigned 8 (Z.lor byte (Z.shiftl 1 k)).
Proof.
  intros Hk. apply Z.bits_inj. intros j.
  rewrite !set_bit_bits by exact Hk.
  destruct (j <? 8), (Z.testbit byte j), (j =? k); reflexivity.
Qed.

Lemma set_bit_comm (byte k1 k2 : Z) :
  0 <= k1 < 8 → 0 <= k2 < 8 →
  wrap_unsigned 8
    (Z.lor (wrap_unsigned 8 (Z.lor byte (Z.shiftl 1 k1))) (Z.shiftl 1 k2))
  = wrap_unsigned 8
      (Z.lor (wrap_unsigned 8 (Z.lor byte (Z.shiftl 1 k2))) (Z.shiftl 1 k1)).
Proof.
  intros H1 H2. apply Z.bits_inj. intros j.
  rewrite !set_bit_bits by assumption.
  destruct (j <? 8), (Z.testbit byte j), (j =? k1), (j =? k2); reflexivity.
Qed.

Lemma add_register_returned (c : collection_list) (r : Z) (byte : Z) :
  r <= 8 * sizeof_regs_mask →
  regs_mask c !! Z.to_nat (r / 8) = Some byte →
  add_register c r =
  Returned {| regs_mask :=
                <[Z.to_nat (r / 8) :=
                    wrap_unsigned 8 (Z.lor byte (Z.shiftl 1 (r mod 8)))]>
                  (regs_mask c);
              listsize := listsize c;
              list_ := list_ c |}.
Proof.
  intros Hle Hb. unfold add_register.
  destruct (Z.gtb_spec r (8 * sizeof_regs_mask)); [lia|].
  rewrite Hb. reflexivity.
Qed.

Lemma add_register_shape (c c' : collection_list) (r : Z) :
  add_register c r = Returned c' →
  ∃ byte, r <= 8 * sizeof_regs_mask ∧
          regs_mask c !! Z.to_nat (r / 8) = Some byte ∧
          c' = {| regs_mask :=
                    <[Z.to_nat (r / 8) :=
                        wrap_unsigned 8 (Z.lor byte (Z.shiftl 1 (r mod 8)))]>
                      (regs_mask c);
                  listsize := listsize c;
                  list_ := list_ c |}.
Proof.
  intros H. destruct (add_register_inv _ _ _ H) as (Hle & _ & _ & b & Hb & _).
  exists b. split; [exact Hle|]. split; [exact Hb|].
  rewrite (add_register_returned c r b Hle Hb) in H. congruence.
Qed.

(** X4.  The register bitmap behaves as a set: collecting a register a
    second time changes nothing, and two registers can be collected in
    either order. *)
Theorem add_register_set_like (c c1 c12 : collection_list) (r1 r2 : Z) :
  0 <= r1 → 0 <= r2 →
  add_register c r1 = Returned c1 →
  add_register c1 r2 = Returned c12 →
  add_register c1 r1 = Returned c1 ∧
  ∃ c2, add_register c r2 = Returned c2 ∧ add_register c2 r1 = Returned c12.
Proof.
  intros Hr1 Hr2 H1 H12.
  destruct (add_register_shape _ _ _ H1) as (b1 & Hle1 & Hb1 & ->).
  destruct (add_register_shape _ _ _ H12) as (b2 & Hle2 & Hb2 & ->).
  cbn [regs_mask listsize list_] in *.
  assert (Hk1 : 0 <= r1 mod 8 < 8) by (apply Z.mod_pos_bound; lia).
  assert (Hk2 : 0 <= r2 mod 8 < 8) by (apply Z.mod_pos_bound; lia).
  assert (Hi1 : (Z.to_nat (r1 / 8) < length (regs_mask c))%nat)
    by (eapply lookup_lt_Some; exact Hb1).
  assert (Hi2 : (Z.to_nat (r2 / 8) < length (regs_mask c))%nat).
  { apply lookup_lt_Some in Hb2. rewrite length_insert in Hb2. exact Hb2. }
  destruct (lookup_lt_is_Some_2 _ _ Hi2) as [b2' Hb2'].
  split.
  - erewrite add_register_returned;
      [|exact Hle1|cbn [regs_mask]; apply list_lookup_insert_eq; exact Hi1].
    cbn [regs_mask listsize list_].
    rewrite list_insert_insert_eq, set_bit_twice by exact Hk1. reflexivity.
  - eexists. split; [apply (add_register_returned c r2 b2' Hle2 Hb2')|].
    destruct (decide (Z.to_nat (r1 / 8) = Z.to_nat (r2 / 8))) as [Heq|Hne].
    + rewrite <- Heq in *.
      rewrite list_lookup_insert_eq in Hb2 by exact Hi1.
      injection Hb2 as <-.
      rewrite Hb1 in Hb2'. injection Hb2' as <-.
      erewrite add_register_returned;
        [|exact Hle1|cbn [regs_mask]; apply list_lookup_insert_eq; exact Hi1].
      cbn [regs_mask listsize list_].
      rewrite !list_insert_insert_eq.
      rewrite (set_bit_comm b1 (r2 mod 8) (r1 mod 8)) by assumption.
      reflexivity.
    + rewrite list_lookup_insert_ne in Hb2 by exact Hne.
      rewrite Hb2' in Hb2. injection Hb2 as <-.
      erewrite add_register_returned;
        [|exact Hle1
         |cbn [regs_mask]; rewrite list_lookup_insert_ne by auto; exact Hb1].
      cbn [regs_mask listsize list_].
      rewrite list_insert_insert_ne by auto. reflexivity.
Qed.

(** X5.  "collect $reg" on a list with an eight-byte bitmap: when
    NUM_REGS is at most 64 the loop over the registers returns, leaves the
    memranges alone and sets the bit of every register below NUM_REGS;
    when NUM_REGS is 65 or more the loop reaches register 64 and stores
    past the end of the bitmap before any error is raised. *)
Theorem add_all_registers_collects (c : collection_list) (n : Z) :
  length (regs_mask c) = 8%nat → 0 <= n →
  (n <= 64 →
   ∃ c', add_all_registers (Z.to_nat n) 0 c = Returned c' ∧
         list_ c' = list_ c ∧
         ∀ r, 0 <= r < n → reg_bit c' r = true) ∧
  (65 <= n →
   add_all_registers (Z.to_nat n) 0 c =
     Undefined "store past the end of regs_mask").
Proof.
  intros Hlen Hn.
  assert (Hloop : ∀ (k : nat) (i : Z) (c0 : collection_list),
            length (regs_mask c0) = 8%nat → 0 <= i → i + Z.of_nat k <= 64 →
            ∃ c', add_all_registers k i c0 = Returned c' ∧
                  length (regs_mask c') = 8%nat ∧
                  list_ c' = list_ c0 ∧
                  (∀ r, reg_bit c0 r = true → reg_bit c' r = true) ∧
                  ∀ r, i <= r < i + Z.of_nat k → reg_bit c' r = true).
  { induction k as [|k IH]; intros i c0 Hl Hi Hik; simpl.
    - exists c0. repeat split; auto. intros r Hr. lia.
    - rewrite to_ulong_small by (unfold INT_MAX; lia).
      assert (Hidx : (Z.to_nat (i / 8) < length (regs_mask c0))%nat).
      { rewrite Hl. assert (i / 8 < 8) by (apply Z.div_lt_upper_bound; lia).
        assert (0 <= i / 8) by (apply Z.div_pos; lia). lia. }
      destruct (lookup_lt_is_Some_2 _ _ Hidx) as [byte Hbyte].
      assert (Hadd : ∃ c1, add_register c0 i = Returned c1).
      { unfold add_register.
        destruct (Z.gtb_spec i (8 * sizeof_regs_mask));
          [unfold sizeof_regs_mask in *; lia|].
        rewrite Hbyte. eauto. }
      destruct Hadd as [c1 Hc1]. rewrite Hc1. cbn [mbind outcome_bind].
      destruct (add_register_inv _ _ _ Hc1) as (_ & Hl1 & _ & b & Hb & Hm).
      destruct (IH (i + 1) c1) as (c' & Hc' & Hlen' & Hl' & Hmono & Hset).
      + rewrite Hm, length_insert. exact Hl.
      + lia.
      + lia.
      + exists c'. split; [exact Hc'|]. split; [exact Hlen'|].
        split; [congruence|]. split.
        * intros r Hr. apply Hmono. eapply add_register_mono; eassumption.
        * intros r Hr. destruct (Z.eq_dec r i) as [->|Hne].
          -- apply Hmono. eapply add_register_sets. exact Hc1.
          -- apply Hset. lia. }
  split.
  - intros Hle. destruct (Hloop (Z.to_nat n) 0 c Hlen) as (c' & Hc' & _ & Hl' & _ & Hset);
      [lia | lia |].
    exists c'. split; [exact Hc'|]. split; [exact Hl'|].
    intros r Hr. apply Hset. lia.
  - intros Hge.
    assert (Hsplit : ∀ (k1 k2 : nat) (i : Z) (c0 c1 : collection_list),
              add_all_registers k1 i c0 = Returned c1 →
              add_all_registers (k1 + k2) i c0 =
              add_all_registers k2 (i + Z.of_nat k1) c1).
    { induction k1 as [|k1 IH]; intros k2 i c0 c1 H; simpl in *.
      - injection H as <-. f_equal. lia.
      - destruct (add_register c0 (to_ulong i)) as [c2| | |];
          cbn [mbind outcome_bind] in *; try discriminate.
        rewrite (IH k2 (i + 1) c2 c1 H). f_equal. lia. }
    destruct (Hloop 64%nat 0 c Hlen) as (c' & Hc' & Hlen' & _); [lia | lia |].
    replace (Z.to_nat n) with (64 + S (Z.to_nat n - 65))%nat by lia.
    rewrite (Hsplit _ _ _ _ _ Hc').
    change (0 + Z.of_nat 64) with 64. cbn [add_all_registers].
    rewrite to_ulong_small by (unfold INT_MAX; lia).
    unfold add_register. change (64 >? 8 * sizeof_regs_mask) with false.
    change (Z.to_nat (64 / 8)) with 8%nat. cbv iota.
    rewrite lookup_ge_None_2 by lia. reflexivity.
Qed.

End CollectionListOrder.

(** ** More on the registry *)

Section RegistryMore.
Context `{T : Target} `{Co : Collaborators}.

Lemma to_int_small (x : Z) : 0 <= x <= INT_MAX → to_int x = x.
Proof.
  intros Hx. unfold to_int, wrap_signed, int_bits, INT_MAX in *.
  rewrite Z.mod_small by lia.
  destruct (Z.ltb_spec x (2 ^ (32 - 1))); [reflexivity | simpl in *; lia].
Qed.

(** One turn of the loop of trace_command. *)
Lemma trace_command_loop_step (junk : nat → nat → ascii) (addr : string)
    (canonical : list (option string)) (sal : symtab_and_line)
    (sals : list symtab_and_line) (i : nat) (s s' : session) :
  trace_command_loop junk addr canonical (sal :: sals) i s = Returned s' →
  ∃ s3 t,
    trace_command_loop junk addr canonical sals (S i) s3 = Returned s' ∧
    tracepoint_chain s3 = tracepoint_chain s ++ [t] ∧
    tracepoint_count s3 = tracepoint_count s + 1 ∧
    tracepoint_count s3 <= INT_MAX ∧
    number t = tracepoint_count s3 ∧
    fresh_tracepoint sal t ∧
    internalvars s3 !! "tpnum" = Some (VInt (tracepoint_count s3)).
Proof.
  intros H. cbn [trace_command_loop] in H. case_outcome H. rename a into s1.
  unfold set_raw_tracepoint in E. case_outcome E. injection E as <-.
  cbn [tracepoint_count with_tracepoint_chain tracepoint_chain] in H.
  destruct (Z.gtb_spec (tracepoint_count s + 1) INT_MAX) as [|Hle];
    [discriminate|].
  eexists _, _. split; [exact H|].
  cbn [tracepoint_chain with_tracepoint_chain set_tracepoint_count
       set_internalvar with_internalvars with_tracepoint_count
       tracepoint_count internalvars].
  rewrite length_app. cbn [length].
  replace (length (tracepoint_chain s) + 1 - 1)%nat
    with (length (tracepoint_chain s) + 0)%nat by lia.
  rewrite alter_app_r. cbn [alter list_alter].
  split; [reflexivity|]. split; [reflexivity|]. split; [exact Hle|].
  split; [reflexivity|]. split.
  - repeat split.
  - apply lookup_insert_eq.
Qed.

(** X6.  A trace command that returns either had an argument that begins
    with '/' and has changed nothing, or has appended one tracepoint for
    each location that decode_line_1 found for its argument, in their
    order, and changed none of those already there.  The new tracepoints
    get the consecutive numbers after tracepoint_count, which is raised
    by their number; each is enabled, with no pass count, no step count,
    no actions and no condition, at the pc and line of its location. *)
Theorem trace_command_appends (junk : nat → nat → ascii)
    (arg : string) (s s' : session) :
  trace_command junk (Some arg) s = Returned s' →
  arg ≠ "" ∧
  if Ascii.eqb (deref arg) "/" then s' = s
  else
    ∃ (sals : list symtab_and_line) (canonical : list (option string))
      (used : nat) (new : list tracepoint),
      decode_line_1 arg = Returned (sals, canonical, used) ∧
      tracepoint_chain s' = tracepoint_chain s ++ new ∧
      tracepoint_count s' = tracepoint_count s + Z.of_nat (length new) ∧
      Forall2 fresh_tracepoint sals new ∧
      ∀ (k : nat) (t : tracepoint),
        new !! k = Some t → number t = tracepoint_count s + Z.of_nat k + 1.
Proof.
  assert (Hloop : ∀ junk addr canonical sals i s0 s1,
            trace_command_loop junk addr canonical sals i s0 = Returned s1 →
            ∃ new, tracepoint_chain s1 = tracepoint_chain s0 ++ new ∧
                   tracepoint_count s1
                     = tracepoint_count s0 + Z.of_nat (length new) ∧
                   Forall2 fresh_tracepoint sals new ∧
                   ∀ k t, new !! k = Some t →
                          number t = tracepoint_count s0 + Z.of_nat k + 1).
  { clear. intros junk addr canonical sals.
    induction sals as [|sal sals IH]; intros i s0 s1 H.
    - injection H as <-. exists []. rewrite app_nil_r.
      split; [reflexivity|]. split; [simpl; lia|]. split; [constructor|].
      intros k t Hk. discriminate.
    - destruct (trace_command_loop_step _ _ _ _ _ _ _ _ H)
        as (s3 & t & Hrest & Hch & Hcnt & _ & Hnum & Hfresh & _).
      destruct (IH _ _ _ Hrest) as (new & Hch' & Hcnt' & Hall & Hnums).
      exists (t :: new). rewrite Hch', Hch, <- app_assoc.
      split; [reflexivity|]. split; [rewrite Hcnt', Hcnt; simpl length; lia|].
      split; [constructor; assumption|].
      intros [|k] t' Hk; simpl in Hk.
      + injection Hk as <-. rewrite Hnum, Hcnt. lia.
      + rewrite (Hnums _ _ Hk), Hcnt. lia. }
  unfold trace_command. intros H.
  destruct arg as [|a arg]; [discriminate|].
  split; [discriminate|].
  destruct (Ascii.eqb _ _).
  - injection H as <-. reflexivity.
  - case_outcome H. destruct a0 as [[sals canonical] used].
    destruct (Hloop _ _ _ _ _ _ _ H) as (new & Hnew).
    exists sals, canonical, used, new. split; [reflexivity | exact Hnew].
Qed.

Lemma registry_reachable_count (s : session) :
  registry_reachable s → 0 <= tracepoint_count s.
Proof.
  induction 1 as [remote vars|s s' _ IH Hstep].
  - simpl. lia.
  - apply registry_step_extends in Hstep. destruct Hstep as (Hc & _). lia.
Qed.

Lemma list_find_last (l : list tracepoint) (t : tracepoint) :
  StronglySorted Z.lt (number <$> l ++ [t]) →
  list_find (fun t0 => number t0 = number t) (l ++ [t])
  = Some (length l, t).
Proof.
  intros Hs. apply list_find_Some. split; [|split].
  - rewrite lookup_app_r by lia. rewrite Nat.sub_diag. reflexivity.
  - reflexivity.
  - intros j y Hy Hj Heq.
    assert (number y < number t); [|lia].
    apply (strongly_sorted_lookup Z.lt _ Hs j (length l)); [exact Hj| |].
    + rewrite list_lookup_fmap, Hy. reflexivity.
    + rewrite list_lookup_fmap, lookup_app_r by lia.
      rewrite Nat.sub_diag. reflexivity.
Qed.

Lemma trace_command_loop_last (junk : nat → nat → ascii) (addr : string)
    (canonical : list (option string)) (sals : list symtab_and_line) :
  ∀ (i : nat) (s s' : session),
    trace_command_loop junk addr canonical sals i s = Returned s' →
    sals ≠ [] → 0 <= tracepoint_count s →
    ∃ init t,
      tracepoint_chain s' = init ++ [t] ∧
      number t = tracepoint_count s' ∧
      0 <= tracepoint_count s' <= INT_MAX ∧
      internalvars s' !! "tpnum" = Some (VInt (tracepoint_count s')).
Proof.
  induction sals as [|sal sals IH]; intros i s s' H Hne Hpos;
    [contradiction|].
  destruct (trace_command_loop_step _ _ _ _ _ _ _ _ H)
    as (s3 & t & Hrest & Hch & Hcnt & Hmax & Hnum & _ & Hvar).
  destruct sals as [|sal' sals].
  - injection Hrest as <-. exists (tracepoint_chain s), t.
    split; [exact Hch|]. split; [exact Hnum|]. split; [lia | exact Hvar].
  - apply (IH (S i) s3 s' Hrest); [discriminate | lia].
Qed.

(** X7.  Right after a trace command that has made at least one
    tracepoint, a tracepoint argument left empty and the argument $tpnum
    both designate the last tracepoint made. *)
Theorem last_tracepoint_is_default (junk : nat → nat → ascii)
    (arg : option string) (s s' : session) :
  registry_reachable s →
  trace_command junk arg s = Returned s' →
  tracepoint_chain s' ≠ tracepoint_chain s →
  get_tracepoint_by_number None s'
    = Returned (Some (length (tracepoint_chain s') - 1)%nat, None) ∧
  get_tracepoint_by_number (Some "") s'
    = Returned (Some (length (tracepoint_chain s') - 1)%nat, Some "") ∧
  get_tracepoint_by_number (Some "$tpnum") s'
    = Returned (Some (length (tracepoint_chain s') - 1)%nat, Some "").
Proof.
  intros Hreach Hcmd Hnew.
  assert (Hinv : registry_invariant s').
  { apply trace_command_extends in Hcmd. destruct Hcmd as (_ & Hi & _).
    apply Hi, registry_reachable_invariant, Hreach. }
  pose proof (registry_reachable_count s Hreach) as Hpos.
  assert (Hlast : ∃ init t,
            tracepoint_chain s' = init ++ [t] ∧
            number t = tracepoint_count s' ∧
            0 <= tracepoint_count s' <= INT_MAX ∧
            internalvars s' !! "tpnum" = Some (VInt (tracepoint_count s'))).
  { unfold trace_command in Hcmd.
    destruct arg as [[|a arg]|]; try discriminate.
    destruct (Ascii.eqb _ _); [injection Hcmd as <-; contradiction|].
    case_outcome Hcmd. destruct a0 as [[sals canonical] used].
    eapply trace_command_loop_last; [exact Hcmd| |exact Hpos].
    intros ->. injection Hcmd as <-. contradiction. }
  destruct Hlast as (init & t & Hch & Hnum & Hrange & Hvar).
  destruct Hinv as [Hs _]. rewrite Hch in Hs.
  pose proof (list_find_last init t Hs) as Hfind. rewrite Hnum in Hfind.
  rewrite Hch, length_app. simpl length.
  replace (length init + 1 - 1)%nat with (length init) by lia.
  unfold get_tracepoint_by_number.
  change (scan_name "tpnum") with ("tpnum", "").
  unfold value_of_internalvar. rewrite Hvar. cbn [default from_option id].
  rewrite to_int_small by exact Hrange.
  cbn [mbind outcome_bind]. rewrite Hch, Hfind.
  repeat split; reflexivity.
Qed.

(** An argument keeps its meaning as a number when a tracepoint is
    deleted. *)
Lemma list_find_delete (l : list tracepoint) (n : Z) (i : nat) :
  StronglySorted Z.lt (number <$> l) →
  (i < length l)%nat →
  fst <$> list_find (fun t => number t = n) (delete i l)
  = match fst <$> list_find (fun t => number t = n) l with
    | Some j => if decide (j = i) then None
                else Some (if decide (j < i)%nat then j else (j - 1)%nat)
    | None => None
    end.
Proof.
  intros Hs Hi.
  assert (Huniq : ∀ j k a b, l !! j = Some a → l !! k = Some b →
                             number a = number b → j = k).
  { intros j k a b Ha Hb Heq.
    destruct (Nat.lt_total j k) as [Hlt|[Heq'|Hlt]]; [|exact Heq'|].
    - assert (number a < number b); [|lia].
      apply (strongly_sorted_lookup Z.lt _ Hs j k); [exact Hlt| |];
        rewrite list_lookup_fmap; [rewrite Ha|rewrite Hb]; reflexivity.
    - assert (number b < number a); [|lia].
      apply (strongly_sorted_lookup Z.lt _ Hs k j); [exact Hlt| |];
        rewrite list_lookup_fmap; [rewrite Hb|rewrite Ha]; reflexivity. }
  destruct (list_find (fun t => number t = n) l) as [[j t]|] eqn:Hf;
    cbn [fmap option_fmap option_map fst].
  - apply list_find_Some in Hf. destruct Hf as (Hj & Hn & Hmin).
    destruct (decide (j = i)) as [->|Hne].
    + destruct (list_find _ (delete i l)) as [[k y]|] eqn:Hd; [|reflexivity].
      exfalso. apply list_find_Some in Hd. destruct Hd as (Hk & Hy & _).
      rewrite list_lookup_delete in Hk.
      destruct (decide (k < i)%nat).
      * specialize (Huniq _ _ _ _ Hk Hj). lia.
      * specialize (Huniq _ _ _ _ Hk Hj). lia.
    + assert (Hd : list_find (fun t => number t = n) (delete i l)
                   = Some (if decide (j < i)%nat then j else (j - 1)%nat, t)).
      { apply list_find_Some. split; [|split].
        - rewrite list_lookup_delete.
          destruct (decide (j < i)%nat) as [Hlt|Hge].
          + rewrite decide_True by exact Hlt. exact Hj.
          + rewrite decide_False by lia.
            replace (S (j - 1)) with j by lia. exact Hj.
        - exact Hn.
        - intros k y Hk Hlt Hy. rewrite list_lookup_delete in Hk.
          destruct (decide (k < i)%nat);
            [specialize (Huniq _ _ _ _ Hk Hj)|specialize (Huniq _ _ _ _ Hk Hj)];
            destruct (decide (j < i)%nat); lia. }
      rewrite Hd. reflexivity.
  - destruct (list_find _ (delete i l)) as [[k y]|] eqn:Hd; [|reflexivity].
    exfalso. apply list_find_Some in Hd. destruct Hd as (Hk & Hy & _).
    rewrite list_lookup_delete in Hk.
    eapply list_find_None in Hf. rewrite Forall_forall in Hf.
    apply (Hf y); [|exact Hy]. eapply list_elem_of_lookup_2. exact Hk.
Qed.

(** X8.  Deleting a tracepoint of the chain takes its number out of use
    and leaves every other number in use: an argument that designated the
    tracepoint deleted designates none afterwards, an argument that
    designated another tracepoint still designates it, at the place in
    the chain it now has, and an argument that designated none still
    designates none. *)
Theorem deleted_tracepoint_is_gone (s : session) (i : nat)
    (arg : option string) :
  registry_reachable s →
  (i < length (tracepoint_chain s))%nat →
  get_tracepoint_by_number arg (tracepoint_operation i delete_op s)
  = match get_tracepoint_by_number arg s with
    | Returned (Some j, rest) =>
      Returned (if decide (j = i) then None
                else Some (if decide (j < i)%nat then j else (j - 1)%nat),
                rest)
    | other => other
    end.
Proof.
  intros Hreach Hi.
  destruct (registry_reachable_invariant s Hreach) as [Hs _].
  unfold get_tracepoint_by_number, value_of_internalvar.
  cbn [tracepoint_operation tracepoint_count internalvars tracepoint_chain
       with_tracepoint_chain].
  match goal with
  | |- mbind _ ?m = _ => destruct m as [[tpnum rest]| | |]
  end; cbn [mbind outcome_bind]; try reflexivity.
  rewrite (list_find_delete _ tpnum i Hs Hi).
  destruct (fst <$> list_find _ (tracepoint_chain s)) as [j|]; reflexivity.
Qed.
(** The ALL_TRACEPOINTS loop of enable and disable: the tracepoints at
    positions k .. k+n-1 get the flag. *)
Lemma all_tracepoints_operation_flag (e : enable) (n : nat) :
  ∀ (k : nat) (s : session),
    all_tracepoints_operation n k
      (match e with enabled => enable_op | disabled => disable_op end) s
    = Returned
        (with_tracepoint_chain s
           (imap (fun j t => if bool_decide (k ≤ j < k + n)%nat
                             then set_enabled t e else t)
                 (tracepoint_chain s))).
Proof.
  induction n as [|n IH]; intros k s.
  - cbn [all_tracepoints_operation]. f_equal.
    replace (imap _ (tracepoint_chain s)) with (tracepoint_chain s);
      [destruct s; reflexivity|].
    apply list_eq. intros j. rewrite list_lookup_imap.
    destruct (tracepoint_chain s !! j); [|reflexivity].
    cbn [fmap option_fmap option_map].
    rewrite bool_decide_eq_false_2 by lia. reflexivity.
  - cbn [all_tracepoints_operation].
    assert (Hnext : ∀ s0,
              match match e with
                    | enabled => enable_op
                    | disabled => disable_op
                    end with
              | delete_op => Undefined "t->next read after free (t)"
              | _ => all_tracepoints_operation n (S k)
                       (match e with
                        | enabled => enable_op
                        | disabled => disable_op
                        end) s0
              end
              = all_tracepoints_operation n (S k)
                  (match e with
                   | enabled => enable_op
                   | disabled => disable_op
                   end) s0) by (intros s0; destruct e; reflexivity).
    rewrite Hnext, IH. f_equal.
    assert (Hop : tracepoint_operation k
                    (match e with enabled => enable_op | disabled => disable_op end) s
                  = with_tracepoint_chain s
                      (alter (fun t => set_enabled t e) k (tracepoint_chain s)))
      by (destruct e; reflexivity).
    rewrite Hop.
    cbn [with_tracepoint_chain tracepoint_chain tracepoint_count
         traceframe_number tracepoint_number traceframe_fun traceframe_sal
         internalvars target_remote sent replies console current_frame_pc].
    f_equal. apply list_eq. intros j.
    rewrite !list_lookup_imap, list_lookup_alter.
    destruct (decide (k = j)) as [->|Hne].
    + destruct (tracepoint_chain s !! j); [|reflexivity].
      cbn [fmap option_fmap option_map].
      rewrite bool_decide_eq_false_2 by lia.
      rewrite bool_decide_eq_true_2 by lia. reflexivity.
    + destruct (tracepoint_chain s !! j); [|reflexivity].
      cbn [fmap option_fmap option_map].
      destruct (decide (S k ≤ j < S k + n)%nat).
      * rewrite !bool_decide_eq_true_2 by lia. reflexivity.
      * rewrite !bool_decide_eq_false_2 by lia. reflexivity.
Qed.

(** X9.  "enable" and "disable" without an argument set the flag of
    every tracepoint of the chain and change nothing else: no number,
    address, count or action of a tracepoint, and nothing of the rest of
    the session. *)
Theorem enable_disable_all (args : option string) (s : session) :
  args = None ∨ args = Some "" →
  enable_trace_command args s
  = Returned (with_tracepoint_chain s
                ((fun t => set_enabled t enabled) <$> tracepoint_chain s)) ∧
  disable_trace_command args s
  = Returned (with_tracepoint_chain s
                ((fun t => set_enabled t disabled) <$> tracepoint_chain s)).
Proof.
  assert (Hall : ∀ e,
            all_tracepoints_operation (length (tracepoint_chain s)) 0
              (match e with enabled => enable_op | disabled => disable_op end) s
            = Returned
                (with_tracepoint_chain s
                   ((fun t => set_enabled t e) <$> tracepoint_chain s))).
  { intros e. rewrite all_tracepoints_operation_flag. f_equal. f_equal.
    apply list_eq. intros j. rewrite list_lookup_imap, list_lookup_fmap.
    destruct (tracepoint_chain s !! j) eqn:Hj; [|reflexivity].
    cbn [fmap option_fmap option_map].
    apply lookup_lt_Some in Hj.
    rewrite bool_decide_eq_true_2 by lia. reflexivity. }
  intros Hargs.
  unfold enable_trace_command, disable_trace_command,
    map_args_over_tracepoints.
  pose proof (Hall enabled) as He. pose proof (Hall disabled) as Hd.
  cbv beta iota in He, Hd.
  destruct Hargs as [-> | ->]; rewrite He, Hd; split; reflexivity.
Qed.

Lemma no_number_facts (c : ascii) :
  starts_no_number c = true →
  (∀ rest, strto_scan (String c rest) 10 = (false, 0, String c rest)) ∧
  (∀ rest, skip_blanks (String c rest) = String c rest) ∧
  (∀ rest s,
     get_tracepoint_by_number (Some (String c rest)) s
     = let '(n, rest') := strtol (String c rest) 10 in
       Returned (fst <$> list_find (fun t => number t = to_int n)
                           (tracepoint_chain s), Some rest')).
Proof.
  intros H.
  destruct c as [[] [] [] [] [] [] [] []];
    vm_compute in H; try discriminate H;
    (split; [|split]); intros; reflexivity.
Qed.

Lemma strtol_no_number (c : ascii) (rest : string) :
  starts_no_number c = true → strtol (String c rest) 10 = (0, String c rest).
Proof.
  intros H. destruct (no_number_facts c H) as (Hscan & _ & _).
  unfold strtol. rewrite Hscan. cbv beta iota zeta.
  pose proof LONG_MAX_nonneg.
  destruct (Z.gtb_spec 0 LONG_MAX); [lia|].
  destruct (Z.ltb_spec 0 LONG_MIN); [unfold LONG_MIN, LONG_MAX in *; lia|].
  reflexivity.
Qed.

(** X10.  "enable", "disable" and "delete" with an argument that begins
    with a character that can start neither a number nor a convenience
    variable never return: get_tracepoint_by_number leaves the argument
    where it was, and the loop over the arguments asks again for ever. *)
Theorem map_args_over_tracepoints_hangs (c : ascii) (rest : string)
    (opcode : tracepoint_opcode) (s : session) :
  starts_no_number c = true →
  map_args_over_tracepoints (Some (String c rest)) opcode s = Diverges.
Proof.
  intros H. destruct (no_number_facts c H) as (_ & Hblank & Hget).
  unfold map_args_over_tracepoints.
  cbn [String.length map_args_loop].
  rewrite Hget, strtol_no_number by exact H.
  cbn [mbind outcome_bind default from_option id].
  rewrite Hblank. cbn [String.length].
  rewrite (proj2 (Nat.ltb_ge _ _)) by lia. reflexivity.
Qed.

End RegistryMore.

(** ** More on the protocol engine *)

Section ProtocolMore.
Context `{T : Target} `{Co : Collaborators}.

Lemma char_is_inv (p : string) (c : ascii) :
  char_is p c = true → c ≠ NUL → ∃ rest, p = String c rest.
Proof.
  unfold char_is, deref. destruct p as [|x rest]; intros H Hc.
  - apply Ascii.eqb_eq in H. congruence.
  - apply Ascii.eqb_eq in H. subst x. eauto.
Qed.

Lemma strtol_unchanged (nptr : string) (base : Z) :
  strto_scan nptr base = (false, 0, nptr) → strtol nptr base = (0, nptr).
Proof.
  intros Hscan. unfold strtol. rewrite Hscan. cbv beta iota zeta.
  pose proof LONG_MAX_nonneg.
  destruct (Z.gtb_spec 0 LONG_MAX); [lia|].
  destruct (Z.ltb_spec 0 LONG_MIN); [unfold LONG_MIN, LONG_MAX in *; lia|].
  reflexivity.
Qed.

(** trace_error never comes back from a packet that begins with 'E'. *)
Lemma trace_error_raises (buf : string) :
  char_is buf "E" = true → ∃ e, trace_error buf = Some e.
Proof.
  intros H. unfold trace_error. rewrite H. cbn [negb].
  destruct (char_is (advance 1 buf) "1").
  - destruct (char_is _ "0"); eauto.
  - destruct (char_is _ "2"); eauto.
Qed.

(** X11.  A reply that begins with 'R' always raises "malformed 'R'
    packet": trace_receive_regs is handed the packet with its 'R', where
    strtol finds no register number. *)
Theorem register_reply_is_malformed (s : session) (buf : string)
    (pending : list string) :
  replies s = buf :: pending →
  char_is buf "R" = true →
  remote_get_noisy_reply s
  = (with_replies s pending, Raised err_malformed_R_packet).
Proof.
  intros Hrep HR.
  destruct (char_is_inv _ _ HR) as [rest ->]; [discriminate|].
  unfold remote_get_noisy_reply. rewrite Hrep.
  cbn [noisy_reply_loop].
  unfold mbind, command_bind, modify, lift, error. cbv beta iota.
  change (char_is (String "R" rest) NUL) with false.
  change (char_is (String "R" rest) "E") with false.
  change (char_is (String "R" rest) "R") with true. cbv iota.
  unfold trace_receive_regs. cbn [String.length trace_receive_regs_loop].
  change (char_is (String "R" rest) NUL) with false. cbv iota.
  rewrite strtol_unchanged by reflexivity.
  rewrite Nat.eqb_refl. reflexivity.
Qed.

(** X12.  When remote_get_noisy_reply returns a reply, every packet
    read before it was console output, which has been passed on in the
    order received, without its 'O'; the reply itself is not empty, is
    neither an error nor a register packet, and is no console output;
    the packets after it are still to be read, and nothing else of the
    session has changed. *)
Theorem remote_get_noisy_reply_returns (s s' : session) (buf : string) :
  remote_get_noisy_reply s = (s', Returned buf) →
  ∃ noise rest,
    replies s = noise ++ buf :: rest ∧
    Forall console_packet noise ∧
    s' = with_console (with_replies s rest)
           (console s ++ (advance 1 <$> noise)) ∧
    buf ≠ "" ∧ char_is buf "E" = false ∧ char_is buf "R" = false ∧
    (char_is buf "O" = true → char_is (advance 1 buf) "K" = true).
Proof.
  unfold remote_get_noisy_reply.
  assert (Hloop : ∀ pending s0,
            noisy_reply_loop pending s0 = (s', Returned buf) →
            ∃ noise rest,
              pending = noise ++ buf :: rest ∧
              Forall console_packet noise ∧
              s' = with_console (with_replies s0 rest)
                     (console s0 ++ (advance 1 <$> noise)) ∧
              buf ≠ "" ∧ char_is buf "E" = false ∧ char_is buf "R" = false ∧
              (char_is buf "O" = true → char_is (advance 1 buf) "K" = true)).
  { clear. induction pending as [|b pending IH]; intros s0 H.
    - discriminate.
    - cbn [noisy_reply_loop] in H.
      unfold mbind, command_bind, modify, lift, error, mret, command_ret in H.
      cbv beta iota in H.
      destruct (char_is b NUL) eqn:Hnul; [discriminate|].
      destruct (char_is b "E") eqn:HE.
      { destruct (trace_error_raises b HE) as [e He]. rewrite He in H.
        discriminate. }
      destruct (char_is b "R") eqn:HR.
      { destruct (char_is_inv _ _ HR) as [rest ->]; [discriminate|].
        unfold trace_receive_regs in H.
        cbn [String.length trace_receive_regs_loop] in H.
        change (char_is (String "R" rest) NUL) with false in H.
        cbv iota in H.
        rewrite strtol_unchanged in H by reflexivity.
        rewrite Nat.eqb_refl in H. discriminate. }
      destruct (char_is b "O" && negb (char_is (advance 1 b) "K")) eqn:HO.
      + apply IH in H.
        destruct H as (noise & rest & -> & Hnoise & -> & Hrest).
        exists (b :: noise), rest. split; [reflexivity|].
        apply andb_true_iff in HO. destruct HO as [HO HK].
        apply negb_true_iff in HK.
        split; [constructor; [split; assumption | exact Hnoise]|].
        split; [|exact Hrest].
        cbn [with_console with_replies console replies tracepoint_chain
             tracepoint_count traceframe_number tracepoint_number
             traceframe_fun traceframe_sal internalvars target_remote sent
             current_frame_pc fmap list_fmap].
        rewrite <- app_assoc. reflexivity.
      + injection H as <- <-. exists [], pending.
        split; [reflexivity|]. split; [constructor|].
        split.
        { cbn [fmap list_fmap]. rewrite app_nil_r. destruct s0; reflexivity. }
        split.
        { intros ->. vm_compute in Hnul. discriminate Hnul. }
        split; [exact HE|]. split; [exact HR|].
        intros HOb. rewrite HOb in HO. cbn [andb] in HO.
        apply negb_false_iff in HO. exact HO. }
  intros H. apply Hloop in H. exact H.
Qed.

Lemma same_but_traffic_refl (s : session) : same_but_traffic s s.
Proof. unfold same_but_traffic. tauto. Qed.

Lemma same_but_traffic_trans (s1 s2 s3 : session) :
  same_but_traffic s1 s2 → same_but_traffic s2 s3 → same_but_traffic s1 s3.
Proof. unfold same_but_traffic. intuition congruence. Qed.

Lemma putpkt_traffic (buf : string) (s : session) :
  same_but_traffic s (with_sent s (sent s ++ [buf])).
Proof. unfold same_but_traffic. cbn. tauto. Qed.

Lemma noisy_reply_loop_traffic (pending : list string) :
  ∀ (s s' : session) (r : outcome string),
    noisy_reply_loop pending s = (s', r) → same_but_traffic s s'.
Proof.
  induction pending as [|buf pending IH]; intros s s' r H.
  - injection H as <- _. apply same_but_traffic_refl.
  - cbn [noisy_reply_loop] in H. unfold_command H.
    assert (H0 : same_but_traffic s (with_replies s pending))
      by (unfold same_but_traffic; cbn; tauto).
    destruct (char_is buf NUL); [injection H as <- _; exact H0|].
    destruct (char_is buf "E").
    { destruct (trace_error buf).
      - injection H as <- _. exact H0.
      - apply IH in H. eapply same_but_traffic_trans; eassumption. }
    destruct (char_is buf "R").
    { destruct (trace_receive_regs buf);
        try (injection H as <- _; exact H0).
      apply IH in H. eapply same_but_traffic_trans; eassumption. }
    destruct (_ && _).
    + apply IH in H. eapply same_but_traffic_trans; [exact H0|].
      eapply same_but_traffic_trans; [|exact H].
      unfold same_but_traffic; cbn; tauto.
    + injection H as <- _. exact H0.
Qed.

Lemma remote_get_noisy_reply_traffic (s s' : session) (r : outcome string) :
  remote_get_noisy_reply s = (s', r) → same_but_traffic s s'.
Proof. apply noisy_reply_loop_traffic. Qed.

(** Sending a packet and waiting for its reply. *)
Lemma exchange_traffic (buf : string) (s s' : session) (r : outcome string) :
  remote_get_noisy_reply (with_sent s (sent s ++ [buf])) = (s', r) →
  same_but_traffic s s' ∧ sent s' = sent s ++ [buf].
Proof.
  intros H. split.
  - eapply same_but_traffic_trans; [apply putpkt_traffic|].
    eapply remote_get_noisy_reply_traffic. exact H.
  - apply remote_get_noisy_reply_keeps in H. destruct H as [_ H]. exact H.
Qed.

Lemma send_tracepoint_traffic (t : tracepoint) (s s' : session)
    (r : outcome unit) :
  send_tracepoint t s = (s', r) →
  same_but_traffic s s' ∧
  (r = Returned tt →
   ∃ buf, qtdp_packet t = Returned buf ∧ sent s' = sent s ++ [buf]).
Proof.
  unfold send_tracepoint. intros H. unfold_command H.
  destruct (qtdp_packet t) as [buf| | |];
    try (injection H as <- <-;
         split; [apply same_but_traffic_refl | discriminate]).
  destruct (remote_get_noisy_reply _) as [s1 r1] eqn:E.
  apply exchange_traffic in E. destruct E as [Ht Hs].
  assert (s' = s1) as ->.
  { destruct r1; try (injection H as <- _; reflexivity).
    destruct (bool_decide _); injection H as <- _; reflexivity. }
  split; [exact Ht|]. intros _. eauto.
Qed.

Lemma send_tracepoints_traffic (chain : list tracepoint) :
  ∀ (s s' : session) (r : outcome unit),
    send_tracepoints chain s = (s', r) →
    same_but_traffic s s' ∧
    (r = Returned tt →
     ∃ pkts, Forall2 (fun t p => qtdp_packet t = Returned p) chain pkts ∧
             sent s' = sent s ++ pkts).
Proof.
  induction chain as [|t chain IH]; intros s s' r H.
  - injection H as <- <-. split; [apply same_but_traffic_refl|].
    intros _. exists []. rewrite app_nil_r. split; [constructor|reflexivity].
  - cbn [send_tracepoints] in H. unfold mbind, command_bind in H.
    destruct (send_tracepoint t s) as [s0 r0] eqn:E0.
    apply send_tracepoint_traffic in E0. destruct E0 as [Ht0 Hs0].
    destruct r0 as [[]| | |];
      try (injection H as <- <-; split; [exact Ht0 | discriminate]).
    apply IH in H. destruct H as [Ht Hs].
    split; [eapply same_but_traffic_trans; eassumption|].
    intros Hr. destruct (Hs Hr) as (pkts & Hall & Hsent).
    destruct (Hs0 eq_refl) as (buf & Hbuf & Hsent0).
    exists (buf :: pkts). split; [constructor; assumption|].
    rewrite Hsent, Hsent0, <- app_assoc. reflexivity.
Qed.

(** X13.  A tstart that returns has sent QTinit, then one QTDP packet
    for each tracepoint of the chain, in the order of the chain, then
    QTStart, and nothing else; the registry is as it was. *)
Theorem trace_start_command_sends (s s' : session) :
  target_remote s = true →
  trace_start_command s = (s', Returned tt) →
  ∃ pkts,
    Forall2 (fun t p => qtdp_packet t = Returned p) (tracepoint_chain s) pkts ∧
    sent s' = sent s ++ "QTinit" :: pkts ++ ["QTStart"] ∧
    tracepoint_chain s' = tracepoint_chain s ∧
    tracepoint_count s' = tracepoint_count s.
Proof.
  intros Hremote H. unfold trace_start_command in H.
  unfold_command H. rewrite Hremote in H. unfold_command H.
  destruct (remote_get_noisy_reply _) as [s2 [reply2| | |]] eqn:E2;
    try discriminate.
  apply exchange_traffic in E2. destruct E2 as [Ht2 Hs2].
  destruct (bool_decide (reply2 = "OK")); cbn [negb] in H; [|discriminate].
  destruct (send_tracepoints _ s2) as [s3 [[]| | |]] eqn:E3; try discriminate.
  apply send_tracepoints_traffic in E3. destruct E3 as [Ht3 Hs3].
  destruct (Hs3 eq_refl) as (pkts & Hall & Hsent3).
  destruct (remote_get_noisy_reply _) as [s4 [reply4| | |]] eqn:E4;
    try discriminate.
  apply exchange_traffic in E4. destruct E4 as [Ht4 Hs4].
  destruct (bool_decide (reply4 = "OK")); cbn [negb] in H; [|discriminate].
  injection H as <-.
  exists pkts. split; [exact Hall|].
  assert (Hcur : ∀ s0, sent (set_traceframe_context end_of_trace_pc
                        (set_tracepoint_num (-1) (set_traceframe_num (-1) s0)))
                       = sent s0 ∧
                 tracepoint_chain (set_traceframe_context end_of_trace_pc
                        (set_tracepoint_num (-1) (set_traceframe_num (-1) s0)))
                       = tracepoint_chain s0 ∧
                 tracepoint_count (set_traceframe_context end_of_trace_pc
                        (set_tracepoint_num (-1) (set_traceframe_num (-1) s0)))
                       = tracepoint_count s0).
  { intros s0. unfold set_traceframe_context.
    destruct (_ =? minus_one_addr); split; [|split| |split]; reflexivity. }
  destruct (Hcur s4) as (-> & -> & ->).
  destruct Ht2 as (Hc2 & Hn2 & _), Ht3 as (Hc3 & Hn3 & _),
    Ht4 as (Hc4 & Hn4 & _).
  split; [|split; congruence].
  rewrite Hs4, Hsent3, Hs2. rewrite <- !app_assoc. reflexivity.
Qed.

Lemma cursor_update_keeps (pc frameno tracept : Z) (s : session) :
  let s' := set_traceframe_context pc
              (set_tracepoint_num tracept (set_traceframe_num frameno s)) in
  tracepoint_chain s' = tracepoint_chain s ∧
  tracepoint_count s' = tracepoint_count s.
Proof.
  unfold set_traceframe_context.
  destruct (pc =? minus_one_addr); split; reflexivity.
Qed.

Lemma finish_tfind_command_keeps (reply : string) (s s' : session)
    (r : outcome unit) :
  finish_tfind_command reply s = (s', r) →
  (tracepoint_chain s' = tracepoint_chain s ∧
   tracepoint_count s' = tracepoint_count s) ∧
  (r ≠ Returned tt → s' = s).
Proof.
  unfold finish_tfind_command. intros H. unfold_command H.
  destruct (parse_tfind_reply _ _ _ _) as [[frameno tracept]| | |];
    try (injection H as <- <-; split; [split; reflexivity | reflexivity]).
  injection H as <- <-. split; [|intros Hr; contradiction].
  apply (cursor_update_keeps (current_frame_pc s) frameno tracept s).
Qed.

(** A packet sent, its reply awaited, and the reply handed to
    finish_tfind_command. *)
Lemma tfind_exchange_keeps (buf : string) (s s' : session)
    (r : outcome unit) :
  (let (s1, o) := remote_get_noisy_reply (with_sent s (sent s ++ [buf])) in
   match o with
   | Returned tmp => finish_tfind_command tmp s1
   | Raised e => (s1, Raised e)
   | Undefined w => (s1, Undefined w)
   | Diverges => (s1, Diverges)
   end) = (s', r) →
  (tracepoint_chain s' = tracepoint_chain s ∧
   tracepoint_count s' = tracepoint_count s) ∧
  (r ≠ Returned tt → same_but_traffic s s').
Proof.
  destruct (remote_get_noisy_reply _) as [s1 o] eqn:E.
  apply exchange_traffic in E. destruct E as [Ht _].
  assert (Hkeep : tracepoint_chain s1 = tracepoint_chain s ∧
                  tracepoint_count s1 = tracepoint_count s)
    by (destruct Ht as (? & ? & _); split; assumption).
  destruct o as [tmp| | |];
    try (intros [= <- <-]; split; [exact Hkeep | intros _; exact Ht]).
  intros H. apply finish_tfind_command_keeps in H.
  destruct H as [[Hc Hn] Hfail].
  split; [split; destruct Hkeep; congruence|].
  intros Hr. rewrite (Hfail Hr). exact Ht.
Qed.

Ltac stop_here H Hs :=
  injection H as <- <-;
  split; [split; reflexivity | intros _; exact Hs].

(** X14.  No command that talks to the stub (tstart, tstop, tstatus and
    the tfind commands) changes the tracepoint chain or
    tracepoint_count, whatever its outcome; and one that does not return
    leaves the trace-frame cursor and the convenience variables as they
    were too: only the packets sent, the replies read and the console
    output can differ. *)
Theorem protocol_command_keeps (c : command unit) (s s' : session)
    (r : outcome unit) :
  protocol_command c →
  c s = (s', r) →
  (tracepoint_chain s' = tracepoint_chain s ∧
   tracepoint_count s' = tracepoint_count s) ∧
  (r ≠ Returned tt → same_but_traffic s s').
Proof.
  pose proof (same_but_traffic_refl s) as Hrefl.
  assert (Hquery : ∀ packet, trace_query_command packet s = (s', r) →
            (tracepoint_chain s' = tracepoint_chain s ∧
             tracepoint_count s' = tracepoint_count s) ∧
            (r ≠ Returned tt → same_but_traffic s s')).
  { intros packet H. unfold trace_query_command in H. unfold_command H.
    destruct (target_remote s); unfold_command H; [|stop_here H Hrefl].
    destruct (remote_get_noisy_reply _) as [s1 o] eqn:E.
    apply exchange_traffic in E. destruct E as [Ht _].
    assert (s' = s1) as ->.
    { destruct o; try (injection H as <- _; reflexivity).
      destruct (bool_decide _); injection H as <- _; reflexivity. }
    split; [destruct Ht as (? & ? & _); split; assumption | intros _; exact Ht]. }
  assert (Hpair : ∀ keyword args,
            trace_find_pair_command keyword args s = (s', r) →
            (tracepoint_chain s' = tracepoint_chain s ∧
             tracepoint_count s' = tracepoint_count s) ∧
            (r ≠ Returned tt → same_but_traffic s s')).
  { intros keyword args H. unfold trace_find_pair_command in H.
    unfold_command H.
    destruct (target_remote s); unfold_command H; [|stop_here H Hrefl].
    destruct args as [[|a args]|]; try stop_here H Hrefl.
    unfold_command H.
    destruct (parse_address_pair _) as [[start stop]| | |];
      try stop_here H Hrefl.
    apply tfind_exchange_keeps in H. exact H. }
  intros Hc H. destruct Hc as [| | |args|args read_pc|args|args|args].
  - (* tstart *)
    unfold trace_start_command in H. unfold_command H.
    destruct (target_remote s); unfold_command H; [|stop_here H Hrefl].
    destruct (remote_get_noisy_reply _) as [s2 o2] eqn:E2.
    apply exchange_traffic in E2. destruct E2 as [Ht2 _].
    assert (Hstop : ∀ s0 r0, same_but_traffic s s0 → r0 ≠ Returned tt →
              (s0, r0) = (s', r) →
              (tracepoint_chain s' = tracepoint_chain s ∧
               tracepoint_count s' = tracepoint_count s) ∧
              (r ≠ Returned tt → same_but_traffic s s')).
    { intros s0 r0 Ht0 _ [= <- <-].
      split; [destruct Ht0 as (? & ? & _); split; assumption|].
      intros _. exact Ht0. }
    destruct o2 as [reply2| | |];
      try (eapply Hstop; [exact Ht2| |exact H]; discriminate).
    destruct (bool_decide (reply2 = "OK")); cbn [negb] in H;
      [|eapply Hstop; [exact Ht2| |exact H]; discriminate].
    destruct (send_tracepoints _ s2) as [s3 o3] eqn:E3.
    apply send_tracepoints_traffic in E3. destruct E3 as [Ht3 _].
    pose proof (same_but_traffic_trans _ _ _ Ht2 Ht3) as Ht23.
    destruct o3 as [[]| | |];
      try (eapply Hstop; [exact Ht23| |exact H]; discriminate).
    destruct (remote_get_noisy_reply _) as [s4 o4] eqn:E4.
    apply exchange_traffic in E4. destruct E4 as [Ht4 _].
    pose proof (same_but_traffic_trans _ _ _ Ht23 Ht4) as Ht234.
    destruct o4 as [reply4| | |];
      try (eapply Hstop; [exact Ht234| |exact H]; discriminate).
    destruct (bool_decide (reply4 = "OK")); cbn [negb] in H;
      [|eapply Hstop; [exact Ht234| |exact H]; discriminate].
    injection H as <- <-. split; [|intros Hr; contradiction].
    destruct (cursor_update_keeps end_of_trace_pc (-1) (-1) s4) as [-> ->].
    destruct Ht234 as (? & ? & _); split; assumption.
  - apply (Hquery _ H).
  - apply (Hquery _ H).
  - (* tfind *)
    unfold trace_find_command in H. unfold_command H.
    destruct (target_remote s); unfold_command H; [|stop_here H Hrefl].
    match type of H with
    | (let (s0, o) := ?m s in _) = _ =>
      assert (Hm : ∃ o, m s = (s, o)); [|destruct Hm as [o Hm]; rewrite Hm in H]
    end.
    { destruct args as [[|a args]|].
      - destruct (_ =? -1); eexists; reflexivity.
      - destruct (bool_decide _).
        + destruct (_ =? -1); [eexists; reflexivity|].
          destruct (_ =? 0); eexists; reflexivity.
        + eexists; reflexivity.
      - destruct (_ =? -1); eexists; reflexivity. }
    destruct o as [frameno| | |]; try stop_here H Hrefl.
    unfold_command H.
    destruct (frameno =? -1); [|apply tfind_exchange_keeps in H; exact H].
    destruct (remote_get_noisy_reply _) as [s1 o1] eqn:E.
    apply exchange_traffic in E. destruct E as [Ht _].
    assert (Hkeep : tracepoint_chain s1 = tracepoint_chain s ∧
                    tracepoint_count s1 = tracepoint_count s)
      by (destruct Ht as (? & ? & _); split; assumption).
    destruct o1 as [tmp| | |];
      try (injection H as <- <-; split; [exact Hkeep | intros _; exact Ht]).
    destruct (bool_decide (tmp = "F-1")); cbn [negb] in H;
      [|injection H as <- <-; split; [exact Hkeep | intros _; exact Ht]].
    injection H as <- <-. split; [|intros Hr; contradiction].
    destruct (cursor_update_keeps end_of_trace_pc (-1) (-1) s1) as [-> ->].
    exact Hkeep.
  - (* tfind pc *)
    unfold trace_find_pc_command in H. unfold_command H.
    destruct (target_remote s); unfold_command H; [|stop_here H Hrefl].
    match type of H with
    | (let (s0, o) := ?m s in _) = _ =>
      assert (Hm : ∃ o, m s = (s, o)); [|destruct Hm as [o Hm]; rewrite Hm in H]
    end.
    { destruct args as [[|a args]|]; eexists; reflexivity. }
    destruct o as [pc| | |]; try stop_here H Hrefl.
    unfold_command H. apply tfind_exchange_keeps in H. exact H.
  - (* tfind tracepoint *)
    unfold trace_find_tracepoint_command in H. unfold_command H.
    destruct (target_remote s); unfold_command H; [|stop_here H Hrefl].
    match type of H with
    | (let (s0, o) := ?m s in _) = _ =>
      assert (Hm : ∃ o, m s = (s, o)); [|destruct Hm as [o Hm]; rewrite Hm in H]
    end.
    { destruct args as [[|a args]|];
        try (destruct (_ =? -1)); eexists; reflexivity. }
    destruct o as [tdp| | |]; try stop_here H Hrefl.
    unfold_command H. apply tfind_exchange_keeps in H. exact H.
  - apply (Hpair _ _ H).
  - apply (Hpair _ _ H).
Qed.

End ProtocolMore.

(** ** More on the action validator, and the reader of actions *)

Section ActionsReader.
Context `{T : Target} `{Co : Collaborators}.

Lemma same_but_actions_refl (t : tracepoint) : same_but_actions t t.
Proof. unfold same_but_actions. tauto. Qed.

Lemma same_but_actions_trans (t1 t2 t3 : tracepoint) :
  same_but_actions t1 t2 → same_but_actions t2 t3 → same_but_actions t1 t3.
Proof. unfold same_but_actions. intuition congruence. Qed.

(** X15.  What validate_actionline does to the tracepoint: a line it
    accepts as GENERIC or END leaves the tracepoint as it was; a line it
    accepts as STEPPING changes the step count and nothing else, to a
    count that is not zero. *)
Theorem validate_actionline_accepts (line : string) (t t' : tracepoint)
    (verdict : actionline_type) :
  validate_actionline line t = Returned (verdict, t') →
  verdict ≠ BADLINE →
  (verdict = STEPPING →
   t' = set_step_count t (step_count t') ∧ step_count t' ≠ 0) ∧
  (verdict ≠ STEPPING → t' = t).
Proof.
  unfold validate_actionline.
  destruct (char_is (skip_spaces line) NUL).
  { intros [= <- <-] Hv. contradiction. }
  destruct (strncasecmp_eq (skip_spaces line) "collect" 7).
  { intros H Hv. case_outcome H. injection H as <- <-.
    split; [|reflexivity]. intros ->.
    (* validate_collect never answers STEPPING *)
    exfalso. revert E.
    generalize (advance 7 (skip_spaces line)).
    generalize (S (String.length (skip_spaces line))).
    intros fuel. induction fuel as [|fuel IH]; intros p H; [discriminate|].
    cbn [validate_collect] in H. case_outcome H.
    destruct a as [v|[p'|]]; try discriminate.
    - injection H as ->.
      destruct (char_is (skip_spaces p) "$").
      + destruct (_ || _); [discriminate|].
        destruct (char_is _ "("); [|discriminate].
        case_outcome E. destruct a as [[[? ?] ?] ?]. discriminate.
      + case_outcome E. destruct a as [exp used].
        destruct exp as [sym|n|]; try discriminate.
        destruct (decide _); [discriminate|].
        destruct (decide _); discriminate.
    - destruct (char_is p' ","); [|discriminate]. eapply IH. exact H. }
  destruct (strncasecmp_eq (skip_spaces line) "while-stepping" 14).
  { destruct (negb _).
    - destruct (_ =? 0) eqn:Hz; intros [= <- <-] Hv; [contradiction|].
      cbn [step_count set_step_count] in Hz. apply Z.eqb_neq in Hz.
      split; [|intros Hn; contradiction]. intros _. split; [reflexivity|].
      exact Hz.
    - intros [= <- <-] Hv. split; [|intros Hn; contradiction]. intros _.
      split; [reflexivity|]. cbn. discriminate. }
  destruct (strncasecmp_eq (skip_spaces line) "end" 3).
  { intros [= <- <-] Hv. split; [discriminate|reflexivity]. }
  intros [= <- <-] Hv. contradiction.
Qed.

(** validate_actionline changes at most the step count, and its verdict
    depends on the address of the tracepoint alone. *)
Lemma validate_actionline_step_count (line : string) (t t' : tracepoint)
    (verdict : actionline_type) :
  validate_actionline line t = Returned (verdict, t') →
  same_but_actions t t' ∧ actions t' = actions t.
Proof.
  assert (Hstep : ∀ n, same_but_actions t (set_step_count t n) ∧
                       actions (set_step_count t n) = actions t).
  { intros n. split; [unfold same_but_actions; cbn; tauto | reflexivity]. }
  assert (Hsame : same_but_actions t t ∧ actions t = actions t)
    by (split; [apply same_but_actions_refl | reflexivity]).
  unfold validate_actionline.
  destruct (char_is (skip_spaces line) NUL).
  { intros [= _ <-]. exact Hsame. }
  destruct (strncasecmp_eq (skip_spaces line) "collect" 7).
  { intros H. case_outcome H. injection H as _ <-. exact Hsame. }
  destruct (strncasecmp_eq (skip_spaces line) "while-stepping" 14).
  { destruct (negb _).
    - destruct (_ =? 0); intros [= _ <-]; apply Hstep.
    - intros [= _ <-]. apply Hstep. }
  destruct (strncasecmp_eq (skip_spaces line) "end" 3);
    intros [= _ <-]; exact Hsame.
Qed.

Lemma linetype_of_address (line : string) (t1 t2 : tracepoint) :
  address t1 = address t2 → linetype_of line t1 = linetype_of line t2.
Proof.
  intros Ha. unfold linetype_of, validate_actionline. rewrite Ha.
  destruct (char_is (skip_spaces line) NUL); [reflexivity|].
  destruct (strncasecmp_eq (skip_spaces line) "collect" 7).
  { destruct (validate_collect _ _ _); reflexivity. }
  destruct (strncasecmp_eq (skip_spaces line) "while-stepping" 14).
  { destruct (negb _); [|reflexivity].
    cbn [step_count set_step_count]. destruct (_ =? 0); reflexivity. }
  destruct (strncasecmp_eq (skip_spaces line) "end" 3); reflexivity.
Qed.

Lemma stored_line_address (t1 t2 : tracepoint) (lines : list string) :
  address t1 = address t2 →
  List.filter (stored_line t1) lines = List.filter (stored_line t2) lines.
Proof.
  intros Ha. apply List.filter_ext. intros line. unfold stored_line.
  rewrite (linetype_of_address line t1 t2 Ha). reflexivity.
Qed.

(** One line read by read_actions: what validate_actionline_at returns
    for the tracepoint at position [i]. *)
Lemma validate_actionline_at_inv (line : string) (i : nat) (s s1 : session)
    (t : tracepoint) (verdict : actionline_type) :
  tracepoint_chain s !! i = Some t →
  validate_actionline_at line i s = Returned (verdict, s1) →
  ∃ t1, s1 = with_tracepoint_chain s (<[i := t1]> (tracepoint_chain s)) ∧
        linetype_of line t = Returned verdict ∧
        same_but_actions t t1 ∧ actions t1 = actions t.
Proof.
  intros Ht H. unfold validate_actionline_at in H. rewrite Ht in H.
  case_outcome H. destruct a as [v t1]. injection H as -> <-.
  exists t1. split; [reflexivity|].
  split; [unfold linetype_of; rewrite E; reflexivity|].
  eapply validate_actionline_step_count. exact E.
Qed.

Lemma store_action_inv (i : nat) (next : bool) (line : string)
    (s : session) (t1 : tracepoint) :
  (i < length (tracepoint_chain s))%nat →
  store_action i next line
    (with_tracepoint_chain s (<[i := t1]> (tracepoint_chain s)))
  = with_tracepoint_chain s
      (<[i := set_actions t1 (if next then actions t1 ++ [line] else [line])]>
         (tracepoint_chain s)).
Proof.
  intros Hi. unfold store_action.
  cbn [with_tracepoint_chain tracepoint_chain tracepoint_count
       traceframe_number tracepoint_number traceframe_fun traceframe_sal
       internalvars target_remote sent replies console current_frame_pc].
  f_equal. apply list_eq. intros j.
  rewrite list_lookup_alter.
  destruct (decide (i = j)) as [<-|Hne].
  - rewrite !list_lookup_insert_eq by exact Hi. reflexivity.
  - rewrite !list_lookup_insert_ne by exact Hne. reflexivity.
Qed.

(** What the loop of read_actions has done when it returns. *)
Lemma read_actions_loop_returns (input : list string) (i : nat) :
  ∀ (next stepping : bool) (s s' : session) (rest : list string)
    (t : tracepoint),
    tracepoint_chain s !! i = Some t →
    read_actions_loop input i next stepping s = (s', Returned rest) →
    ∃ consumed last t',
      input = consumed ++ last :: rest ∧
      linetype_of last t = Returned END ∧
      s' = with_tracepoint_chain s (<[i := t']> (tracepoint_chain s)) ∧
      same_but_actions t t' ∧
      actions t' = (if next then actions t else [])
                   ++ List.filter (stored_line t) (consumed ++ [last]).
Proof.
  induction input as [|line input IH]; intros next stepping s s' rest t Ht H.
  - discriminate.
  - cbn [read_actions_loop] in H. unfold_command H.
    destruct (validate_actionline_at line i s) as [[verdict s1]| | |] eqn:E;
      try discriminate.
    destruct (validate_actionline_at_inv _ _ _ _ _ _ Ht E)
      as (t1 & -> & Hv & Hsame & Hact).
    pose proof (lookup_lt_Some _ _ _ Ht) as Hi.
    assert (Haddr : address t1 = address t) by (destruct Hsame as (_ & ? & _); assumption).
    assert (Hstored : stored_line t line
                      = match verdict with BADLINE => false | _ => true end).
    { unfold stored_line. rewrite Hv. destruct verdict; reflexivity. }
    assert (Hcont : ∀ (t2 : tracepoint) (next' stepping' : bool),
              same_but_actions t t2 →
              (if next' then actions t2 else [])
              = (if next then actions t else [])
                ++ (if stored_line t line then [line] else []) →
              read_actions_loop input i next' stepping'
                (with_tracepoint_chain s (<[i := t2]> (tracepoint_chain s)))
              = (s', Returned rest) →
              ∃ consumed last t',
                line :: input = consumed ++ last :: rest ∧
                linetype_of last t = Returned END ∧
                s' = with_tracepoint_chain s (<[i := t']> (tracepoint_chain s)) ∧
                same_but_actions t t' ∧
                actions t' = (if next then actions t else [])
                             ++ List.filter (stored_line t) (consumed ++ [last])).
    { intros t2 next' stepping' Hsame2 Hact2 Hloop.
      assert (Ht2 : tracepoint_chain
                      (with_tracepoint_chain s (<[i := t2]> (tracepoint_chain s)))
                    !! i = Some t2).
      { cbn. apply list_lookup_insert_eq. exact Hi. }
      destruct (IH _ _ _ _ _ _ Ht2 Hloop)
        as (consumed & last & t' & -> & Hlast & -> & Hsame' & Hact').
      assert (Haddr2 : address t2 = address t)
        by (destruct Hsame2 as (_ & ? & _); assumption).
      exists (line :: consumed), last, t'.
      split; [reflexivity|].
      split; [rewrite <- (linetype_of_address last t2 t Haddr2); exact Hlast|].
      split.
      { cbn [with_tracepoint_chain tracepoint_chain tracepoint_count
             traceframe_number tracepoint_number traceframe_fun traceframe_sal
             internalvars target_remote sent replies console current_frame_pc].
        rewrite list_insert_insert_eq. reflexivity. }
      split; [eapply same_but_actions_trans; eassumption|].
      rewrite Hact', Hact2. rewrite (stored_line_address t2 t _ Haddr2).
      cbn [app List.filter].
      destruct (stored_line t line); rewrite <- app_assoc; reflexivity. }
    assert (Hstore : ∀ stepping',
              stored_line t line = true →
              read_actions_loop input i true stepping'
                (store_action i next line
                   (with_tracepoint_chain s (<[i := t1]> (tracepoint_chain s))))
              = (s', Returned rest) →
              ∃ consumed last t',
                line :: input = consumed ++ last :: rest ∧
                linetype_of last t = Returned END ∧
                s' = with_tracepoint_chain s (<[i := t']> (tracepoint_chain s)) ∧
                same_but_actions t t' ∧
                actions t' = (if next then actions t else [])
                             ++ List.filter (stored_line t) (consumed ++ [last])).
    { intros stepping' Hst Hloop. rewrite store_action_inv in Hloop by exact Hi.
      eapply Hcont; [| |exact Hloop].
      - eapply same_but_actions_trans; [exact Hsame|].
        unfold same_but_actions. cbn. tauto.
      - rewrite Hst. cbn [actions set_actions]. rewrite Hact.
        destruct next; reflexivity. }
    destruct verdict.
    + (* BADLINE *)
      apply (Hcont t1 next stepping); [exact Hsame| |exact H].
      rewrite Hstored, app_nil_r, Hact. reflexivity.
    + apply (Hstore stepping); [rewrite Hstored; reflexivity | exact H].
    + (* END *)
      destruct stepping.
      * apply (Hstore false); [rewrite Hstored; reflexivity | exact H].
      * rewrite store_action_inv in H by exact Hi.
        injection H as <- <-. exists [], line. eexists.
        split; [reflexivity|]. split; [exact Hv|].
        split; [reflexivity|]. split.
        { eapply same_but_actions_trans; [exact Hsame|].
          unfold same_but_actions. cbn. tauto. }
        cbn [actions set_actions app List.filter]. rewrite Hstored, Hact.
        destruct next; reflexivity.
    + apply (Hstore true); [rewrite Hstored; reflexivity | exact H].
Qed.

(** What the loop of read_actions has done when validate_actionline has
    raised an error. *)
Lemma read_actions_loop_raises (input : list string) (i : nat) :
  ∀ (next stepping : bool) (s s' : session) (e : gdb_error)
    (t : tracepoint),
    tracepoint_chain s !! i = Some t →
    read_actions_loop input i next stepping s = (s', Raised e) →
    ∃ t', s' = with_tracepoint_chain s (<[i := t']> (tracepoint_chain s)) ∧
          same_but_actions t t' ∧ actions t' = [].
Proof.
  induction input as [|line input IH]; intros next stepping s s' e t Ht H.
  - discriminate.
  - cbn [read_actions_loop] in H. unfold_command H.
    pose proof (lookup_lt_Some _ _ _ Ht) as Hi.
    destruct (validate_actionline_at line i s) as [[verdict s1]|e1| |] eqn:E;
      try discriminate.
    + destruct (validate_actionline_at_inv _ _ _ _ _ _ Ht E)
        as (t1 & -> & Hv & Hsame & Hact).
      assert (Hcont : ∀ (t2 : tracepoint) (next' stepping' : bool),
                same_but_actions t t2 →
                read_actions_loop input i next' stepping'
                  (with_tracepoint_chain s (<[i := t2]> (tracepoint_chain s)))
                = (s', Raised e) →
                ∃ t', s' = with_tracepoint_chain s
                             (<[i := t']> (tracepoint_chain s)) ∧
                      same_but_actions t t' ∧ actions t' = []).
      { intros t2 next' stepping' Hsame2 Hloop.
        assert (Ht2 : tracepoint_chain
                        (with_tracepoint_chain s
                           (<[i := t2]> (tracepoint_chain s))) !! i = Some t2).
        { cbn. apply list_lookup_insert_eq. exact Hi. }
        destruct (IH _ _ _ _ _ _ Ht2 Hloop) as (t' & -> & Hsame' & Hact').
        exists t'. split.
        { cbn [with_tracepoint_chain tracepoint_chain tracepoint_count
               traceframe_number tracepoint_number traceframe_fun
               traceframe_sal internalvars target_remote sent replies console
               current_frame_pc].
          rewrite list_insert_insert_eq. reflexivity. }
        split; [eapply same_but_actions_trans; eassumption | exact Hact']. }
      assert (Hstore : ∀ stepping',
                read_actions_loop input i true stepping'
                  (store_action i next line
                     (with_tracepoint_chain s
                        (<[i := t1]> (tracepoint_chain s))))
                = (s', Raised e) →
                ∃ t', s' = with_tracepoint_chain s
                             (<[i := t']> (tracepoint_chain s)) ∧
                      same_but_actions t t' ∧ actions t' = []).
      { intros stepping' Hloop.
        rewrite store_action_inv in Hloop by exact Hi.
        eapply Hcont; [|exact Hloop].
        eapply same_but_actions_trans; [exact Hsame|].
        unfold same_but_actions. cbn. tauto. }
      destruct verdict.
      * apply (Hcont t1 next stepping); [exact Hsame | exact H].
      * apply (Hstore stepping). exact H.
      * destruct stepping; [apply (Hstore false); exact H | discriminate].
      * apply (Hstore true). exact H.
    + (* the cleanup *)
      injection H as <- <-. exists (set_actions t []).
      split.
      { unfold free_actions. f_equal. apply list_eq. intros j.
        rewrite list_lookup_alter.
        destruct (decide (i = j)) as [<-|Hne].
        - rewrite list_lookup_insert_eq by exact Hi. rewrite Ht. reflexivity.
        - rewrite list_lookup_insert_ne by exact Hne. reflexivity. }
      split; [unfold same_but_actions; cbn; tauto | reflexivity].
Qed.

Lemma get_tracepoint_by_number_found (arg : option string) (s : session)
    (i : nat) (rest : option string) :
  get_tracepoint_by_number arg s = Returned (Some i, rest) →
  ∃ t, tracepoint_chain s !! i = Some t.
Proof.
  unfold get_tracepoint_by_number. intros H. case_outcome H.
  destruct a as [tpnum arg']. injection H as H _.
  destruct (list_find _ _) as [[j t]|] eqn:Hf; [|discriminate].
  injection H as ->. apply list_find_Some in Hf. destruct Hf as [Hj _].
  eauto.
Qed.

Lemma free_actions_inv (i : nat) (s : session) (t : tracepoint) :
  tracepoint_chain s !! i = Some t →
  free_actions i s
  = with_tracepoint_chain s (<[i := set_actions t []]> (tracepoint_chain s)).
Proof.
  intros Ht. pose proof (lookup_lt_Some _ _ _ Ht) as Hi.
  unfold free_actions. f_equal. apply list_eq. intros j.
  rewrite list_lookup_alter.
  destruct (decide (i = j)) as [<-|Hne].
  - rewrite list_lookup_insert_eq by exact Hi. rewrite Ht. reflexivity.
  - rewrite list_lookup_insert_ne by exact Hne. reflexivity.
Qed.

(** X16.  When the actions command returns for a tracepoint, it has
    read the input up to and including a line judged END, and the action
    list of the tracepoint is then exactly the lines read that were not
    judged BADLINE, in the order read, whatever the list held before.  Of the session only that
    tracepoint has changed, and of the tracepoint only the action list
    and the step count. *)
Theorem trace_actions_command_stores (args rest_arg : option string)
    (input rest : list string) (i : nat) (s s' : session) :
  get_tracepoint_by_number args s = Returned (Some i, rest_arg) →
  trace_actions_command args input s = (s', Returned rest) →
  ∃ consumed last t t',
    input = consumed ++ last :: rest ∧
    linetype_of last t = Returned END ∧
    tracepoint_chain s !! i = Some t ∧
    s' = with_tracepoint_chain s (<[i := t']> (tracepoint_chain s)) ∧
    same_but_actions t t' ∧
    actions t' = List.filter (stored_line t) (consumed ++ [last]).
Proof.
  intros Hget H.
  destruct (get_tracepoint_by_number_found _ _ _ _ Hget) as [t Ht].
  pose proof (lookup_lt_Some _ _ _ Ht) as Hi.
  unfold trace_actions_command in H. unfold_command H.
  rewrite Hget in H. unfold_command H.
  rewrite (free_actions_inv _ _ _ Ht) in H. unfold read_actions in H.
  assert (Ht0 : tracepoint_chain
                  (with_tracepoint_chain s
                     (<[i := set_actions t []]> (tracepoint_chain s))) !! i
                = Some (set_actions t [])).
  { cbn. apply list_lookup_insert_eq. exact Hi. }
  destruct (read_actions_loop_returns _ _ _ _ _ _ _ _ Ht0 H)
    as (consumed & last & t' & -> & Hlast & -> & Hsame & Hact).
  exists consumed, last, t, t'. split; [reflexivity|].
  split; [rewrite <- (linetype_of_address last (set_actions t []) t eq_refl);
          exact Hlast|].
  split; [exact Ht|]. split.
  { cbn [with_tracepoint_chain tracepoint_chain tracepoint_count
         traceframe_number tracepoint_number traceframe_fun traceframe_sal
         internalvars target_remote sent replies console current_frame_pc].
    rewrite list_insert_insert_eq. reflexivity. }
  split.
  { eapply same_but_actions_trans; [|exact Hsame].
    unfold same_but_actions. cbn. tauto. }
  rewrite Hact. cbn [app].
  apply (stored_line_address (set_actions t []) t). reflexivity.
Qed.

(** X17.  When validate_actionline raises an error while the actions of
    a tracepoint are being read, the tracepoint is left with no actions
    at all: neither the lines it had nor the lines accepted so far.
    Nothing else of the session has changed, and of the tracepoint only
    the action list and the step count. *)
Theorem trace_actions_command_all_or_nothing (args rest_arg : option string)
    (input : list string) (i : nat) (s s' : session) (e : gdb_error) :
  get_tracepoint_by_number args s = Returned (Some i, rest_arg) →
  trace_actions_command args input s = (s', Raised e) →
  ∃ t t',
    tracepoint_chain s !! i = Some t ∧
    s' = with_tracepoint_chain s (<[i := t']> (tracepoint_chain s)) ∧
    same_but_actions t t' ∧
    actions t' = [].
Proof.
  intros Hget H.
  destruct (get_tracepoint_by_number_found _ _ _ _ Hget) as [t Ht].
  pose proof (lookup_lt_Some _ _ _ Ht) as Hi.
  unfold trace_actions_command in H. unfold_command H.
  rewrite Hget in H. unfold_command H.
  rewrite (free_actions_inv _ _ _ Ht) in H. unfold read_actions in H.
  assert (Ht0 : tracepoint_chain
                  (with_tracepoint_chain s
                     (<[i := set_actions t []]> (tracepoint_chain s))) !! i
                = Some (set_actions t [])).
  { cbn. apply list_lookup_insert_eq. exact Hi. }
  destruct (read_actions_loop_raises _ _ _ _ _ _ _ _ Ht0 H)
    as (t' & -> & Hsame & Hact).
  exists t, t'. split; [exact Ht|]. split.
  { cbn [with_tracepoint_chain tracepoint_chain tracepoint_count
         traceframe_number tracepoint_number traceframe_fun traceframe_sal
         internalvars target_remote sent replies console current_frame_pc].
    rewrite list_insert_insert_eq. reflexivity. }
  split; [|exact Hact].
  eapply same_but_actions_trans; [|exact Hsame].
  unfold same_but_actions. cbn. tauto.
Qed.

End ActionsReader.

(** ** More on the action compiler *)

Section CompilerMore.
Context `{T : Target} `{Co : Collaborators}.

(** X18.  add_local_symbols looks at the block of the pc and at the
    blocks around it up to the outermost block of the function, and no
    further: the blocks beyond a function's block make no difference. *)
Theorem add_block_symbols_stops_at_function (collect : collection_list)
    (type : ascii) (pre post : list block) (f : block) :
  BLOCK_FUNCTION f = true →
  add_block_symbols collect type (pre ++ f :: post)
  = add_block_symbols collect type (pre ++ [f]).
Proof.
  intros Hf. revert collect.
  induction pre as [|b pre IH]; intros collect; cbn [app add_block_symbols].
  - destruct (collect_symbols collect type (BLOCK_SYMS f)) as [c| | |];
      cbn [mbind outcome_bind]; try reflexivity.
    rewrite Hf. reflexivity.
  - destruct (collect_symbols collect type (BLOCK_SYMS b)) as [c| | |];
      cbn [mbind outcome_bind]; try reflexivity.
    destruct (BLOCK_FUNCTION b); [reflexivity | apply IH].
Qed.

(** X19.  A QTDP packet that is sent fits the packet buffer with its
    terminator: its text is shorter than the 2048 bytes of buf. *)
Theorem qtdp_packet_fits (t : tracepoint) (buf : string) :
  qtdp_packet t = Returned buf → strlen buf < sizeof_buf.
Proof.
  pose proof (qtdp_header_short t) as Hh.
  unfold qtdp_packet. destruct (actions t).
  { intros [= <-]. exact Hh. }
  intros H. case_outcome H. destruct a as [tdp stepping].
  case_outcome H. rename a into buf1.
  assert (H1 : strlen buf1 < sizeof_buf).
  { destruct tdp as [a|].
    - destruct (Z.geb_spec (strlen (qtdp_header t) + strlen a) sizeof_buf);
        [discriminate|].
      injection E0 as <-. rewrite strlen_append. lia.
    - injection E0 as <-. exact Hh. }
  destruct stepping as [a|].
  - destruct (strlen buf1 + 1 >=? sizeof_buf); [discriminate|].
    destruct (Z.geb_spec (strlen (buf1 +:+ "S") + strlen a) sizeof_buf);
      [discriminate|].
    injection H as <-. rewrite strlen_append. lia.
  - injection H as <-. exact H1.
Qed.




End CompilerMore.

(** ** More on the trace-frame cursor *)

Section CursorMore.
Context `{T : Target} `{Co : Collaborators}.

Lemma digit_value_lower_hex (d : Z) :
  0 <= d < 16 → digit_value (lower_hex_digit d) = Some d.
Proof.
  intros Hd.
  assert (d = 0 ∨ d = 1 ∨ d = 2 ∨ d = 3 ∨ d = 4 ∨ d = 5 ∨ d = 6 ∨ d = 7 ∨
          d = 8 ∨ d = 9 ∨ d = 10 ∨ d = 11 ∨ d = 12 ∨ d = 13 ∨ d = 14 ∨
          d = 15) as Hcases by lia.
  repeat (destruct Hcases as [->|Hcases]; [reflexivity|]).
  subst d. reflexivity.
Qed.

(** strtol reads back the digits that "%x" writes. *)
Lemma strto_digits_hex_digits (fuel : nat) :
  ∀ (v : Z), 0 <= v < 16 ^ Z.of_nat (S fuel) →
  ∀ (tail : string) (acc : Z) (seen : bool),
    ∃ k, 0 <= k ∧
         strto_digits 16 (hex_digits lower_hex_digit (S fuel) v +:+ tail)
           acc seen
         = strto_digits 16 tail (acc * 16 ^ k + v) true.
Proof.
  assert (Hone : ∀ d tail acc seen, 0 <= d < 16 →
            strto_digits 16 (String (lower_hex_digit d) tail) acc seen
            = strto_digits 16 tail (acc * 16 + d) true).
  { intros d tail acc seen Hd. cbn [strto_digits].
    rewrite digit_value_lower_hex by exact Hd.
    destruct (Z.ltb_spec d 16); [reflexivity|lia]. }
  induction fuel as [|fuel IH]; intros v Hv tail acc seen.
  - change (16 ^ Z.of_nat 1) with 16 in Hv.
    cbn [hex_digits]. destruct (Z.ltb_spec v 16); [|lia].
    exists 1. split; [lia|].
    change (String (lower_hex_digit v) "" +:+ tail)
      with (String (lower_hex_digit v) tail).
    rewrite Hone by lia. f_equal; lia.
  - remember (S fuel) as n eqn:Hn.
    cbn [hex_digits]. destruct (Z.ltb_spec v 16) as [Hlt|Hge].
    + exists 1. split; [lia|].
      change (String (lower_hex_digit v) "" +:+ tail)
        with (String (lower_hex_digit v) tail).
      rewrite Hone by lia. f_equal; lia.
    + rewrite <- append_assoc.
      change (String (lower_hex_digit (v mod 16)) "" +:+ tail)
        with (String (lower_hex_digit (v mod 16)) tail).
      assert (Hdiv : 0 <= v / 16 < 16 ^ Z.of_nat n).
      { split; [apply Z.div_pos; lia|].
        apply Z.div_lt_upper_bound; [lia|].
        replace (Z.of_nat (S n)) with (Z.of_nat n + 1) in Hv by lia.
        rewrite Z.pow_add_r in Hv by lia. lia. }
      subst n.
      destruct (IH (v / 16) Hdiv (String (lower_hex_digit (v mod 16)) tail)
                  acc seen) as (k & Hk & ->).
      exists (k + 1). split; [lia|].
      rewrite Hone by (apply Z.mod_pos_bound; lia). f_equal.
      rewrite Z.pow_add_r by lia.
      pose proof (Z.div_mod v 16 ltac:(lia)). lia.
Qed.

(** The first of the digits that "%x" writes is 0 for the number 0
    alone. *)
Lemma hex_digits_head (fuel : nat) :
  ∀ (v : Z), 0 <= v < 16 ^ Z.of_nat (S fuel) →
    (v = 0 ∧ hex_digits lower_hex_digit (S fuel) v = "0") ∨
    (∃ d q, 1 <= d < 16 ∧
            hex_digits lower_hex_digit (S fuel) v
            = String (lower_hex_digit d) q).
Proof.
  induction fuel as [|fuel IH]; intros v Hv.
  - change (16 ^ Z.of_nat 1) with 16 in Hv.
    cbn [hex_digits]. destruct (Z.ltb_spec v 16); [|lia].
    destruct (Z.eq_dec v 0) as [->|Hne]; [left; split; reflexivity|].
    right. exists v, "". split; [lia | reflexivity].
  - remember (S fuel) as n eqn:Hn.
    cbn [hex_digits]. destruct (Z.ltb_spec v 16) as [Hlt|Hge].
    + destruct (Z.eq_dec v 0) as [->|Hne]; [left; split; reflexivity|].
      right. exists v, "". split; [lia | reflexivity].
    + assert (Hdiv : 0 <= v / 16 < 16 ^ Z.of_nat n).
      { split; [apply Z.div_pos; lia|].
        apply Z.div_lt_upper_bound; [lia|].
        replace (Z.of_nat (S n)) with (Z.of_nat n + 1) in Hv by lia.
        rewrite Z.pow_add_r in Hv by lia. lia. }
      assert (Hpos : 0 < v / 16) by (apply Z.div_str_pos; lia).
      subst n. right.
      destruct (IH (v / 16) Hdiv) as [[H0 _]|(d & q & Hd & ->)]; [lia|].
      exists d, (q +:+ String (lower_hex_digit (v mod 16)) "").
      split; [exact Hd | reflexivity].
Qed.

Lemma strto_digits_stop (tail : string) (acc : Z) :
  hex_stop tail = true → strto_digits 16 tail acc true = (acc, true, tail).
Proof.
  destruct tail as [|c tail]; [reflexivity|]. cbn [hex_stop strto_digits].
  intros H. apply andb_true_iff in H. destruct H as [_ H].
  destruct (digit_value c) as [d|]; [|reflexivity].
  apply Z.leb_le in H. destruct (Z.ltb_spec d 16); [lia | reflexivity].
Qed.

Lemma strto_scan_zero (tail : string) :
  hex_stop tail = true →
  strto_scan (String "0" tail) 16 = (false, 0, tail).
Proof.
  intros H. unfold strto_scan.
  change (skip_spaces (String "0" tail)) with (String "0" tail).
  cbv beta iota zeta.
  assert (Hno : (match tail with
                 | String x (String h _) =>
                   (Ascii.eqb x "x" || Ascii.eqb x "X") &&
                   match digit_value h with
                   | Some d => d <? 16
                   | None => false
                   end
                 | _ => false
                 end) = false).
  { destruct tail as [|x [|h tl]]; try reflexivity.
    cbn [hex_stop] in H. apply andb_true_iff in H. destruct H as [H _].
    apply andb_true_iff in H. destruct H as [Hx HX].
    apply negb_true_iff in Hx, HX. rewrite Hx, HX. reflexivity. }
  change (match String "0" tail with
          | String "0"%char (String x (String h _)) =>
            (Ascii.eqb x "x" || Ascii.eqb x "X") &&
            match digit_value h with
            | Some d => d <? 16
            | None => false
            end
          | _ => false
          end)
    with (match tail with
          | String x (String h _) =>
            (Ascii.eqb x "x" || Ascii.eqb x "X") &&
            match digit_value h with
            | Some d => d <? 16
            | None => false
            end
          | _ => false
          end).
  rewrite Hno. cbn [orb andb Z.eqb Pos.eqb].
  change (strto_digits 16 (String "0" tail) 0 false)
    with (strto_digits 16 tail 0 true).
  rewrite strto_digits_stop by exact H. reflexivity.
Qed.

Lemma strto_scan_nonzero (d : Z) (q : string) :
  1 <= d < 16 →
  strto_scan (String (lower_hex_digit d) q) 16
  = (let '(v, seen, rest) :=
       strto_digits 16 (String (lower_hex_digit d) q) 0 false in
     if seen then (false, v, rest)
     else (false, 0, String (lower_hex_digit d) q)).
Proof.
  intros Hd.
  assert (d = 1 ∨ d = 2 ∨ d = 3 ∨ d = 4 ∨ d = 5 ∨ d = 6 ∨ d = 7 ∨
          d = 8 ∨ d = 9 ∨ d = 10 ∨ d = 11 ∨ d = 12 ∨ d = 13 ∨ d = 14 ∨
          d = 15) as Hcases by lia.
  repeat (destruct Hcases as [->|Hcases]; [reflexivity|]).
  subst d. reflexivity.
Qed.

Lemma strtol_sprintf_x (n : Z) (tail : string) :
  0 <= n <= INT_MAX → hex_stop tail = true →
  strtol (sprintf_x n +:+ tail) 16 = (n, tail).
Proof.
  intros Hn Hstop. unfold sprintf_x, wrap_unsigned, int_bits.
  unfold INT_MAX in Hn.
  rewrite Z.mod_small by lia.
  assert (Hv : 0 <= n < 16 ^ Z.of_nat 8) by (change (16 ^ Z.of_nat 8) with (2 ^ 32); lia).
  assert (Hscan : strto_scan (hex_digits lower_hex_digit 8 n +:+ tail) 16
                  = (false, n, tail)).
  { destruct (hex_digits_head 7 n Hv) as [[-> ->]|(d & q & Hd & Hq)].
    - apply strto_scan_zero. exact Hstop.
    - destruct (strto_digits_hex_digits 7 n Hv tail 0 false) as (k & Hk & Hdig).
      rewrite Hq in *.
      change (String (lower_hex_digit d) q +:+ tail)
        with (String (lower_hex_digit d) (q +:+ tail)) in *.
      rewrite strto_scan_nonzero by exact Hd.
      rewrite Hdig. rewrite strto_digits_stop by exact Hstop.
      replace (0 * 16 ^ k + n) with n by lia. reflexivity. }
  unfold strtol. rewrite Hscan. cbv beta iota zeta.
  assert (Hmax : 2 ^ 31 - 1 <= LONG_MAX).
  { unfold LONG_MAX. pose proof long_bits_min.
    assert (2 ^ 31 <= 2 ^ (Z.pos long_bits - 1))
      by (apply Z.pow_le_mono_r; lia).
    lia. }
  destruct (Z.gtb_spec n LONG_MAX); [lia|].
  destruct (Z.ltb_spec n LONG_MIN); [unfold LONG_MIN, LONG_MAX in *; lia|].
  reflexivity.
Qed.

Lemma parse_tfind_reply_decodes (fuel : nat) (frameno tracept : Z) :
  0 <= frameno <= INT_MAX → 0 <= tracept <= INT_MAX →
  parse_tfind_reply (S (S fuel))
    ("F" +:+ sprintf_x frameno +:+ "T" +:+ sprintf_x tracept) (-1) (-1)
  = Returned (frameno, tracept).
Proof.
  intros Hf Ht.
  assert (Hne : ∀ n, 0 <= n <= INT_MAX → (n =? -1) = false)
    by (intros n Hn; apply Z.eqb_neq; lia).
  change ("F" +:+ sprintf_x frameno +:+ "T" +:+ sprintf_x tracept)
    with (String "F" (sprintf_x frameno +:+ String "T" (sprintf_x tracept))).
  cbn [parse_tfind_reply].
  change (char_is (String "F" ?p) NUL) with false.
  change (char_is (String "F" ?p) "F") with true.
  cbv iota. cbn [advance].
  rewrite strtol_sprintf_x by (exact Hf || reflexivity).
  rewrite to_int_small, Hne by exact Hf.
  change (char_is (String "T" ?p) NUL) with false.
  change (char_is (String "T" ?p) "F") with false.
  change (char_is (String "T" ?p) "T") with true.
  cbv iota. cbn [advance].
  assert (Hnil : sprintf_x tracept = sprintf_x tracept +:+ "").
  { generalize (sprintf_x tracept). intros p.
    induction p as [|c p IH]; [reflexivity|].
    change (String c p +:+ "") with (String c (p +:+ "")).
    rewrite <- IH. reflexivity. }
  rewrite Hnil, strtol_sprintf_x by (exact Ht || reflexivity).
  rewrite to_int_small, Hne by exact Ht.
  destruct fuel; reflexivity.
Qed.

(** X21.  The number of a trace frame makes the round trip through the
    packets: "tfind n" sends the number in hexadecimal, as "%x" writes
    it, and a reply that gives a frame and a tracepoint number written
    the same way selects exactly that frame and that tracepoint. *)
Theorem trace_find_command_selects (a : string) (v frameno tracept : Z)
    (pending : list string) (s : session) :
  target_remote s = true →
  a ≠ "" → a ≠ "-" →
  parse_and_eval_address a = Returned v →
  to_int v = frameno →
  0 <= frameno <= INT_MAX → 0 <= tracept <= INT_MAX →
  replies s
    = ("F" +:+ sprintf_x frameno +:+ "T" +:+ sprintf_x tracept) :: pending →
  ∃ s',
    trace_find_command (Some a) s = (s', Returned tt) ∧
    sent s' = sent s ++ ["QTFrame:" +:+ sprintf_x frameno] ∧
    replies s' = pending ∧
    traceframe_number s' = frameno ∧
    tracepoint_number s' = tracept ∧
    internalvars s' !! "trace_frame" = Some (VInt frameno) ∧
    internalvars s' !! "tracepoint" = Some (VInt tracept).
Proof.
  intros Hremote Hne Hminus Hparse Hv Hf Ht Hrep.
  unfold trace_find_command.
  unfold mbind, command_bind, get, lift. cbv beta iota. rewrite Hremote.
  destruct a as [|c a]; [contradiction|].
  rewrite bool_decide_eq_false_2 by exact Hminus.
  rewrite Hparse. cbn [fmap outcome_fmap]. rewrite Hv.
  unfold putpkt, modify. cbv beta iota.
  unfold remote_get_noisy_reply. cbn [replies with_sent]. rewrite Hrep.
  change ("F" +:+ sprintf_x frameno +:+ "T" +:+ sprintf_x tracept)
    with (String "F" (sprintf_x frameno +:+ String "T" (sprintf_x tracept))).
  cbn [noisy_reply_loop]. unfold mbind, command_bind, modify, mret, command_ret.
  cbv beta iota.
  change (char_is (String "F" ?p) NUL) with false.
  change (char_is (String "F" ?p) "E") with false.
  change (char_is (String "F" ?p) "R") with false.
  change (char_is (String "F" ?p) "O") with false.
  cbn [andb]. cbv iota.
  rewrite (proj2 (Z.eqb_neq frameno (-1))) by lia.
  unfold finish_tfind_command.
  unfold mbind, command_bind, lift, modify. cbv beta iota.
  assert (Hlen : ∃ fuel,
            String.length
              (String "F" (sprintf_x frameno +:+ String "T" (sprintf_x tracept)))
            = S (S fuel)).
  { cbn [String.length]. generalize (sprintf_x frameno). intros p.
    destruct p as [|x p]; eexists; reflexivity. }
  destruct Hlen as [fuel ->].
  pose proof (parse_tfind_reply_decodes fuel frameno tracept Hf Ht) as Hp.
  change ("F" +:+ sprintf_x frameno +:+ "T" +:+ sprintf_x tracept)
    with (String "F" (sprintf_x frameno +:+ String "T" (sprintf_x tracept)))
    in Hp.
  rewrite Hp. eexists. split; [reflexivity|].
  unfold set_traceframe_context, set_tracepoint_num, set_traceframe_num,
    set_internalvar.
  destruct (_ =? minus_one_addr);
    cbn [sent replies traceframe_number tracepoint_number internalvars
         with_sent with_replies with_traceframe_number with_tracepoint_number
         with_internalvars with_traceframe_fun with_traceframe_sal];
    repeat split;
    repeat (rewrite lookup_insert_ne by discriminate);
    try apply lookup_insert_eq; reflexivity.
Qed.

End CursorMore.

(** ** Saving tracepoints *)

Section Save.
Context `{T : Target} `{Co : Collaborators}.

Lemma skip_spaces_idem (p : string) : skip_spaces (skip_spaces p) = skip_spaces p.
Proof.
  induction p as [|c p IH]; [reflexivity|]. cbn [skip_spaces].
  destruct (isspace c) eqn:Hc; [exact IH|].
  cbn [skip_spaces]. rewrite Hc. reflexivity.
Qed.

(** The action lines of the file, one for each action line of the
    tracepoint: the line without its leading white space, behind one of
    the two indentations. *)
Lemma saved_action_lines_spaces (lines : list string) :
  ∀ indent, indent = "    " ∨ indent = "      " →
    Forall2 (fun line text => skip_spaces text = skip_spaces line)
      lines (omap saved_action_text (save_action_lines lines indent)).
Proof.
  induction lines as [|line lines IH]; intros indent Hindent;
    cbn [save_action_lines omap list_omap saved_action_text]; constructor.
  - destruct Hindent as [-> | ->].
    + change (skip_spaces ("    " +:+ skip_spaces line))
        with (skip_spaces (skip_spaces line)).
      apply skip_spaces_idem.
    + change (skip_spaces ("      " +:+ skip_spaces line))
        with (skip_spaces (skip_spaces line)).
      apply skip_spaces_idem.
  - apply IH.
    destruct (strncasecmp_eq _ "while-stepping" 14); [right; reflexivity|].
    destruct (strncasecmp_eq _ "end" 3); [left; reflexivity | exact Hindent].
Qed.

Lemma saved_actions_spaces (tp : tracepoint) :
  Forall2 (fun line text => skip_spaces text = skip_spaces line)
    (actions tp) (saved_actions tp).
Proof.
  unfold saved_actions, save_tracepoint.
  assert (Hhead : ∀ (l : saved_line) rest,
            saved_action_text l = None →
            omap saved_action_text (l :: rest) = omap saved_action_text rest).
  { intros l rest Hl. cbn [omap list_omap]. rewrite Hl. reflexivity. }
  rewrite Hhead by (destruct (addr_string tp); reflexivity).
  assert (Hpass : ∀ rest,
            omap saved_action_text
              ((if negb (pass_count tp =? 0)
                then [save_passcount (pass_count tp)] else []) ++ rest)
            = omap saved_action_text rest).
  { intros rest. destruct (negb _); reflexivity. }
  rewrite Hpass.
  destruct (actions tp) as [|line lines] eqn:Ha; [constructor|].
  rewrite Hhead by reflexivity.
  apply saved_action_lines_spaces. left. reflexivity.
Qed.

(** validate_actionline and the loop of encode_actions look at a line
    from its first character that is no white space. *)
Lemma validate_actionline_spaces (a b : string) (t : tracepoint) :
  skip_spaces a = skip_spaces b →
  validate_actionline a t = validate_actionline b t.
Proof. intros H. unfold validate_actionline. rewrite H. reflexivity. Qed.

Lemma encode_actions_loop_spaces (l1 l2 : list string) (addr : Z) :
  Forall2 (fun a b => skip_spaces b = skip_spaces a) l1 l2 →
  ∀ tl sl stepping,
    encode_actions_loop l2 addr tl sl stepping
    = encode_actions_loop l1 addr tl sl stepping.
Proof.
  induction 1 as [|a b l1 l2 Hab _ IH]; intros tl sl stepping;
    cbn [encode_actions_loop]; [reflexivity|].
  rewrite Hab.
  destruct (strncasecmp_eq _ "collect" 7).
  - destruct (encode_collect _ _ _ _); cbn [mbind outcome_bind];
      try reflexivity.
    destruct stepping; apply IH.
  - destruct (strncasecmp_eq _ "while-stepping" 14); [apply IH|].
    destruct (strncasecmp_eq _ "end" 3); [|apply IH].
    destruct stepping; [apply IH | reflexivity].
Qed.

(** X22.  save-tracepoints writes the action lines of a tracepoint
    without their leading white space and indented anew, one line of the
    file for each action line; a tracepoint that is given the lines of
    the file as its actions is treated as the one saved: the validator
    judges each line of the file as it judges the line saved, and
    encode_actions compiles the same collect strings. *)
Theorem saved_actions_alike (tp : tracepoint) :
  length (saved_actions tp) = length (actions tp) ∧
  (∀ (k : nat) (line text : string) (t : tracepoint),
     actions tp !! k = Some line → saved_actions tp !! k = Some text →
     validate_actionline text t = validate_actionline line t) ∧
  encode_actions (set_actions tp (saved_actions tp)) = encode_actions tp.
Proof.
  pose proof (saved_actions_spaces tp) as Hall.
  split; [symmetry; eapply Forall2_length; exact Hall|]. split.
  - intros k line text t Hline Htext.
    apply validate_actionline_spaces.
    apply (Forall2_lookup_lr _ _ _ k line text Hall Hline Htext).
  - unfold encode_actions. cbn [actions set_actions address].
    rewrite (encode_actions_loop_spaces _ _ _ Hall). reflexivity.
Qed.

End Save.

(** ** The loops over a line and over a reply end *)

Section LoopsEnd.
Context `{T : Target} `{Co : Collaborators}.

Lemma skip_spaces_length (p : string) :
  (String.length (skip_spaces p) <= String.length p)%nat.
Proof.
  induction p as [|c p IH]; cbn [skip_spaces String.length]; [lia|].
  destruct (isspace c); cbn [String.length]; lia.
Qed.

Lemma advance_length (n : nat) :
  ∀ p, (String.length (advance n p) <= String.length p)%nat.
Proof.
  induction n as [|n IH]; intros p; cbn [advance]; [lia|].
  destruct p as [|c p]; cbn [String.length]; [lia|].
  specialize (IH p). lia.
Qed.

Lemma strchr_length (c : ascii) :
  ∀ p q, strchr p c = Some q → (String.length q <= String.length p)%nat.
Proof.
  induction p as [|x p IH]; intros q H; cbn [strchr] in H; [discriminate|].
  destruct (Ascii.eqb x c).
  - injection H as <-. lia.
  - apply IH in H. cbn [String.length]. lia.
Qed.

Lemma strto_digits_length (base : Z) :
  ∀ p acc seen,
    (String.length (strto_digits base p acc seen).2 <= String.length p)%nat.
Proof.
  induction p as [|c p IH]; intros acc seen; cbn [strto_digits]; [simpl; lia|].
  destruct (digit_value c) as [d|]; [|simpl; lia].
  destruct (d <? base); [|simpl; lia].
  specialize (IH (acc * base + d) true). cbn [String.length]. lia.
Qed.

(** The end pointer of strtol and strtoul is inside the string they were
    given. *)
Lemma strto_scan_length (nptr : string) (base : Z) :
  (String.length (strto_scan nptr base).2 <= String.length nptr)%nat.
Proof.
  unfold strto_scan.
  pose proof (skip_spaces_length nptr) as Hskip.
  set (q := skip_spaces nptr) in *.
  assert (Hsign : ∀ r : bool * string,
            r = match q with
                | String "-" p' => (true, p')
                | String "+" p' => (false, p')
                | _ => (false, q)
                end →
            (String.length r.2 <= String.length q)%nat).
  { intros r ->. destruct q as [|c q']; [simpl; lia|].
    destruct c as [[] [] [] [] [] [] [] []]; cbn [snd String.length]; lia. }
  destruct (match q with
            | String "-" p' => (true, p')
            | String "+" p' => (false, p')
            | _ => (false, q)
            end) as [neg p] eqn:Esign.
  specialize (Hsign (neg, p) eq_refl). cbn [snd] in Hsign.
  match goal with
  | |- context [if ?c then (16%Z, advance 2 p) else ?e] =>
    assert (Hbase : (String.length (if c then (16%Z, advance 2 p) else e).2
                     <= String.length p)%nat)
  end.
  { destruct (_ && _).
    - cbn [snd]. apply advance_length.
    - destruct (base =? 0); cbn [snd]; lia. }
  match goal with
  | |- context [let '(b, p0) := ?e in _] => destruct e as [base' p2]
  end.
  cbn [snd] in Hbase.
  pose proof (strto_digits_length base' p2 0 false) as Hdig.
  destruct (strto_digits base' p2 0 false) as [[v seen] rest].
  cbn [snd] in Hdig. destruct seen; cbn [snd]; lia.
Qed.

Lemma strtol_length (nptr : string) (base : Z) :
  (String.length (strtol nptr base).2 <= String.length nptr)%nat.
Proof.
  unfold strtol. pose proof (strto_scan_length nptr base) as H.
  destruct (strto_scan nptr base) as [[neg v] rest]. exact H.
Qed.

Lemma char_is_length (p : string) (c : ascii) :
  char_is p c = true → c ≠ NUL →
  (String.length (advance 1 p) < String.length p)%nat.
Proof.
  intros H Hc. destruct (char_is_inv _ _ H Hc) as [rest ->].
  cbn [advance String.length]. lia.
Qed.

Section ParserComesBack.
Hypothesis parse_exp_1_comes_back :
  ∀ (p : string) (addr : Z), comes_back (parse_exp_1 p addr).

Lemma parse_and_eval_memrange_comes_back (rest : string) (addr : Z) :
  comes_back (parse_and_eval_memrange (String "$" (String "(" rest)) addr) ∧
  ∀ typecode offset size p,
    parse_and_eval_memrange (String "$" (String "(" rest)) addr
    = Returned (typecode, offset, size, p) →
    (String.length p <= String.length rest)%nat.
Proof.
  unfold parse_and_eval_memrange. cbv beta iota.
  assert (Htype : ∀ o : outcome (Z * string),
            o = (if char_is rest "$"
                 then '(exp, used) ← parse_exp_1 rest addr;
                      let p := advance used rest in
                      match exp with
                      | OP_REGISTER n =>
                        if char_is p ","
                        then Returned (n, advance 1 p)
                        else Raised (err_bad_memrange
                                       "missing comma for memrange")
                      | _ => Raised (err_bad_memrange
                                       "Bad register operand for memrange")
                      end
                 else Returned (0, rest)) →
            comes_back o ∧
            ∀ n p, o = Returned (n, p) →
                   (String.length p <= String.length rest)%nat).
  { intros o ->. destruct (char_is rest "$").
    - pose proof (parse_exp_1_comes_back rest addr) as Hp.
      destruct (parse_exp_1 rest addr) as [[exp used]| | |];
        cbn [mbind outcome_bind]; try contradiction;
        [|split; [exact I | discriminate]].
      pose proof (advance_length used rest) as Hused.
      destruct exp as [n|sym|]; try (split; [exact I | discriminate]).
      destruct (char_is (advance used rest) ",");
        [|split; [exact I | discriminate]].
      split; [exact I|]. intros n0 p [= <- <-].
      destruct (advance used rest); cbn [String.length] in *; lia.
    - split; [exact I|]. intros n p [= <- <-]. lia. }
  match goal with
  | |- comes_back (mbind _ ?o) ∧ _ =>
    destruct (Htype o eq_refl) as [Hback Hlen]; destruct o as [[n p]| | |]
  end; cbn [mbind outcome_bind]; try contradiction;
    [|split; [exact I | discriminate]].
  specialize (Hlen n p eq_refl).
  pose proof (strtol_length p 0) as H1.
  destruct (strtol p 0) as [offset p1]. cbn [snd] in H1.
  destruct (negb (char_is p1 ",")); [split; [exact I | discriminate]|].
  pose proof (strtol_length (advance 1 p1) 0) as H2.
  pose proof (advance_length 1 p1) as H3.
  destruct (strtol (advance 1 p1) 0) as [size p2]. cbn [snd] in H2.
  destruct (size <=? 0); [split; [exact I | discriminate]|].
  destruct (negb (char_is p2 ")")); [split; [exact I | discriminate]|].
  split; [exact I|]. intros ty off sz q [= _ _ _ <-].
  destruct p2; cbn [String.length] in *; lia.
Qed.

Lemma validate_collect_comes_back (addr : Z) (fuel : nat) :
  ∀ p, (String.length p < fuel)%nat →
       comes_back (validate_collect fuel p addr).
Proof.
  induction fuel as [|fuel IH]; intros p Hfuel; [lia|].
  cbn [validate_collect].
  pose proof (skip_spaces_length p) as Hskip.
  set (q := skip_spaces p) in *.
  assert (Hnext : ∀ p', (String.length p' <= String.length q)%nat →
            comes_back
              (if char_is p' ","
               then validate_collect fuel (advance 1 p') addr
               else Returned GENERIC)).
  { intros p' Hp'. destruct (char_is p' ",") eqn:Hc; [|exact I].
    apply IH. pose proof (char_is_length _ _ Hc ltac:(discriminate)). lia. }
  destruct (char_is q "$") eqn:Hdollar.
  - destruct (_ || _).
    + cbn [mbind outcome_bind].
      destruct (strchr q ",") as [p'|] eqn:Hchr; [|exact I].
      apply Hnext. eapply strchr_length. exact Hchr.
    + destruct (char_is (advance 1 q) "(") eqn:Hparen.
      * destruct (char_is_inv _ _ Hdollar ltac:(discriminate)) as [q1 Hq].
        rewrite Hq in Hparen. cbn [advance] in Hparen.
        destruct (char_is_inv _ _ Hparen ltac:(discriminate)) as [rest ->].
        rewrite Hq in *.
        destruct (parse_and_eval_memrange_comes_back rest addr)
          as [Hback Hlen].
        destruct (parse_and_eval_memrange _ addr)
          as [[[[ty off] sz] p']| | |]; cbn [mbind outcome_bind];
          try contradiction; [|exact I].
        apply Hnext. specialize (Hlen _ _ _ _ eq_refl).
        cbn [String.length]. lia.
      * cbn [mbind outcome_bind]. apply Hnext. lia.
  - pose proof (parse_exp_1_comes_back q addr) as Hp.
    destruct (parse_exp_1 q addr) as [[exp used]| | |];
      cbn [mbind outcome_bind]; try contradiction; [|exact I].
    pose proof (advance_length used q) as Hused.
    destruct exp as [n|sym|]; cbn [mbind outcome_bind].
    + apply Hnext. exact Hused.
    + destruct (decide _); [exact I|].
      destruct (decide _); [exact I|].
      cbn [mbind outcome_bind]. apply Hnext. exact Hused.
    + exact I.
Qed.

End ParserComesBack.

(** X23.  validate_actionline always comes back when the expression
    parser does: it returns a verdict or leaves through error ().  The
    loop over the items of a collect line ends, because every round
    leaves the pointer inside the line and the next round begins behind a
    comma. *)
Theorem validate_actionline_comes_back (line : string) (t : tracepoint) :
  (∀ (p : string) (addr : Z), comes_back (parse_exp_1 p addr)) →
  comes_back (validate_actionline line t).
Proof.
  intros Hparser. unfold validate_actionline.
  destruct (char_is (skip_spaces line) NUL); [exact I|].
  destruct (strncasecmp_eq (skip_spaces line) "collect" 7).
  { pose proof (validate_collect_comes_back Hparser (address t)
                  (S (String.length (skip_spaces line)))
                  (advance 7 (skip_spaces line))) as H.
    pose proof (advance_length 7 (skip_spaces line)) as Hlen.
    specialize (H ltac:(lia)).
    destruct (validate_collect _ _ _); cbn [mbind outcome_bind];
      try contradiction; exact I. }
  destruct (strncasecmp_eq (skip_spaces line) "while-stepping" 14).
  { destruct (negb _); [|exact I].
    destruct (_ =? 0); exact I. }
  destruct (strncasecmp_eq (skip_spaces line) "end" 3); exact I.
Qed.

(** The two errors of finish_tfind_command. *)
Lemma parse_tfind_reply_outcome (fuel : nat) :
  ∀ (reply : string) (frameno tracept : Z),
    (String.length reply <= fuel)%nat →
    match parse_tfind_reply fuel reply frameno tracept with
    | Returned _ => True
    | Raised e => e = err_frame_not_found ∨ ∃ r, e = err_bogus_reply r
    | _ => False
    end.
Proof.
  induction fuel as [|fuel IH]; intros reply frameno tracept Hlen.
  - destruct reply; [exact I | cbn [String.length] in Hlen; lia].
  - cbn [parse_tfind_reply].
    destruct (char_is reply NUL); [exact I|].
    assert (Hnum : ∀ c, char_is reply c = true → c ≠ NUL →
              (String.length (strtol (advance 1 reply) 16).2 <= fuel)%nat).
    { intros c Hc Hnul. pose proof (char_is_length _ _ Hc Hnul).
      pose proof (strtol_length (advance 1 reply) 16). lia. }
    destruct (char_is reply "F") eqn:HF.
    { specialize (Hnum _ HF ltac:(discriminate)).
      destruct (strtol (advance 1 reply) 16) as [n rest]. cbn [snd] in Hnum.
      destruct (to_int n =? -1); [left; reflexivity|].
      apply IH. exact Hnum. }
    destruct (char_is reply "T") eqn:HT.
    { specialize (Hnum _ HT ltac:(discriminate)).
      destruct (strtol (advance 1 reply) 16) as [n rest]. cbn [snd] in Hnum.
      destruct (to_int n =? -1); [left; reflexivity|].
      apply IH. exact Hnum. }
    destruct (char_is reply "O") eqn:HO; [|right; eauto].
    destruct (_ && _); [|right; eauto].
    apply IH. pose proof (char_is_length _ _ HO ltac:(discriminate)).
    pose proof (advance_length 1 (advance 1 reply)).
    assert (advance 2 reply = advance 1 (advance 1 reply)) as ->
      by (destruct reply; reflexivity).
    lia.
Qed.

(** X24.  finish_tfind_command reads the whole reply and then selects
    the frame, or it raises one of its two errors, "Target failed to find
    requested trace frame" and "Bogus reply from target", and then the
    session is as it was: the cursor is not moved by a reply that is
    refused. *)
Theorem finish_tfind_command_outcome (reply : string) (s : session) :
  ∃ s' r,
    finish_tfind_command reply s = (s', r) ∧
    (r = Returned tt ∨
     (s' = s ∧
      (r = Raised err_frame_not_found ∨ ∃ rest, r = Raised (err_bogus_reply rest)))).
Proof.
  unfold finish_tfind_command.
  unfold mbind, command_bind, lift, modify. cbv beta iota.
  pose proof (parse_tfind_reply_outcome (String.length reply) reply (-1) (-1)
                ltac:(lia)) as H.
  destruct (parse_tfind_reply _ _ _ _) as [[frameno tracept]|e| |];
    try contradiction.
  - eexists _, _. split; [reflexivity|]. left. reflexivity.
  - exists s, (Raised e). split; [reflexivity|]. right.
    split; [reflexivity|]. destruct H as [->|[rest ->]]; eauto.
Qed.

End LoopsEnd.

(* ===================================================================== *)
(** * Part III.  The theorems at concrete inputs                          *)
(* ===================================================================== *)

Lemma memrange_sortmerge_separates_witness :
  adjacent_separated
    (list_ (memrange_sortmerge
              (example_list [example_range_b; example_range_a]))) ∧
  list_ (memrange_sortmerge (example_list [example_range_b; example_range_a]))
    = [mk_memrange 6 (-8) 8] ∧
  list_ (memrange_sortmerge (example_list [example_range_a; example_range_c]))
    = [example_range_a; example_range_c].
Proof.
  destruct (memrange_sortmerge_separates
              (example_list [example_range_b; example_range_a])
              example_range_a example_range_b) as [Hsep Hgap].
  destruct (Hgap eq_refl eq_refl (or_intror eq_refl)) as [Hmerge _].
  destruct (memrange_sortmerge_separates
              (example_list [example_range_a; example_range_c])
              example_range_a example_range_c) as [_ Hgap'].
  destruct (Hgap' eq_refl eq_refl (or_introl eq_refl)) as [_ Hkeep].
  split; [exact Hsep|]. split.
  - exact (Hmerge eq_refl).
  - exact (Hkeep eq_refl).
Defined.

Lemma memrange_cmp_order_witness :
  memrange_cmp example_absolute_low example_range_a = -1 ∧
  memrange_cmp example_range_a example_absolute_low = 1 ∧
  memrange_cmp example_absolute_high example_absolute_low = 1 ∧
  memrange_cmp example_range_a example_range_b = -1 ∧
  memrange_cmp example_absolute_low example_absolute_high = -1 ∧
  memrange_cmp example_range_b example_range_a = 1.
Proof.
  destruct (memrange_cmp_order example_absolute_low example_range_a)
    as (Hlt & _).
  destruct (memrange_cmp_order example_range_a example_absolute_low)
    as (_ & Hgt & _).
  destruct (memrange_cmp_order example_absolute_high example_absolute_low)
    as (_ & _ & _ & _ & Hneg0).
  destruct (memrange_cmp_order example_range_a example_range_b)
    as (_ & _ & _ & _ & Hneg).
  destruct (memrange_cmp_order example_absolute_low example_absolute_high)
    as (_ & _ & Habs & _).
  destruct (memrange_cmp_order example_range_b example_range_a)
    as (_ & _ & _ & Hrel & _).
  split; [apply Hlt; reflexivity|].
  split; [apply Hgt; reflexivity|].
  split.
  { apply (Hneg0 eq_refl); [split; [discriminate | reflexivity]
                           |split; [discriminate | reflexivity] | reflexivity]. }
  split.
  { apply (Hneg eq_refl); [split; [discriminate | reflexivity]
                          |split; [discriminate | reflexivity] | reflexivity]. }
  split.
  - exact (Habs eq_refl eq_refl).
  - exact (Hrel eq_refl ltac:(discriminate)).
Defined.

Lemma stringify_collection_list_spec_witness :
  stringify_collection_list initial_collection_list = None ∧
  stringify_collection_list
    (mk_collection_list [64; 0; 0; 0; 0; 0; 0; 0] 128 [mk_memrange 6 8 16])
    = stringify_spec
        (mk_collection_list [64; 0; 0; 0; 0; 0; 0; 0] 128
           [mk_memrange 6 8 16]) ∧
  stringify_spec
    (mk_collection_list [64; 0; 0; 0; 0; 0; 0; 0] 128 [mk_memrange 6 8 16])
    = Some "R40M6,8,8" ∧
  sprintf_02X 64 = two_hex_digits 64 ∧
  (stringify_collection_list wide_collection_list = Some "M0,5,1" ∧
   stringify_spec wide_collection_list = Some "M0,100000005,1") ∧
  Forall (@printed_in_full example_target32) [mk_memrange 6 (-8) 0] ∧
  encode_actions example_wide_tracepoint = Returned (Some "M0,5,1", None).
Proof.
  destruct (stringify_collection_list_spec initial_collection_list 64)
    as (Hnone & _ & _ & Hlen & Hwide).
  destruct (stringify_collection_list_spec
              (mk_collection_list [64; 0; 0; 0; 0; 0; 0; 0] 128
                 [mk_memrange 6 8 16]) 0) as (_ & Hstr & _).
  destruct (@stringify_collection_list_spec example_target32
              (mk_collection_list [64; 0; 0; 0; 0; 0; 0; 0] 128
                 [mk_memrange 6 (-8) 0]) 0) as (_ & _ & Hfull & _).
  assert (Hin : Forall printed_in_full [mk_memrange 6 8 16])
    by (repeat constructor; vm_compute; reflexivity).
  assert (Hbytes : Forall (fun byte => 0 <= byte < 256)
                     [64; 0; 0; 0; 0; 0; 0; 0])
    by (repeat constructor; lia).
  split; [apply Hnone; split; reflexivity|].
  split; [exact (Hstr Hbytes Hin)|].
  split; [vm_compute; reflexivity|].
  split; [apply Hlen; split; [discriminate | reflexivity]|].
  split; [apply Hwide; reflexivity|].
  split; [exact (Hfull eq_refl)|].
  vm_compute. reflexivity.
Defined.

Lemma add_register_at_capacity_witness :
  length (regs_mask initial_collection_list) = 8%nat ∧
  ((∃ e, add_register initial_collection_list 65 = Raised e) ↔
   65 > 8 * sizeof_regs_mask) ∧
  add_register initial_collection_list 64 =
    Undefined "store past the end of regs_mask" ∧
  (∃ c', add_register initial_collection_list 63 = Returned c' ∧
         reg_bit c' 63 = true).
Proof.
  destruct (add_register_at_capacity initial_collection_list eq_refl)
    as (Hraise & Hcap & Hlast).
  split; [reflexivity|]. split; [exact (Hraise 65)|].
  split; [exact Hcap | exact Hlast].
Defined.

Lemma reachable_base_register_collected_witness :
  reachable (memrange_sortmerge example_collected) ∧
  mk_memrange 6 (-8) (-4) ∈ list_ (memrange_sortmerge example_collected) ∧
  reg_bit (memrange_sortmerge example_collected) 6 = true ∧
  reachable example_uncollected ∧
  mk_memrange 65 0 4 ∈ list_ example_uncollected ∧
  reg_bit example_uncollected 65 = false.
Proof.
  assert (Hreach : reachable (memrange_sortmerge example_collected)).
  { apply reach_sortmerge.
    apply (reach_add_memrange initial_collection_list 6 (-8) 4).
    - apply reach_initial.
    - split; [apply Z.leb_le | apply Z.leb_le]; reflexivity.
    - intros what H. vm_compute in H. discriminate H. }
  assert (Hin : mk_memrange 6 (-8) (-4)
                ∈ list_ (memrange_sortmerge example_collected))
    by (vm_compute; apply list_elem_of_here).
  assert (Hreach' : reachable example_uncollected).
  { apply (reach_add_memrange initial_collection_list 65 0 4).
    - apply reach_initial.
    - split; [apply Z.leb_le | apply Z.leb_le]; reflexivity.
    - intros what H. vm_compute in H. discriminate H. }
  assert (Hin' : mk_memrange 65 0 4 ∈ list_ example_uncollected)
    by (vm_compute; apply list_elem_of_here).
  split; [exact Hreach|]. split; [exact Hin|].
  split.
  - apply (reachable_base_register_collected
             (memrange_sortmerge example_collected) (mk_memrange 6 (-8) (-4)) 6
             Hreach Hin eq_refl); reflexivity.
  - split; [exact Hreach'|]. split; [exact Hin'|].
    apply (reachable_base_register_collected
             example_uncollected (mk_memrange 65 0 4) 65
             Hreach' Hin' eq_refl); reflexivity.
Defined.

Lemma add_memrange_leaves_uncollected_base :
  add_memrange initial_collection_list 65 0 4 =
    (example_uncollected, Raised (err_register_too_large 65)) ∧
  reachable example_uncollected ∧
  mk_memrange 65 0 4 ∈ list_ example_uncollected ∧
  ¬ base_registers_collected example_uncollected.
Proof.
  assert (Hreach : reachable example_uncollected).
  { apply (reach_add_memrange initial_collection_list 65 0 4).
    - apply reach_initial.
    - split; [apply Z.leb_le | apply Z.leb_le]; reflexivity.
    - intros what H. vm_compute in H. discriminate H. }
  assert (Hin : mk_memrange 65 0 4 ∈ list_ example_uncollected)
    by (vm_compute; apply list_elem_of_here).
  split; [vm_compute; reflexivity|].
  split; [exact Hreach|]. split; [exact Hin|].
  intros Hall.
  specialize (Hall (mk_memrange 65 0 4) Hin ltac:(reflexivity)).
  vm_compute in Hall. discriminate Hall.
Qed.

Lemma registry_numbers_increase_witness :
  registry_reachable example_registry ∧
  registry_step example_registry example_registry_after_delete ∧
  chain_increasing example_registry ∧
  count_bounds_numbers example_registry ∧
  tracepoint_count example_registry
    <= tracepoint_count example_registry_after_delete ∧
  ∀ t', t' ∈ tracepoint_chain example_registry_after_delete →
        number t' <= tracepoint_count example_registry →
        ∃ t, t ∈ tracepoint_chain example_registry ∧ number t = number t'.
Proof.
  assert (Hreach : registry_reachable example_registry).
  { apply (registry_next (initial_session true ∅)).
    - apply registry_initial.
    - apply (step_create example_junk (Some "main")).
      vm_compute. reflexivity. }
  assert (Hstep : registry_step example_registry example_registry_after_delete).
  { apply (step_delete (Some "1") true). vm_compute. reflexivity. }
  destruct (registry_numbers_increase example_registry
              example_registry_after_delete Hreach) as (Hinc & Hbound & Hnext).
  destruct (Hnext Hstep) as [Hcount Hfresh].
  split; [exact Hreach|]. split; [exact Hstep|]. split; [exact Hinc|].
  split; [exact Hbound|]. split; [exact Hcount | exact Hfresh].
Defined.

Lemma make_source_file_separator_witness :
  make_source_file (fun _ => "x"%char)
    (mk_symtab (Some "a.c") (Some "/usr/src/")) = Returned "/usr/src//a.c" ∧
  make_source_file (fun _ => "/"%char)
    (mk_symtab (Some "a.c") (Some "/usr/src")) = Returned "/usr/srca.c".
Proof.
  split.
  - exact (make_source_file_separator (fun _ => "x"%char) "/usr/src/" "a.c"
             eq_refl eq_refl).
  - exact (make_source_file_separator (fun _ => "/"%char) "/usr/src" "a.c"
             eq_refl eq_refl).
Defined.

Lemma validate_actionline_zero_steps_witness :
  tracepoint_chain example_actions_session !! 0%nat
    = Some example_stepping_tracepoint ∧
  validate_actionline_at "while-stepping 0" 0 example_actions_session =
    Returned (BADLINE,
              with_tracepoint_chain example_actions_session
                [set_step_count example_stepping_tracepoint 0]) ∧
  [set_step_count example_stepping_tracepoint 0]
    ≠ tracepoint_chain example_actions_session.
Proof.
  destruct (validate_actionline_zero_steps example_actions_session 0
              example_stepping_tracepoint eq_refl) as [Hbad Hchanged].
  split; [reflexivity|]. split; [exact Hbad|].
  apply Hchanged. discriminate.
Defined.

Lemma tstart_actions_too_complex_witness :
  sizeof_buf <=
    strlen (qtdp_text example_complex_tracepoint
              (outcome_value (None, None)
                 (encode_actions example_complex_tracepoint)).1
              (outcome_value (None, None)
                 (encode_actions example_complex_tracepoint)).2) ∧
  send_tracepoint example_complex_tracepoint example_complex_session =
    (example_complex_session, Raised (err_actions_too_complex 1)) ∧
  (trace_start_command example_complex_session).2 ≠ Returned tt ∧
  tracepoint_chain (trace_start_command example_complex_session).1 =
    [example_complex_tracepoint] ∧
  sent (trace_start_command example_complex_session).1 = ["QTinit"] ∧
  send_tracepoint example_long_tracepoint example_complex_session =
    (example_complex_session,
     Undefined "sprintf past the end of the character array") ∧
  send_tracepoint example_boundary_tracepoint example_complex_session =
    (example_complex_session, Undefined "strcat (buf, S) past the end of buf") ∧
  (trace_start_command example_tstart_session).2 =
    Undefined
      "xrealloc (list, listsize) leaves the array shorter than its records".
Proof.
  assert (Henc : encode_actions example_complex_tracepoint =
                 Returned
                   ((outcome_value (None, None)
                       (encode_actions example_complex_tracepoint)).1,
                    (outcome_value (None, None)
                       (encode_actions example_complex_tracepoint)).2))
    by (vm_compute; reflexivity).
  assert (Hlen : sizeof_buf <=
                 strlen (qtdp_text example_complex_tracepoint
                   (outcome_value (None, None)
                      (encode_actions example_complex_tracepoint)).1
                   (outcome_value (None, None)
                      (encode_actions example_complex_tracepoint)).2))
    by (apply Z.leb_le; vm_compute; reflexivity).
  assert (Hnone : (outcome_value (None, None)
                     (encode_actions example_complex_tracepoint)).2 = None)
    by (vm_compute; reflexivity).
  assert (Hfit : is_Some (outcome_value (None, None)
                            (encode_actions example_complex_tracepoint)).2 →
                 strlen (qtdp_header example_complex_tracepoint) +
                 strlen (default ""
                           (outcome_value (None, None)
                              (encode_actions example_complex_tracepoint)).1)
                   ≠ sizeof_buf - 1).
  { intros [x Hx]. rewrite Hnone in Hx. discriminate Hx. }
  destruct (tstart_actions_too_complex example_complex_tracepoint
              (outcome_value (None, None)
                 (encode_actions example_complex_tracepoint)).1
              (outcome_value (None, None)
                 (encode_actions example_complex_tracepoint)).2 [] []
              example_complex_session example_complex_session
              (trace_start_command example_complex_session).1
              (trace_start_command example_complex_session).2)
    as (Hwindow & _).
  destruct (Hwindow Henc Hlen Hfit) as (Hone & _ & Hcmd).
  destruct (Hcmd eq_refl eq_refl
              ltac:(destruct (trace_start_command example_complex_session);
                    reflexivity)) as (Hfail & Hchain & _).
  assert (Hloop : encode_actions_loop (actions example_long_tracepoint)
                    (address example_long_tracepoint)
                    (clear_collection_list initial_collection_list)
                    (clear_collection_list initial_collection_list) false
                  = Returned
                      ((outcome_value
                          (initial_collection_list, initial_collection_list)
                          (encode_actions_loop
                             (actions example_long_tracepoint)
                             (address example_long_tracepoint)
                             (clear_collection_list initial_collection_list)
                             (clear_collection_list initial_collection_list)
                             false)).1,
                       initial_collection_list))
    by (vm_compute; reflexivity).
  assert (Htext : stringify_collection_list
                    (memrange_sortmerge
                       (outcome_value
                          (initial_collection_list, initial_collection_list)
                          (encode_actions_loop
                             (actions example_long_tracepoint)
                             (address example_long_tracepoint)
                             (clear_collection_list initial_collection_list)
                             (clear_collection_list initial_collection_list)
                             false)).1)
                  = Some (default ""
                            (outcome_value (None, None)
                               (encode_actions example_complex_tracepoint)).1
                          +:+ "M0,90000000,10000000M0,D0000000,10000000"
                          +:+ "M0,10000000,10000000M0,50000000,10000000"
                          +:+ "M0,90000000,10000000M0,D0000000,10000000"
                          +:+ "M0,10000000,10000000M0,50000000,10000000"))
    by (vm_compute; reflexivity).
  assert (Hlong : sizeof_tdp_buff <=
                  strlen (default ""
                            (outcome_value (None, None)
                               (encode_actions example_complex_tracepoint)).1
                          +:+ "M0,90000000,10000000M0,D0000000,10000000"
                          +:+ "M0,10000000,10000000M0,50000000,10000000"
                          +:+ "M0,90000000,10000000M0,D0000000,10000000"
                          +:+ "M0,10000000,10000000M0,50000000,10000000"))
    by (apply Z.leb_le; vm_compute; reflexivity).
  destruct (tstart_actions_too_complex example_long_tracepoint None None [] []
              example_complex_session example_complex_session
              example_complex_session (Returned tt))
    as (_ & Hoverrun & _).
  pose proof (Hoverrun _ _ _ Hloop Htext Hlong) as Hsprintf.
  assert (Henc' : encode_actions example_boundary_tracepoint =
                  Returned
                    (Some (default ""
                            (outcome_value (None, None)
                               (encode_actions example_boundary_tracepoint)).1),
                     Some "RFFFF"))
    by (vm_compute; reflexivity).
  assert (Hedge : strlen (qtdp_header example_boundary_tracepoint) +
                  strlen (default ""
                            (outcome_value (None, None)
                               (encode_actions example_boundary_tracepoint)).1)
                  = sizeof_buf - 1)
    by (vm_compute; reflexivity).
  destruct (tstart_actions_too_complex example_boundary_tracepoint None None
              [] [] example_complex_session example_complex_session
              example_complex_session (Returned tt))
    as (_ & _ & Hboundary).
  pose proof (Hboundary _ _ Henc' Hedge) as Hstrcat.
  split; [exact Hlen|]. split; [exact Hone|]. split; [exact Hfail|].
  split; [exact Hchain|]. split; [vm_compute; reflexivity|].
  split; [exact Hsprintf|]. split; [exact Hstrcat|].
  vm_compute. reflexivity.
Defined.

Lemma cursor_context_follows_pc_witness :
  (traceframe_number
     (@trace_start_command example_target32 example_collaborators
        example_quiet_session).1 = -1 ∧
   trace_context_cleared
     (@trace_start_command example_target32 example_collaborators
        example_quiet_session).1) ∧
  (traceframe_number
     (@trace_find_command example_target32 example_collaborators
        (Some "-1") example_end_session).1 = -1 ∧
   trace_context_cleared
     (@trace_find_command example_target32 example_collaborators
        (Some "-1") example_end_session).1) ∧
  (traceframe_number (trace_start_command example_quiet_session).1 = -1 ∧
   internalvars (trace_start_command example_quiet_session).1
     !! "trace_line" = Some (VInt 42)) ∧
  traceframe_number (finish_tfind_command "F5T2" example_tfind_session).1 = 5 ∧
  internalvars (finish_tfind_command "F5T2" example_tfind_session).1
    !! "trace_line" = Some (VInt 42).
Proof.
  destruct (@cursor_context_follows_pc example_target32 example_collaborators
              example_quiet_session
              (@trace_start_command example_target32 example_collaborators
                 example_quiet_session).1 "" 0)
    as (Hstart & _ & Hsame & _).
  destruct (@cursor_context_follows_pc example_target32 example_collaborators
              example_end_session
              (@trace_find_command example_target32 example_collaborators
                 (Some "-1") example_end_session).1 "" (-1))
    as (_ & Hend & _).
  destruct (cursor_context_follows_pc example_quiet_session
              (trace_start_command example_quiet_session).1 "" 0)
    as (Hstart64 & _).
  destruct (cursor_context_follows_pc example_tfind_session
              (finish_tfind_command "F5T2" example_tfind_session).1 "F5T2" 0)
    as (_ & _ & _ & Hfind).
  assert (H1 : @trace_start_command example_target32 example_collaborators
                 example_quiet_session
               = ((@trace_start_command example_target32 example_collaborators
                     example_quiet_session).1, Returned tt))
    by (vm_compute; reflexivity).
  assert (H2 : @trace_find_command example_target32 example_collaborators
                 (Some "-1") example_end_session
               = ((@trace_find_command example_target32 example_collaborators
                     (Some "-1") example_end_session).1, Returned tt))
    by (vm_compute; reflexivity).
  assert (H3 : trace_start_command example_quiet_session
               = ((trace_start_command example_quiet_session).1, Returned tt))
    by (vm_compute; reflexivity).
  assert (H4 : finish_tfind_command "F5T2" example_tfind_session
               = ((finish_tfind_command "F5T2" example_tfind_session).1,
                  Returned tt))
    by (vm_compute; reflexivity).
  destruct (Hstart eq_refl H1) as [Hn1 Hc1].
  destruct (Hend eq_refl eq_refl H2) as [Hn2 Hc2].
  destruct (Hstart64 eq_refl H3) as [Hn3 _].
  destruct (Hfind H4) as (Hnum & _ & Hvars).
  split; [split; [exact Hn1 | exact (Hc1 (Hsame eq_refl))]|].
  split; [split; [exact Hn2 | exact (Hc2 (Hsame eq_refl))]|].
  split; [split; [exact Hn3 | vm_compute; reflexivity]|].
  split.
  - assert (Hparse : parse_tfind_reply (String.length "F5T2") "F5T2" (-1) (-1)
                     = Returned (5, 2)) by (vm_compute; reflexivity).
    rewrite Hparse in Hnum. congruence.
  - destruct (Hvars ltac:(discriminate)) as (Hline & _). exact Hline.
Defined.

(** C5 as the specification states it fails at "tfind 5" answered T7F3F:
    the reply names no frame, so traceframe_number is -1, while the
    current frame is at 0x4010c0, a pc with line 42, so $trace_line is
    42. *)
Lemma tfind_keeps_context_without_frame_number :
  trace_find_command (Some "5") example_tfind_session =
    ((trace_find_command (Some "5") example_tfind_session).1, Returned tt) ∧
  traceframe_number (trace_find_command (Some "5") example_tfind_session).1
    = -1 ∧
  internalvars (trace_find_command (Some "5") example_tfind_session).1
    !! "trace_line" = Some (VInt 42) ∧
  ¬ (traceframe_number (trace_find_command (Some "5") example_tfind_session).1
       = -1 ↔
     trace_context_cleared
       (trace_find_command (Some "5") example_tfind_session).1).
Proof.
  assert (Hline : internalvars
                    (trace_find_command (Some "5") example_tfind_session).1
                  !! "trace_line" = Some (VInt 42))
    by (vm_compute; reflexivity).
  split; [vm_compute; reflexivity|]. split; [vm_compute; reflexivity|].
  split; [exact Hline|].
  intros [Hcleared _]. destruct (Hcleared ltac:(vm_compute; reflexivity))
    as (_ & _ & Hminus).
  rewrite Hline in Hminus. discriminate Hminus.
Qed.

Lemma memrange_sortmerge_ordered_witness :
  list_ (memrange_sortmerge example_unsorted) !! 0%nat
    = Some example_absolute_low ∧
  list_ (memrange_sortmerge example_unsorted) !! 2%nat
    = Some example_range_c ∧
  memrange_cmp example_absolute_low example_range_c <= 0.
Proof.
  assert (H0 : list_ (memrange_sortmerge example_unsorted) !! 0%nat
               = Some example_absolute_low) by reflexivity.
  assert (H2 : list_ (memrange_sortmerge example_unsorted) !! 2%nat
               = Some example_range_c) by reflexivity.
  split; [exact H0|]. split; [exact H2|].
  exact (memrange_sortmerge_ordered example_unsorted 0 2
           example_absolute_low example_range_c ltac:(lia) H0 H2).
Defined.

Lemma memrange_sortmerge_idempotent_witness :
  sortmerge_of_sorted [mk_memrange 0 4 8; mk_memrange 0 100 104]
    = sortmerge_of_sorted [mk_memrange 0 4 6; mk_memrange 0 4 8;
                           mk_memrange 0 100 104] ∧
  list_ (memrange_sortmerge example_tied)
    = sortmerge_of_sorted (qsort memrange_cmp (list_ example_tied)).
Proof.
  destruct (memrange_sortmerge_idempotent example_tied
              [mk_memrange 0 4 6; mk_memrange 0 4 8; mk_memrange 0 100 104]
              [mk_memrange 0 4 8; mk_memrange 0 100 104])
    as (Hidem & _ & Hlist).
  assert (Hm : sortmerge_of_sorted [mk_memrange 0 4 6; mk_memrange 0 4 8;
                                    mk_memrange 0 100 104]
               = [mk_memrange 0 4 8; mk_memrange 0 100 104])
    by (vm_compute; reflexivity).
  split; [|exact Hlist].
  apply Hidem.
  - split; [apply perm_swap|].
    repeat constructor; apply Z.leb_le; reflexivity.
  - rewrite Hm. repeat constructor; apply Z.ltb_lt; reflexivity.
  - rewrite Hm. split; [reflexivity|].
    repeat constructor; apply Z.leb_le; reflexivity.
Defined.

Lemma memrange_sortmerge_takes_last_end_witness :
  list_ (memrange_sortmerge (example_list [example_range_b; example_range_a]))
  = [mk_memrange 6 (-8) 8].
Proof.
  exact (memrange_sortmerge_takes_last_end
           (example_list [example_range_b; example_range_a])
           example_range_a example_range_b eq_refl eq_refl
           ltac:(apply Z.leb_le; reflexivity) (or_intror eq_refl)).
Defined.

Lemma add_register_set_like_witness :
  add_register example_one_register 3 = Returned example_one_register ∧
  ∃ c2, add_register initial_collection_list 10 = Returned c2 ∧
        add_register c2 3 = Returned example_two_registers.
Proof.
  exact (add_register_set_like initial_collection_list example_one_register
           example_two_registers 3 10 ltac:(lia) ltac:(lia) eq_refl eq_refl).
Defined.

Lemma add_all_registers_collects_witness :
  ∃ c', add_all_registers 16 0 initial_collection_list = Returned c' ∧
        list_ c' = [] ∧
        ∀ r, 0 <= r < 16 → reg_bit c' r = true.
Proof.
  destruct (add_all_registers_collects initial_collection_list 16 eq_refl
              ltac:(lia)) as [Hfits _].
  exact (Hfits ltac:(lia)).
Defined.

Lemma trace_command_appends_witness :
  trace_command example_junk (Some "main") (initial_session true ∅)
    = Returned example_registry ∧
  "main" ≠ "" ∧
  if Ascii.eqb (deref "main") "/"
  then example_registry = initial_session true ∅
  else
    ∃ (sals : list symtab_and_line) (canonical : list (option string))
      (used : nat) (new : list tracepoint),
      decode_line_1 "main" = Returned (sals, canonical, used) ∧
      tracepoint_chain example_registry
        = tracepoint_chain (initial_session true ∅) ++ new ∧
      tracepoint_count example_registry
        = tracepoint_count (initial_session true ∅) + Z.of_nat (length new) ∧
      Forall2 fresh_tracepoint sals new ∧
      ∀ (k : nat) (t : tracepoint),
        new !! k = Some t →
        number t = tracepoint_count (initial_session true ∅) + Z.of_nat k + 1.
Proof.
  assert (H : trace_command example_junk (Some "main") (initial_session true ∅)
              = Returned example_registry) by (vm_compute; reflexivity).
  split; [exact H|].
  exact (trace_command_appends example_junk "main"
           (initial_session true ∅) example_registry H).
Defined.

Lemma last_tracepoint_is_default_witness :
  tracepoint_chain example_registry
    ≠ tracepoint_chain (initial_session true ∅) ∧
  get_tracepoint_by_number None example_registry
    = Returned (Some (length (tracepoint_chain example_registry) - 1)%nat,
                None) ∧
  get_tracepoint_by_number (Some "") example_registry
    = Returned (Some (length (tracepoint_chain example_registry) - 1)%nat,
                Some "") ∧
  get_tracepoint_by_number (Some "$tpnum") example_registry
    = Returned (Some (length (tracepoint_chain example_registry) - 1)%nat,
                Some "").
Proof.
  assert (Hcmd : trace_command example_junk (Some "main")
                   (initial_session true ∅)
                 = Returned example_registry) by (vm_compute; reflexivity).
  assert (Hnew : tracepoint_chain example_registry
                 ≠ tracepoint_chain (initial_session true ∅))
    by (intros H; vm_compute in H; discriminate H).
  split; [exact Hnew|].
  exact (last_tracepoint_is_default example_junk (Some "main")
           (initial_session true ∅) example_registry
           (registry_initial true ∅) Hcmd Hnew).
Defined.
Lemma deleted_tracepoint_is_gone_witness :
  registry_reachable example_registry ∧
  get_tracepoint_by_number (Some "1")
    (tracepoint_operation 0 delete_op example_registry)
    = Returned (None, Some "") ∧
  get_tracepoint_by_number (Some "2")
    (tracepoint_operation 0 delete_op example_registry)
    = Returned (Some 0%nat, Some "").
Proof.
  assert (Hreach : registry_reachable example_registry).
  { apply (registry_next (initial_session true ∅)).
    - apply registry_initial.
    - apply (step_create example_junk (Some "main")).
      vm_compute. reflexivity. }
  assert (Hlt : (0 < length (tracepoint_chain example_registry))%nat)
    by (vm_compute; lia).
  split; [exact Hreach|]. split.
  - rewrite (deleted_tracepoint_is_gone example_registry 0 (Some "1")
               Hreach Hlt).
    vm_compute. reflexivity.
  - rewrite (deleted_tracepoint_is_gone example_registry 0 (Some "2")
               Hreach Hlt).
    vm_compute. reflexivity.
Defined.

Lemma enable_disable_all_witness :
  enable_trace_command None example_registry
  = Returned (with_tracepoint_chain example_registry
                ((fun t => set_enabled t enabled)
                 <$> tracepoint_chain example_registry)) ∧
  disable_trace_command None example_registry
  = Returned (with_tracepoint_chain example_registry
                ((fun t => set_enabled t disabled)
                 <$> tracepoint_chain example_registry)).
Proof.
  exact (enable_disable_all None example_registry (or_introl eq_refl)).
Defined.

Lemma map_args_over_tracepoints_hangs_witness :
  map_args_over_tracepoints (Some "foo") delete_op example_registry
  = Diverges.
Proof.
  exact (map_args_over_tracepoints_hangs "f" "oo" delete_op example_registry
           eq_refl).
Defined.

Lemma register_reply_is_malformed_witness :
  remote_get_noisy_reply example_register_session
  = (with_replies example_register_session ["OK"],
     Raised err_malformed_R_packet).
Proof.
  assert (Hrep : replies example_register_session = "R0:00000000;" :: ["OK"])
    by reflexivity.
  assert (HR : char_is "R0:00000000;" "R" = true) by reflexivity.
  exact (register_reply_is_malformed example_register_session
           "R0:00000000;" ["OK"] Hrep HR).
Defined.

Lemma remote_get_noisy_reply_returns_witness :
  remote_get_noisy_reply example_noisy_session
    = ((remote_get_noisy_reply example_noisy_session).1, Returned "OK") ∧
  ∃ noise rest,
    replies example_noisy_session = noise ++ "OK" :: rest ∧
    Forall console_packet noise ∧
    (remote_get_noisy_reply example_noisy_session).1
    = with_console (with_replies example_noisy_session rest)
        (console example_noisy_session ++ (advance 1 <$> noise)) ∧
    "OK" ≠ "" ∧ char_is "OK" "E" = false ∧ char_is "OK" "R" = false ∧
    (char_is "OK" "O" = true → char_is (advance 1 "OK") "K" = true).
Proof.
  assert (H : remote_get_noisy_reply example_noisy_session
              = ((remote_get_noisy_reply example_noisy_session).1,
                 Returned "OK")) by (vm_compute; reflexivity).
  split; [exact H|].
  exact (remote_get_noisy_reply_returns example_noisy_session
           (remote_get_noisy_reply example_noisy_session).1 "OK" H).
Defined.

Lemma trace_start_command_sends_witness :
  trace_start_command example_download_session
    = ((trace_start_command example_download_session).1, Returned tt) ∧
  ∃ pkts,
    Forall2 (fun t p => qtdp_packet t = Returned p)
      (tracepoint_chain example_download_session) pkts ∧
    sent (trace_start_command example_download_session).1
    = sent example_download_session ++ "QTinit" :: pkts ++ ["QTStart"] ∧
    tracepoint_chain (trace_start_command example_download_session).1
    = tracepoint_chain example_download_session ∧
    tracepoint_count (trace_start_command example_download_session).1
    = tracepoint_count example_download_session.
Proof.
  assert (Hremote : target_remote example_download_session = true)
    by reflexivity.
  assert (H : trace_start_command example_download_session
              = ((trace_start_command example_download_session).1,
                 Returned tt)) by (vm_compute; reflexivity).
  split; [exact H|].
  exact (trace_start_command_sends example_download_session
           (trace_start_command example_download_session).1 Hremote H).
Defined.

Lemma protocol_command_keeps_witness :
  (tracepoint_chain (trace_stop_command example_noisy_session).1
   = tracepoint_chain example_noisy_session ∧
   tracepoint_count (trace_stop_command example_noisy_session).1
   = tracepoint_count example_noisy_session) ∧
  ((trace_find_command (Some "-") example_frame_session).2 ≠ Returned tt →
   same_but_traffic example_frame_session
     (trace_find_command (Some "-") example_frame_session).1).
Proof.
  destruct (protocol_command_keeps trace_stop_command example_noisy_session
              (trace_stop_command example_noisy_session).1
              (trace_stop_command example_noisy_session).2
              is_tstop
              ltac:(destruct (trace_stop_command example_noisy_session);
                    reflexivity)) as [Hkeep _].
  destruct (protocol_command_keeps (trace_find_command (Some "-"))
              example_frame_session
              (trace_find_command (Some "-") example_frame_session).1
              (trace_find_command (Some "-") example_frame_session).2
              (is_tfind (Some "-"))
              ltac:(destruct (trace_find_command (Some "-")
                                example_frame_session);
                    reflexivity)) as [_ Hfail].
  split; [exact Hkeep | exact Hfail].
Defined.

Lemma validate_actionline_accepts_witness :
  validate_actionline "while-stepping 3" example_big_tracepoint
  = Returned (STEPPING, set_step_count example_big_tracepoint 3) ∧
  (STEPPING = STEPPING →
   set_step_count example_big_tracepoint 3
   = set_step_count example_big_tracepoint
       (step_count (set_step_count example_big_tracepoint 3)) ∧
   step_count (set_step_count example_big_tracepoint 3) ≠ 0).
Proof.
  assert (H : validate_actionline "while-stepping 3" example_big_tracepoint
              = Returned (STEPPING, set_step_count example_big_tracepoint 3))
    by (vm_compute; reflexivity).
  split; [exact H|].
  destruct (validate_actionline_accepts "while-stepping 3"
              example_big_tracepoint (set_step_count example_big_tracepoint 3)
              STEPPING H ltac:(discriminate)) as [Hstep _].
  exact Hstep.
Defined.

Lemma trace_actions_command_stores_witness :
  trace_actions_command (Some "1") example_input example_registry
    = ((trace_actions_command (Some "1") example_input example_registry).1,
       Returned ["enable 1"]) ∧
  ∃ consumed last t t',
    example_input = consumed ++ last :: ["enable 1"] ∧
    linetype_of last t = Returned END ∧
    tracepoint_chain example_registry !! 0%nat = Some t ∧
    (trace_actions_command (Some "1") example_input example_registry).1
    = with_tracepoint_chain example_registry
        (<[0%nat := t']> (tracepoint_chain example_registry)) ∧
    same_but_actions t t' ∧
    actions t' = List.filter (stored_line t) (consumed ++ [last]).
Proof.
  assert (Hget : get_tracepoint_by_number (Some "1") example_registry
                 = Returned (Some 0%nat, Some ""))
    by (vm_compute; reflexivity).
  assert (H : trace_actions_command (Some "1") example_input example_registry
              = ((trace_actions_command (Some "1") example_input
                    example_registry).1, Returned ["enable 1"]))
    by (vm_compute; reflexivity).
  split; [exact H|].
  exact (trace_actions_command_stores (Some "1") (Some "") example_input
           ["enable 1"] 0 example_registry
           (trace_actions_command (Some "1") example_input example_registry).1
           Hget H).
Defined.

Lemma trace_actions_command_all_or_nothing_witness :
  trace_actions_command (Some "1") example_bad_input example_registry
    = ((trace_actions_command (Some "1") example_bad_input
          example_registry).1,
       Raised (err_bad_memrange "invalid size in memrange")) ∧
  ∃ t t',
    tracepoint_chain example_registry !! 0%nat = Some t ∧
    (trace_actions_command (Some "1") example_bad_input example_registry).1
    = with_tracepoint_chain example_registry
        (<[0%nat := t']> (tracepoint_chain example_registry)) ∧
    same_but_actions t t' ∧
    actions t' = [].
Proof.
  assert (Hget : get_tracepoint_by_number (Some "1") example_registry
                 = Returned (Some 0%nat, Some ""))
    by (vm_compute; reflexivity).
  assert (H : trace_actions_command (Some "1") example_bad_input
                example_registry
              = ((trace_actions_command (Some "1") example_bad_input
                    example_registry).1,
                 Raised (err_bad_memrange "invalid size in memrange")))
    by (vm_compute; reflexivity).
  split; [exact H|].
  exact (trace_actions_command_all_or_nothing (Some "1") (Some "")
           example_bad_input 0 example_registry
           (trace_actions_command (Some "1") example_bad_input
              example_registry).1
           (err_bad_memrange "invalid size in memrange") Hget H).
Defined.

Lemma add_block_symbols_stops_at_function_witness :
  add_block_symbols initial_collection_list "L"
    ([] ++ example_function_block :: [example_file_block])
  = add_block_symbols initial_collection_list "L"
      ([] ++ [example_function_block]).
Proof.
  exact (add_block_symbols_stops_at_function initial_collection_list "L" []
           [example_file_block] example_function_block eq_refl).
Defined.

Lemma qtdp_packet_fits_witness :
  qtdp_packet example_stepping_tracepoint
  = Returned "QTDP:1:4010c0:E:3:0RFFFFSRFFFF" ∧
  strlen "QTDP:1:4010c0:E:3:0RFFFFSRFFFF" < sizeof_buf.
Proof.
  assert (H : qtdp_packet example_stepping_tracepoint
              = Returned "QTDP:1:4010c0:E:3:0RFFFFSRFFFF")
    by (vm_compute; reflexivity).
  split; [exact H|].
  exact (qtdp_packet_fits example_stepping_tracepoint
           "QTDP:1:4010c0:E:3:0RFFFFSRFFFF" H).
Defined.


Lemma trace_find_command_selects_witness :
  ∃ s',
    trace_find_command (Some "5") example_frame_session = (s', Returned tt) ∧
    sent s' = sent example_frame_session ++ ["QTFrame:" +:+ sprintf_x 5] ∧
    replies s' = [] ∧
    traceframe_number s' = 5 ∧
    tracepoint_number s' = 2 ∧
    internalvars s' !! "trace_frame" = Some (VInt 5) ∧
    internalvars s' !! "tracepoint" = Some (VInt 2).
Proof.
  assert (Hremote : target_remote example_frame_session = true)
    by reflexivity.
  assert (Hparse : parse_and_eval_address "5" = Returned 5)
    by (vm_compute; reflexivity).
  assert (Hint : to_int 5 = 5) by (vm_compute; reflexivity).
  assert (Hf : 0 <= 5 <= INT_MAX) by (vm_compute; split; discriminate).
  assert (Ht : 0 <= 2 <= INT_MAX) by (vm_compute; split; discriminate).
  assert (Hrep : replies example_frame_session
                 = ("F" +:+ sprintf_x 5 +:+ "T" +:+ sprintf_x 2) :: [])
    by (vm_compute; reflexivity).
  exact (trace_find_command_selects "5" 5 5 2 [] example_frame_session
           Hremote ltac:(discriminate) ltac:(discriminate) Hparse Hint
           Hf Ht Hrep).
Defined.

Lemma saved_actions_alike_witness :
  saved_actions example_indented_tracepoint
  = ["    collect $reg"; "    while-stepping 3"; "      collect $reg";
     "      end"; "    end"] ∧
  encode_actions
    (set_actions example_indented_tracepoint
       (saved_actions example_indented_tracepoint))
  = encode_actions example_indented_tracepoint.
Proof.
  destruct (saved_actions_alike example_indented_tracepoint) as (_ & _ & Henc).
  split; [vm_compute; reflexivity | exact Henc].
Defined.

Lemma validate_actionline_comes_back_witness :
  comes_back (validate_actionline "collect $reg, $(0,4), x"
                example_big_tracepoint).
Proof.
  exact (validate_actionline_comes_back "collect $reg, $(0,4), x"
           example_big_tracepoint (fun _ _ => I)).
Defined.
